(** * Snake engine of [src/app/(tabs)/snake.tsx]

    The source file holds two implementations of the same screen:
    - variant A (lines 1-278): reads the food through [foodRef] and keeps a
      growth counter [growthRef];
    - variant B (lines 279-584): reads [food] from the closure of [step] and
      has no growth counter.

    Both are embedded below, each in its own module, over a common part
    (points, directions, [moveHead], [randomFood], the speed formula and the
    direction guard of [changeDir]).

    Modelling conventions.
    - JS numbers that hold integers are [Z].  [Math.random()] yields a
      rational [u] with [0 <= u < 1], products are exact and [Math.floor]
      is [Qfloor].  The rounding of the floating-point product [u * 20]
      (or [u * 26]) can move a sample lying within one unit in the last
      place of a cell boundary into the next cell, never off the board;
      no speed the game reaches, times 0.96, comes closer than 0.08 to an
      integer ([speedLadder_off_integers]), so the exact floor is the
      computed one.
    - An event handler runs to completion, then React re-renders and the
      [useEffect] hooks copy the state into the refs ([commit]); the next
      event sees the refs of that render.
    - [setTimeout(..., 600)] is a pending timer in the state; its firing is
      an event of its own.  Real time is not modelled.
    - The stream of [Math.random()] results consumed by a handler is an
      argument of the event; [randomFood] yields [Spin] when the samples
      given run out before a free cell shows up (the loop has not returned). *)

From Stdlib Require Import ZArith QArith Qround List Bool Lia.
Import ListNotations.
Open Scope Z_scope.

(** ** Results of handlers *)

Inductive result (A : Type) : Type :=
| Ok (a : A)
| TypeError
| Spin.
Arguments Ok {A} a.
Arguments TypeError {A}.
Arguments Spin {A}.

Definition bind {A B : Type} (r : result A) (k : A -> result B) : result B :=
  match r with
  | Ok a => k a
  | TypeError => TypeError
  | Spin => Spin
  end.

Notation "'let*' v ':=' r 'in' k" := (bind r (fun v => k))
  (at level 10, v name, r at level 100, k at level 200).

(** ** Points, directions, constants (lines 4-15) *)

Record Point : Type := mkPoint { x : Z; y : Z }.

Inductive Direction : Type := UP | DOWN | LEFT | RIGHT.

Definition BOARD_COLS : Z := 20.
Definition BOARD_ROWS : Z := 26.
Definition INITIAL_SNAKE : list Point :=
  [ mkPoint 5 10; mkPoint 4 10; mkPoint 3 10 ].
Definition INITIAL_DIR : Direction := RIGHT.
Definition BASE_SPEED_MS : Z := 140.

(** [p.x === q.x && p.y === q.y] *)
Definition samePoint (p q : Point) : bool :=
  (x p =? x q) && (y p =? y q).

(** [arr.some(p => p.x === c.x && p.y === c.y)] *)
Definition some_at (arr : list Point) (c : Point) : bool :=
  existsb (fun p => samePoint p c) arr.

(** [moveHead] (lines 196-204 and 473-484); the [default] branch of
    variant A is dead for a value of type [Direction]. *)
Definition moveHead (head : Point) (dir : Direction) : Point :=
  match dir with
  | UP => mkPoint (x head) (y head - 1)
  | DOWN => mkPoint (x head) (y head + 1)
  | LEFT => mkPoint (x head - 1) (y head)
  | RIGHT => mkPoint (x head + 1) (y head)
  end.

(** The wall test of [step]:
    [nextHead.x < 0 || nextHead.x >= BOARD_COLS || nextHead.y < 0 || nextHead.y >= BOARD_ROWS]. *)
Definition hitsWall (nextHead : Point) : bool :=
  (x nextHead <? 0) || (x nextHead >=? BOARD_COLS) ||
  (y nextHead <? 0) || (y nextHead >=? BOARD_ROWS).

(** [Math.floor(Math.random() * n)] for the sample [u]. *)
Definition floorRandom (u : Q) (n : Z) : Z := Qfloor (u * inject_Z n).

(** [randomFood] (lines 206-212 and 486-494).  Each turn of the loop draws
    two samples; the first free cell is returned. *)
Fixpoint randomFood (occupied : list Point) (rnd : list Q) : result Point :=
  match rnd with
  | u :: v :: rest =>
      let c := mkPoint (floorRandom u BOARD_COLS) (floorRandom v BOARD_ROWS) in
      if negb (some_at occupied c) then Ok c else randomFood occupied rest
  | _ => Spin
  end.

(** [ms => Math.max(70, Math.floor(ms * 0.96))] *)
Definition speedUp (ms : Z) : Z :=
  Z.max 70 (Qfloor (inject_Z ms * (96 # 100))).

(** The guard of [changeDir] (lines 116-121 and 382-387). *)
Definition isReverse (curr next : Direction) : bool :=
  match curr, next with
  | UP, DOWN | DOWN, UP | LEFT, RIGHT | RIGHT, LEFT => true
  | _, _ => false
  end.

(** The updater passed to [setDir] by [changeDir]. *)
Definition dirUpdater (next curr : Direction) : Direction :=
  if isReverse curr next then curr else next.

(** [prev.slice(0, -1)] and the effect of [newSnake.pop()] on the array. *)
Definition dropLast (arr : list Point) : list Point := removelast arr.

(** ** Predicates of the statements *)

Definition inBoard (c : Point) : Prop :=
  0 <= x c < BOARD_COLS /\ 0 <= y c < BOARD_ROWS.

Definition goodSnake (s : list Point) : Prop :=
  Forall inBoard s /\ NoDup s.

Definition unitSample (u : Q) : Prop := (0 <= u)%Q /\ (u < 1)%Q.


(** The samples drawn by successive turns of the loop of [randomFood]. *)
Definition samplesOf (turns : list (Q * Q)) : list Q :=
  flat_map (fun t => [fst t; snd t]) turns.

(** The cell a turn of the loop computes from its two samples. *)
Definition cellOf (t : Q * Q) : Point :=
  mkPoint (floorRandom (fst t) BOARD_COLS) (floorRandom (snd t) BOARD_ROWS).

(** ** Variant A (lines 1-278) *)

Module VariantA.

(** The six [useState] cells, the five [useRef] cells and the number of
    [setTimeout] callbacks of [resetGame] that have not fired yet. *)
Record State : Type := mkState {
  snake : list Point;
  dir : Direction;
  food : Point;
  running : bool;
  score : Z;
  speed : Z;
  dirRef : Direction;
  runningRef : bool;
  snakeRef : list Point;
  foodRef : Point;
  growthRef : Z;
  timers : nat
}.

Definition setSnake (v : list Point) (s : State) : State :=
  mkState v (dir s) (food s) (running s) (score s) (speed s)
          (dirRef s) (runningRef s) (snakeRef s) (foodRef s) (growthRef s) (timers s).
Definition setDir (v : Direction) (s : State) : State :=
  mkState (snake s) v (food s) (running s) (score s) (speed s)
          (dirRef s) (runningRef s) (snakeRef s) (foodRef s) (growthRef s) (timers s).
Definition setFood (v : Point) (s : State) : State :=
  mkState (snake s) (dir s) v (running s) (score s) (speed s)
          (dirRef s) (runningRef s) (snakeRef s) (foodRef s) (growthRef s) (timers s).
Definition setRunning (v : bool) (s : State) : State :=
  mkState (snake s) (dir s) (food s) v (score s) (speed s)
          (dirRef s) (runningRef s) (snakeRef s) (foodRef s) (growthRef s) (timers s).
Definition setScore (v : Z) (s : State) : State :=
  mkState (snake s) (dir s) (food s) (running s) v (speed s)
          (dirRef s) (runningRef s) (snakeRef s) (foodRef s) (growthRef s) (timers s).
Definition setSpeed (v : Z) (s : State) : State :=
  mkState (snake s) (dir s) (food s) (running s) (score s) v
          (dirRef s) (runningRef s) (snakeRef s) (foodRef s) (growthRef s) (timers s).
Definition setFoodRef (v : Point) (s : State) : State :=
  mkState (snake s) (dir s) (food s) (running s) (score s) (speed s)
          (dirRef s) (runningRef s) (snakeRef s) v (growthRef s) (timers s).
Definition setGrowthRef (v : Z) (s : State) : State :=
  mkState (snake s) (dir s) (food s) (running s) (score s) (speed s)
          (dirRef s) (runningRef s) (snakeRef s) (foodRef s) v (timers s).
Definition setTimers (v : nat) (s : State) : State :=
  mkState (snake s) (dir s) (food s) (running s) (score s) (speed s)
          (dirRef s) (runningRef s) (snakeRef s) (foodRef s) (growthRef s) v.

(** The four [useEffect] hooks of lines 37-40, run after a render. *)
Definition commit (s : State) : State :=
  mkState (snake s) (dir s) (food s) (running s) (score s) (speed s)
          (dir s) (running s) (snake s) (food s) (growthRef s) (timers s).

(** [resetGame] (lines 42-55), the synchronous part: [setRunning(false)]
    and one more timer. *)
Definition resetGame (s : State) : State :=
  setTimers (S (timers s)) (setRunning false s).

(** The callback of [setTimeout] in [resetGame] (lines 45-53). *)
Definition resetTimeout (rnd : list Q) (s : State) : result State :=
  let s1 := setDir INITIAL_DIR (setSnake INITIAL_SNAKE s) in
  let* f := randomFood INITIAL_SNAKE rnd in
  let s2 := setFoodRef f (setFood f s1) in
  let s3 := setScore 0 (setSpeed BASE_SPEED_MS s2) in
  Ok (setRunning true (setGrowthRef 0 s3)).

(** Lines 84-93, the branch [if (ateFood)]. *)
Definition eatFood (rnd : list Q) (newSnake : list Point) (s : State)
  : result State :=
  let s1 := setGrowthRef (growthRef s + 1) s in
  let s2 := setScore (score s1 + 1) s1 in
  let* newFood := randomFood newSnake rnd in
  let s3 := setFoodRef newFood (setFood newFood s2) in
  Ok (setSpeed (speedUp (speed s3)) s3).

(** Lines 95-101: the tail adjustment and the value returned to [setSnake]. *)
Definition adjustTail (newSnake : list Point) (s : State) : State :=
  if growthRef s >? 0
  then setSnake newSnake (setGrowthRef (growthRef s - 1) s)
  else setSnake (dropLast newSnake) s.

(** The body tested for self-collision (line 75). *)
Definition bodyToCheck (willMoveTail : bool) (prev : list Point) : list Point :=
  if willMoveTail then dropLast prev else prev.

(** [step] (lines 57-103).  [prev[0]] of an empty array is [undefined] and
    [moveHead] then throws. *)
Definition step (rnd : list Q) (s : State) : result State :=
  let prev := snake s in
  match prev with
  | [] => TypeError
  | head :: _ =>
      let currentFood := foodRef s in
      let nextHead := moveHead head (dirRef s) in
      let ateFood := samePoint nextHead currentFood in
      let willMoveTail := negb ateFood && (growthRef s =? 0) in
      if hitsWall nextHead then Ok (setSnake INITIAL_SNAKE (resetGame s))
      else
        let hitsSelf := some_at (bodyToCheck willMoveTail prev) nextHead in
        if hitsSelf then Ok (setSnake INITIAL_SNAKE (resetGame s))
        else
          let newSnake := nextHead :: prev in
          let* s1 := (if ateFood then eatFood rnd newSnake s else Ok s) in
          Ok (adjustTail newSnake s1)
  end.

(** The callback of [setInterval] (lines 107-110). *)
Definition tick (rnd : list Q) (s : State) : result State :=
  if negb (runningRef s) then Ok s else step rnd s.

(** [changeDir] (lines 114-124). *)
Definition changeDir (next : Direction) (s : State) : State :=
  setDir (dirUpdater next (dir s)) s.

(** What can happen to the component: a tick of the interval, a swipe, the
    firing of a reset timer, a press on Pause/Resume (line 187), a press
    on Restart (line 189). *)
Inductive Event : Type :=
| Tick (rnd : list Q)
| ChangeDir (next : Direction)
| Timeout (rnd : list Q)
| TogglePause
| Restart.

Definition handler (ev : Event) (s : State) : result State :=
  match ev with
  | Tick rnd => tick rnd s
  | ChangeDir next => Ok (changeDir next s)
  | Timeout rnd =>
      match timers s with
      | O => Ok s
      | S n => resetTimeout rnd (setTimers n s)
      end
  | TogglePause => Ok (setRunning (negb (running s)) s)
  | Restart => Ok (resetGame s)
  end.

(** One event: the handler, then the render and its effects. *)
Definition handle (ev : Event) (s : State) : result State :=
  let* s' := handler ev s in Ok (commit s').

Fixpoint run (evs : list Event) (s : State) : result State :=
  match evs with
  | [] => Ok s
  | ev :: evs' => let* s' := handle ev s in run evs' s'
  end.

(** The first render (lines 24-35): the lazy initial food, the refs
    initialised from the state, no growth pending, no timer. *)
Definition mount (rnd : list Q) : result State :=
  let* f := randomFood INITIAL_SNAKE rnd in
  Ok (mkState INITIAL_SNAKE INITIAL_DIR f true 0 BASE_SPEED_MS
              INITIAL_DIR true INITIAL_SNAKE f 0 O).

Inductive reachable : State -> Prop :=
| reach_mount rnd s : mount rnd = Ok s -> reachable s
| reach_event ev s s' : reachable s -> handle ev s = Ok s' -> reachable s'.

(** [step] takes a reset branch: the wall test or the self test fires. *)
Definition nextHeadOf (s : State) : option Point :=
  match snake s with
  | [] => None
  | head :: _ => Some (moveHead head (dirRef s))
  end.

Definition ateFoodAt (s : State) : bool :=
  match nextHeadOf s with
  | Some nextHead => samePoint nextHead (foodRef s)
  | None => false
  end.

Definition willMoveTailAt (s : State) : bool :=
  negb (ateFoodAt s) && (growthRef s =? 0).

Definition triggersReset (s : State) : bool :=
  match nextHeadOf s with
  | Some nextHead =>
      hitsWall nextHead
      || some_at (bodyToCheck (willMoveTailAt s) (snake s)) nextHead
  | None => false
  end.

End VariantA.

(** ** Variant B (lines 279-584) *)

Module VariantB.

(** The six [useState] cells, the three [useRef] cells, the [food] that the
    closure of the [step] called by the running interval holds, and the
    pending reset timers.

    The interval effect (lines 322-328) has the dependency list [[speed]]:
    it is set up again, with the [step] of the current render, only by a
    render in which [speed] differs from the previous one.  Between two
    such renders the interval keeps calling the [step] it was created
    with, whose [food] (line 352) is the one of that render: [stepFood]. *)
Record State : Type := mkState {
  snake : list Point;
  dir : Direction;
  food : Point;
  running : bool;
  score : Z;
  speed : Z;
  dirRef : Direction;
  runningRef : bool;
  snakeRef : list Point;
  stepFood : Point;
  timers : nat
}.

Definition setSnake (v : list Point) (s : State) : State :=
  mkState v (dir s) (food s) (running s) (score s) (speed s)
          (dirRef s) (runningRef s) (snakeRef s) (stepFood s) (timers s).
Definition setDir (v : Direction) (s : State) : State :=
  mkState (snake s) v (food s) (running s) (score s) (speed s)
          (dirRef s) (runningRef s) (snakeRef s) (stepFood s) (timers s).
Definition setFood (v : Point) (s : State) : State :=
  mkState (snake s) (dir s) v (running s) (score s) (speed s)
          (dirRef s) (runningRef s) (snakeRef s) (stepFood s) (timers s).
Definition setRunning (v : bool) (s : State) : State :=
  mkState (snake s) (dir s) (food s) v (score s) (speed s)
          (dirRef s) (runningRef s) (snakeRef s) (stepFood s) (timers s).
Definition setScore (v : Z) (s : State) : State :=
  mkState (snake s) (dir s) (food s) (running s) v (speed s)
          (dirRef s) (runningRef s) (snakeRef s) (stepFood s) (timers s).
Definition setSpeed (v : Z) (s : State) : State :=
  mkState (snake s) (dir s) (food s) (running s) (score s) v
          (dirRef s) (runningRef s) (snakeRef s) (stepFood s) (timers s).
Definition setTimers (v : nat) (s : State) : State :=
  mkState (snake s) (dir s) (food s) (running s) (score s) (speed s)
          (dirRef s) (runningRef s) (snakeRef s) (stepFood s) v.

(** The render after an event that started at speed [prevSpeed]: the three
    [useEffect] hooks of lines 317-319, and the interval effect when its
    dependency changed. *)
Definition commit (prevSpeed : Z) (s : State) : State :=
  mkState (snake s) (dir s) (food s) (running s) (score s) (speed s)
          (dir s) (running s) (snake s)
          (if speed s =? prevSpeed then stepFood s else food s)
          (timers s).

(** [resetGame] (lines 367-377), the synchronous part. *)
Definition resetGame (s : State) : State :=
  setTimers (S (timers s)) (setRunning false s).

(** The callback of [setTimeout] in [resetGame] (lines 370-375). *)
Definition resetTimeout (rnd : list Q) (s : State) : result State :=
  let s1 := setDir INITIAL_DIR (setSnake INITIAL_SNAKE s) in
  let* f := randomFood INITIAL_SNAKE rnd in
  let s2 := setFood f s1 in
  let s3 := setScore 0 (setSpeed BASE_SPEED_MS s2) in
  Ok (setRunning true s3).

(** [step] (lines 330-365). *)
Definition step (rnd : list Q) (s : State) : result State :=
  let prev := snake s in
  match prev with
  | [] => TypeError
  | head :: _ =>
      let nextHead := moveHead head (dirRef s) in
      if hitsWall nextHead then Ok (setSnake INITIAL_SNAKE (resetGame s))
      else
        let hitsSelf := some_at prev nextHead in
        if hitsSelf then Ok (setSnake INITIAL_SNAKE (resetGame s))
        else
          let ateFood := samePoint nextHead (stepFood s) in
          let newSnake := nextHead :: prev in
          if negb ateFood then Ok (setSnake (dropLast newSnake) s)
          else
            let s1 := setScore (score s + 1) s in
            let* newFood := randomFood newSnake rnd in
            let s2 := setFood newFood s1 in
            Ok (setSnake newSnake (setSpeed (speedUp (speed s2)) s2))
  end.

(** The callback of [setInterval] (lines 323-326). *)
Definition tick (rnd : list Q) (s : State) : result State :=
  if negb (runningRef s) then Ok s else step rnd s.

(** [changeDir] (lines 379-390). *)
Definition changeDir (next : Direction) (s : State) : State :=
  setDir (dirUpdater next (dir s)) s.

(** A tick, a press on the D-pad, the firing of a reset timer, a press on
    Pause/Resume (line 461), a press on Restart (line 464). *)
Inductive Event : Type :=
| Tick (rnd : list Q)
| ChangeDir (next : Direction)
| Timeout (rnd : list Q)
| TogglePause
| Restart.

Definition handler (ev : Event) (s : State) : result State :=
  match ev with
  | Tick rnd => tick rnd s
  | ChangeDir next => Ok (changeDir next s)
  | Timeout rnd =>
      match timers s with
      | O => Ok s
      | S n => resetTimeout rnd (setTimers n s)
      end
  | TogglePause => Ok (setRunning (negb (running s)) s)
  | Restart => Ok (resetGame s)
  end.

Definition handle (ev : Event) (s : State) : result State :=
  let* s' := handler ev s in Ok (commit (speed s) s').

Fixpoint run (evs : list Event) (s : State) : result State :=
  match evs with
  | [] => Ok s
  | ev :: evs' => let* s' := handle ev s in run evs' s'
  end.

(** The first render (lines 306-315) and its effects. *)
Definition mount (rnd : list Q) : result State :=
  let* f := randomFood INITIAL_SNAKE rnd in
  Ok (mkState INITIAL_SNAKE INITIAL_DIR f true 0 BASE_SPEED_MS
              INITIAL_DIR true INITIAL_SNAKE f O).

Inductive reachable : State -> Prop :=
| reach_mount rnd s : mount rnd = Ok s -> reachable s
| reach_event ev s s' : reachable s -> handle ev s = Ok s' -> reachable s'.

Definition nextHeadOf (s : State) : option Point :=
  match snake s with
  | [] => None
  | head :: _ => Some (moveHead head (dirRef s))
  end.

(** The comparison of line 352, on the [food] that [step] holds. *)
Definition ateFoodAt (s : State) : bool :=
  match nextHeadOf s with
  | Some nextHead => samePoint nextHead (stepFood s)
  | None => false
  end.

(** [step] takes a reset branch: the wall test or the self test fires. *)
Definition triggersReset (s : State) : bool :=
  match nextHeadOf s with
  | Some nextHead => hitsWall nextHead || some_at (snake s) nextHead
  | None => false
  end.

End VariantB.

(** ** Definitions used by the statements *)

(** The speeds a game goes through: 140 and its images under [speedUp]. *)
Definition speedLadder : list Z :=
  [140; 134; 128; 122; 117; 112; 107; 102; 97; 93; 89; 85; 81; 77; 73; 70].

(** UP<->DOWN, LEFT<->RIGHT. *)
Definition opposite (d : Direction) : Direction :=
  match d with
  | UP => DOWN
  | DOWN => UP
  | LEFT => RIGHT
  | RIGHT => LEFT
  end.

(** The requests of [reqs] that pass the guard of [changeDir], each one
    tested against the direction that stands when it arrives. *)
Fixpoint accepted (curr : Direction) (reqs : list Direction) : list Direction :=
  match reqs with
  | [] => []
  | next :: reqs' =>
      if isReverse curr next then accepted curr reqs'
      else next :: accepted next reqs'
  end.

(** The body to test for self-collision as step 4 of the specification of
    [step] words it: the snake minus its last cell when no food is eaten
    and no growth is pending, the full snake otherwise. *)
Definition specBody (ateFood : bool) (pendingGrowth : Z) (snake : list Point)
  : list Point :=
  if negb ateFood && (pendingGrowth =? 0) then dropLast snake else snake.

Module PropsA.
Import VariantA.

Record Inv (s : State) : Prop := mkInv {
  snake_good : goodSnake (snake s);
  snake_nonempty : snake s <> [];
  growth_zero : growthRef s = 0;
  dirRef_synced : dirRef s = dir s;
  runningRef_synced : runningRef s = running s;
  foodRef_synced : foodRef s = food s;
  snakeRef_synced : snakeRef s = snake s;
  speed_on_ladder : In (speed s) speedLadder
}.

(** The state [step] leaves when it takes a reset branch. *)
Definition afterCollision (s : State) : State :=
  mkState INITIAL_SNAKE (dir s) (food s) false (score s) (speed s)
          (dirRef s) (runningRef s) (snakeRef s) (foodRef s) (growthRef s)
          (S (timers s)).

Definition tickOrTurn (ev : Event) : bool :=
  match ev with
  | Tick _ | ChangeDir _ => true
  | _ => false
  end.

Definition notTimeout (ev : Event) : bool :=
  match ev with
  | Timeout _ => false
  | _ => true
  end.

(** The new head leaves the board or lies on the body that the
    specification tests for self-collision. *)
Definition collides (s : State) : Prop :=
  exists nextHead, nextHeadOf s = Some nextHead /\
    (~ inBoard nextHead \/
     In nextHead (specBody (ateFoodAt s) (growthRef s) (snake s))).

(** Everything but the direction is as it was. *)
Definition frozen (s s' : State) : Prop :=
  snake s' = snake s /\ food s' = food s /\ score s' = score s /\
  speed s' = speed s /\ growthRef s' = growthRef s /\
  timers s' = timers s /\ running s' = running s /\
  runningRef s' = runningRef s.

(** The state is the initial one, with some food off the snake. *)
Definition reinitialised (s' : State) : Prop :=
  snake s' = INITIAL_SNAKE /\ dir s' = INITIAL_DIR /\
  speed s' = BASE_SPEED_MS /\ score s' = 0 /\ growthRef s' = 0 /\
  running s' = true /\ runningRef s' = true /\
  ~ In (food s') INITIAL_SNAKE.

(** The direction requests among the events, in order. *)
Fixpoint turnsOf (evs : list Event) : list Direction :=
  match evs with
  | [] => []
  | ChangeDir next :: evs' => next :: turnsOf evs'
  | _ :: evs' => turnsOf evs'
  end.

(** The state [step] leaves when the head eats: one cell longer, the new
    food in the state and in the ref, the counter back at its value. *)
Definition afterEating (nextHead newFood : Point) (s : State) : State :=
  mkState (nextHead :: snake s) (dir s) newFood (running s) (score s + 1)
          (speedUp (speed s))
          (dirRef s) (runningRef s) (snakeRef s) newFood (growthRef s)
          (timers s).

(** The three ways [step] returns from a state with no growth pending. *)
Inductive stepOutcome (rnd : list Q) (s s' : State) : Prop :=
| out_reset :
    triggersReset s = true -> s' = afterCollision s -> stepOutcome rnd s s'
| out_move nextHead :
    nextHeadOf s = Some nextHead -> triggersReset s = false ->
    ateFoodAt s = false ->
    s' = setSnake (dropLast (nextHead :: snake s)) s ->
    stepOutcome rnd s s'
| out_eat nextHead newFood :
    nextHeadOf s = Some nextHead -> triggersReset s = false ->
    ateFoodAt s = true ->
    randomFood (nextHead :: snake s) rnd = Ok newFood ->
    s' = afterEating nextHead newFood s ->
    stepOutcome rnd s s'.

(** The scenario of section 8: food right in front of the initial snake. *)
Definition scenario : State :=
  mkState INITIAL_SNAKE RIGHT (mkPoint 6 10) true 0 140
          RIGHT true INITIAL_SNAKE (mkPoint 6 10) 0 O.

(** A game whose first food is at (0,0): fifteen ticks to the right run
    the snake into the wall, and a swipe comes during the pause. *)
Definition intoTheWall : list Event := repeat (Tick []) 15.

(** The game of [PropsB.chaseTail] below, played on this variant. *)
Definition chaseTail : list Event :=
  [ Tick [0%Q; 0%Q]; ChangeDir DOWN; Tick []; ChangeDir LEFT; Tick [];
    ChangeDir UP ].

End PropsA.

Module PropsB.
Import VariantB.

Record Inv (s : State) : Prop := mkInv {
  snake_good : goodSnake (snake s);
  snake_nonempty : snake s <> [];
  dirRef_synced : dirRef s = dir s;
  runningRef_synced : runningRef s = running s;
  snakeRef_synced : snakeRef s = snake s;
  speed_on_ladder : In (speed s) speedLadder
}.

Definition afterCollision (s : State) : State :=
  mkState INITIAL_SNAKE (dir s) (food s) false (score s) (speed s)
          (dirRef s) (runningRef s) (snakeRef s) (stepFood s)
          (S (timers s)).

Definition tickOrTurn (ev : Event) : bool :=
  match ev with
  | Tick _ | ChangeDir _ => true
  | _ => false
  end.

Definition notTimeout (ev : Event) : bool :=
  match ev with
  | Timeout _ => false
  | _ => true
  end.

Definition afterEating (nextHead newFood : Point) (s : State) : State :=
  mkState (nextHead :: snake s) (dir s) newFood (running s) (score s + 1)
          (speedUp (speed s))
          (dirRef s) (runningRef s) (snakeRef s) (stepFood s) (timers s).

(** The new head leaves the board or lies on the snake. *)
Definition collides (s : State) : Prop :=
  exists nextHead, nextHeadOf s = Some nextHead /\
    (~ inBoard nextHead \/ In nextHead (snake s)).

Definition frozen (s s' : State) : Prop :=
  snake s' = snake s /\ food s' = food s /\ score s' = score s /\
  speed s' = speed s /\ stepFood s' = stepFood s /\
  timers s' = timers s /\ running s' = running s /\
  runningRef s' = runningRef s.

Definition reinitialised (s' : State) : Prop :=
  snake s' = INITIAL_SNAKE /\ dir s' = INITIAL_DIR /\
  speed s' = BASE_SPEED_MS /\ score s' = 0 /\
  running s' = true /\ runningRef s' = true /\
  ~ In (food s') INITIAL_SNAKE.

Fixpoint turnsOf (evs : list Event) : list Direction :=
  match evs with
  | [] => []
  | ChangeDir next :: evs' => next :: turnsOf evs'
  | _ :: evs' => turnsOf evs'
  end.

(** The three ways [step] returns. *)
Inductive stepOutcome (rnd : list Q) (s s' : State) : Prop :=
| out_reset :
    triggersReset s = true -> s' = afterCollision s -> stepOutcome rnd s s'
| out_move nextHead :
    nextHeadOf s = Some nextHead -> triggersReset s = false ->
    ateFoodAt s = false ->
    s' = setSnake (dropLast (nextHead :: snake s)) s ->
    stepOutcome rnd s s'
| out_eat nextHead newFood :
    nextHeadOf s = Some nextHead -> triggersReset s = false ->
    ateFoodAt s = true ->
    randomFood (nextHead :: snake s) rnd = Ok newFood ->
    s' = afterEating nextHead newFood s ->
    stepOutcome rnd s s'.

Definition scenario : State :=
  mkState INITIAL_SNAKE RIGHT (mkPoint 6 10) true 0 140
          RIGHT true INITIAL_SNAKE (mkPoint 6 10) O.

(** A game in which the snake eats the food in front of it (the next food
    lands on (0,0)), then turns down, left and up: the fourth tick heads
    for the cell the tail is leaving. *)
Definition chaseTail : list Event :=
  [ Tick [0%Q; 0%Q]; ChangeDir DOWN; Tick []; ChangeDir LEFT; Tick [];
    ChangeDir UP ].

(** A restart before anything is eaten: the timer draws the food (6,10)
    and sets the speed to the 140 it already has. *)
Definition restartAtBaseSpeed : list Event :=
  [ Restart; Timeout [(3 # 10)%Q; (5 # 13)%Q] ].

End PropsB.

(** ** The rest of the screen: geometry, swipes, and more predicates *)

From Stdlib Require Import Qabs Qminmax Lqa.
Open Scope Z_scope.

(** [a < b] on the rationals, as a boolean. *)
Definition Qltb (a b : Q) : bool := negb (Qle_bool b a).

(** Lines 18-22 and 300-304: the board is sized from the window width. *)
Definition boardSize (width : Q) : Q := Qmin (width - 32) 480.

Definition cellSize (width : Q) : Z :=
  Qfloor (boardSize width / inject_Z BOARD_COLS).

Definition boardWidth (width : Q) : Z := cellSize width * BOARD_COLS.

Definition boardHeight (width : Q) : Z := cellSize width * BOARD_ROWS.




(** [onPanResponderRelease] (variant A, lines 129-137): the direction a
    released swipe asks for, [None] when the handler returns before
    calling [changeDir]. *)
Definition swipeDirection (dx dy : Q) : option Direction :=
  let absDx := Qabs dx in
  let absDy := Qabs dy in
  let threshold := 12%Q in
  if Qltb absDx threshold && Qltb absDy threshold then None
  else if Qltb absDy absDx
       then Some (if Qltb 0 dx then RIGHT else LEFT)
       else Some (if Qltb 0 dy then DOWN else UP).


(** Two cells side by side, horizontally or vertically. *)
Definition adjacent (p q : Point) : Prop :=
  Z.abs (x p - x q) + Z.abs (y p - y q) = 1.

(** Each cell of the sequence is adjacent to the next one. *)
Fixpoint connected (s : list Point) : Prop :=
  match s with
  | p :: (q :: _) as rest => adjacent p q /\ connected rest
  | _ => True
  end.

(** The 520 cells of the board, column by column. *)
Definition boardCells : list Point :=
  flat_map (fun cx => map (fun cy => mkPoint (Z.of_nat cx) (Z.of_nat cy))
                        (seq 0 26))
           (seq 0 20).

(** Every cell of the board is in [occupied]. *)
Definition coversBoard (occupied : list Point) : bool :=
  forallb (some_at occupied) boardCells.

(** The speed after [n] foods. *)
Definition speedAfter (n : nat) : Z := Nat.iter n speedUp BASE_SPEED_MS.

(** The head [h] stands on the edge of the board that [d] points to. *)
Definition onEdge (h : Point) (d : Direction) : Prop :=
  match d with
  | UP => y h = 0
  | DOWN => y h = BOARD_ROWS - 1
  | LEFT => x h = 0
  | RIGHT => x h = BOARD_COLS - 1
  end.

(** A serpentine through the board starting next to (0,0): down column
    0 from (0,1), up column 1, down column 2, and so on; 519 cells. *)
Definition serpentine : list Point :=
  tl (flat_map (fun cx =>
                  let col := map (fun cy => mkPoint (Z.of_nat cx) (Z.of_nat cy))
                                 (seq 0 26) in
                  if Nat.even cx then col else rev col)
               (seq 0 20)).

(** What the two variants share of a game: snake, score, speed. *)
Record Play : Type := mkPlay {
  playSnake : list Point;
  playScore : Z;
  playSpeed : Z
}.

(** The five ways an event of either variant acts on these three. *)
Inductive playStep (p p' : Play) : Prop :=
| play_same : p' = p -> playStep p p'
| play_collide :
    p' = mkPlay INITIAL_SNAKE (playScore p) (playSpeed p) -> playStep p p'
| play_reinit : p' = mkPlay INITIAL_SNAKE 0 BASE_SPEED_MS -> playStep p p'
| play_move head tl d :
    playSnake p = head :: tl ->
    p' = mkPlay (dropLast (moveHead head d :: playSnake p))
                (playScore p) (playSpeed p) ->
    playStep p p'
| play_eat head tl d :
    playSnake p = head :: tl ->
    p' = mkPlay (moveHead head d :: playSnake p)
                (playScore p + 1) (speedUp (playSpeed p)) ->
    playStep p p'.

(** Adjacent cells all along, three cells or more, at most three more
    than the score, and the speed that this score gives. *)
Record playInv (p : Play) : Prop := mkPlayInv {
  play_connected : connected (playSnake p);
  play_length : 3 <= Z.of_nat (length (playSnake p)) <= 3 + playScore p;
  play_speed : playSpeed p = speedAfter (Z.to_nat (playScore p))
}.

Module MoreA.
Import VariantA.

Definition playOf (s : State) : Play :=
  mkPlay (snake s) (score s) (speed s).

(** Reachable with samples of [Math.random()] that lie in [0,1). *)
Inductive reachableUnit : State -> Prop :=
| unit_mount rnd s :
    Forall unitSample rnd -> mount rnd = Ok s -> reachableUnit s
| unit_event ev s s' :
    reachableUnit s ->
    match ev with
    | Tick rnd | Timeout rnd => Forall unitSample rnd
    | _ => True
    end ->
    handle ev s = Ok s' -> reachableUnit s'.

(** The swipe end to end: [onPanResponderRelease], then the render. *)
Definition onPanResponderRelease (dx dy : Q) (s : State) : result State :=
  match swipeDirection dx dy with
  | None => Ok s
  | Some next => handle (ChangeDir next) s
  end.

(** All the samples an event brings lie in [0,1). *)
Definition unitEvent (ev : Event) : Prop :=
  match ev with
  | Tick rnd | Timeout rnd => Forall unitSample rnd
  | _ => True
  end.

(** [ev] is a tick that finds the game running and collides. *)
Definition collidingTick (ev : Event) (s : State) : Prop :=
  exists rnd, ev = Tick rnd /\ runningRef s = true /\ triggersReset s = true.

Definition isRestart (ev : Event) : bool :=
  match ev with
  | Restart => true
  | _ => false
  end.

(** A game in which the food drawn after the first meal lands on (3,10),
    a cell of the initial snake that the snake has left, and the snake
    then runs into the right wall. *)
Definition foodUnderInitialSnake : list Event :=
  repeat (Tick []) 4 ++ [ Tick [(3 # 20)%Q; (5 # 13)%Q] ]
  ++ repeat (Tick []) 10.

(** A state whose snake fills the board but for (0,0), where the food is:
    the head at (0,1) moves up onto it. *)
Definition lastFood : State :=
  mkState serpentine UP (mkPoint 0 0) true 516 70
          UP true serpentine (mkPoint 0 0) 0 O.

End MoreA.

Module MoreB.
Import VariantB.

Definition playOf (s : State) : Play :=
  mkPlay (snake s) (score s) (speed s).

Inductive reachableUnit : State -> Prop :=
| unit_mount rnd s :
    Forall unitSample rnd -> mount rnd = Ok s -> reachableUnit s
| unit_event ev s s' :
    reachableUnit s ->
    match ev with
    | Tick rnd | Timeout rnd => Forall unitSample rnd
    | _ => True
    end ->
    handle ev s = Ok s' -> reachableUnit s'.

Definition unitEvent (ev : Event) : Prop :=
  match ev with
  | Tick rnd | Timeout rnd => Forall unitSample rnd
  | _ => True
  end.

Definition isRestart (ev : Event) : bool :=
  match ev with
  | Restart => true
  | _ => false
  end.

Definition lastFood : State :=
  mkState serpentine UP (mkPoint 0 0) true 516 70
          UP true serpentine (mkPoint 0 0) O.

(** The first render when [Math.random()] gives 0 twice: food (0,0). *)
Definition freshGame : State :=
  mkState INITIAL_SNAKE RIGHT (mkPoint 0 0) true 0 140
          RIGHT true INITIAL_SNAKE (mkPoint 0 0) O.

(** [freshGame] after a press on Restart and the firing of its timer,
    which draws the food (6,10) and sets the speed to the 140 it has:
    the screen shows the food (6,10), the [step] of the interval still
    holds the food (0,0) of the first render. *)
Definition staleFood : State :=
  mkState INITIAL_SNAKE RIGHT (mkPoint 6 10) true 0 140
          RIGHT true INITIAL_SNAKE (mkPoint 0 0) O.

(** A restart whose timer draws the food (0,0). *)
Definition restartOntoOrigin : list Event :=
  [ Restart; Timeout [0%Q; 0%Q] ].

(** [PropsB.scenario] after [restartOntoOrigin]: the screen shows the
    food (0,0), the [step] of the interval still holds (6,10), a cell
    with no food on it. *)
Definition staleCell : State :=
  mkState INITIAL_SNAKE RIGHT (mkPoint 0 0) true 0 140
          RIGHT true INITIAL_SNAKE (mkPoint 6 10) O.

(** Fifteen foods in a row: fourteen along row 10 up to the right wall,
    one more below the corner.  The next one waits at (19,12). *)
Definition toTopSpeed : list Event :=
  map (fun cx => Tick [(cx # 20)%Q; (5 # 13)%Q])
      [7; 8; 9; 10; 11; 12; 13; 14; 15; 16; 17; 18; 19]
  ++ [ Tick [(19 # 20)%Q; (11 # 26)%Q]; ChangeDir DOWN;
       Tick [(19 # 20)%Q; (12 # 26)%Q] ].

Definition atTopSpeed : State :=
  Eval vm_compute in
    match run toTopSpeed
            (mkState INITIAL_SNAKE RIGHT (mkPoint 6 10) true 0 140
               RIGHT true INITIAL_SNAKE (mkPoint 6 10) O)
    with
    | Ok s => s
    | _ => mkState [] RIGHT (mkPoint 0 0) false 0 0 RIGHT false []
             (mkPoint 0 0) O
    end.

End MoreB.

(** ** The two variants side by side *)

(** Among the states of variant B that show what a state of variant A
    shows, the one whose [step] holds the food that [foodRef] holds (and
    whose other refs are those of variant A).  Used in proofs only. *)
Definition asVariantB (s : VariantA.State) : VariantB.State :=
  VariantB.mkState (VariantA.snake s) (VariantA.dir s) (VariantA.food s)
    (VariantA.running s) (VariantA.score s) (VariantA.speed s)
    (VariantA.dirRef s) (VariantA.runningRef s) (VariantA.snakeRef s)
    (VariantA.foodRef s) (VariantA.timers s).

(** The [useState] cells, which the render shows, and the pending timers. *)
Record Screen : Type := mkScreen {
  shownSnake : list Point;
  shownDir : Direction;
  shownFood : Point;
  shownRunning : bool;
  shownScore : Z;
  shownSpeed : Z;
  pendingTimers : nat
}.

Definition screenA (s : VariantA.State) : Screen :=
  mkScreen (VariantA.snake s) (VariantA.dir s) (VariantA.food s)
    (VariantA.running s) (VariantA.score s) (VariantA.speed s)
    (VariantA.timers s).

Definition screenB (s : VariantB.State) : Screen :=
  mkScreen (VariantB.snake s) (VariantB.dir s) (VariantB.food s)
    (VariantB.running s) (VariantB.score s) (VariantB.speed s)
    (VariantB.timers s).

Definition mapResult {A B : Type} (f : A -> B) (r : result A) : result B :=
  match r with
  | Ok a => Ok (f a)
  | TypeError => TypeError
  | Spin => Spin
  end.

(** ** Facts on the common part *)

Section CommonFacts.

Lemma samePoint_eq (p q : Point) : samePoint p q = true <-> p = q.
Proof.
  unfold samePoint. rewrite andb_true_iff, !Z.eqb_eq.
  destruct p as [a b], q as [c d]; simpl. split.
  - intros [-> ->]. reflexivity.
  - intros E. injection E as -> ->. split; reflexivity.
Qed.

Lemma samePoint_refl (p : Point) : samePoint p p = true.
Proof. apply samePoint_eq. reflexivity. Qed.

Lemma some_at_In (arr : list Point) (c : Point) :
  some_at arr c = true <-> In c arr.
Proof.
  unfold some_at. rewrite existsb_exists. split.
  - intros [p [Hin Hs]]. apply samePoint_eq in Hs. subst. exact Hin.
  - intros Hin. exists c. split; [exact Hin | apply samePoint_refl].
Qed.

Lemma some_at_not_In (arr : list Point) (c : Point) :
  some_at arr c = false <-> ~ In c arr.
Proof.
  rewrite <- some_at_In. destruct (some_at arr c); split; intro H;
    try reflexivity; try discriminate.
  - exfalso. apply H. reflexivity.
Qed.

Lemma hitsWall_inBoard (c : Point) : hitsWall c = false <-> inBoard c.
Proof.
  unfold hitsWall, inBoard, BOARD_COLS, BOARD_ROWS.
  rewrite !orb_false_iff, !Z.ltb_ge, !Z.geb_leb, !Z.leb_gt. lia.
Qed.

Lemma In_dropLast (l : list Point) (c : Point) : In c (dropLast l) -> In c l.
Proof.
  unfold dropLast. induction l as [|a l IH]; simpl; [tauto|].
  destruct l as [|b l]; simpl in *; [tauto|].
  intros [E | Hin]; [left; exact E | right; apply IH; exact Hin].
Qed.

Lemma NoDup_dropLast (l : list Point) : NoDup l -> NoDup (dropLast l).
Proof.
  unfold dropLast. induction l as [|a l IH]; intros H; simpl; [constructor|].
  destruct l as [|b l]; [constructor|].
  inversion H as [|? ? Hnin Hnd]; subst. constructor.
  - intro Hin. apply Hnin. apply (In_dropLast (b :: l)). exact Hin.
  - apply IH. exact Hnd.
Qed.

Lemma Forall_dropLast (P : Point -> Prop) (l : list Point) :
  Forall P l -> Forall P (dropLast l).
Proof.
  intros H. rewrite Forall_forall in *. intros c Hin.
  apply H. apply In_dropLast. exact Hin.
Qed.

Lemma length_dropLast_cons (a : Point) (l : list Point) :
  length (dropLast (a :: l)) = length l.
Proof.
  unfold dropLast. revert a. induction l as [|b l IH]; intros a; [reflexivity|].
  change (removelast (a :: b :: l)) with (a :: removelast (b :: l)).
  cbn [length]. f_equal. apply IH.
Qed.

Lemma floorRandom_range (u : Q) (n : Z) :
  unitSample u -> 0 < n -> 0 <= floorRandom u n < n.
Proof.
  intros [H0 H1] Hn. unfold floorRandom.
  assert (Hq : (0 < inject_Z n)%Q).
  { change 0%Q with (inject_Z 0). rewrite <- Zlt_Qlt. exact Hn. }
  split.
  - change 0 with (Qfloor (inject_Z 0)). apply Qfloor_resp_le.
    apply Qmult_le_0_compat; [exact H0 | apply Qlt_le_weak; exact Hq].
  - assert (Hlt : (u * inject_Z n < inject_Z n)%Q).
    { rewrite <- (Qmult_1_l (inject_Z n)) at 2.
      apply Qmult_lt_compat_r; assumption. }
    apply Z.lt_nge. intro Hge.
    apply (Qlt_not_le _ _ Hlt).
    apply Qle_trans with (inject_Z (Qfloor (u * inject_Z n))).
    + rewrite <- Zle_Qle. exact Hge.
    + apply Qfloor_le.
Qed.

(** Induction following the loop of [randomFood]: two samples a turn. *)
Lemma samples_ind (P : list Q -> Prop) :
  P [] -> (forall u, P [u]) ->
  (forall u v rest, P rest -> P (u :: v :: rest)) ->
  forall rnd, P rnd.
Proof.
  intros H0 H1 H2 rnd.
  assert (H : P rnd /\ forall u, P (u :: rnd)).
  { induction rnd as [|v rest [IHa IHb]].
    - split; [exact H0 | exact H1].
    - split; [apply IHb | intros u; apply H2; exact IHa]. }
  exact (proj1 H).
Qed.

Lemma randomFood_free (occupied : list Point) (rnd : list Q) (c : Point) :
  randomFood occupied rnd = Ok c -> ~ In c occupied.
Proof.
  induction rnd as [| u | u v rest IH] using samples_ind;
    simpl; try discriminate.
  destruct (some_at occupied _) eqn:E; simpl.
  - exact IH.
  - intros H. injection H as <-. apply some_at_not_In. exact E.
Qed.

Lemma randomFood_inBoard (occupied : list Point) (rnd : list Q) (c : Point) :
  Forall unitSample rnd -> randomFood occupied rnd = Ok c -> inBoard c.
Proof.
  induction rnd as [| u | u v rest IH] using samples_ind;
    simpl; try discriminate.
  intros Hall. inversion Hall as [|? ? Hu Hall']; subst.
  inversion Hall' as [|? ? Hv Hrest]; subst.
  destruct (some_at occupied _); simpl.
  - apply IH. exact Hrest.
  - intros H. injection H as <-. unfold inBoard; simpl. split.
    + apply floorRandom_range; [exact Hu | reflexivity].
    + apply floorRandom_range; [exact Hv | reflexivity].
Qed.

(** A free cell among the samples makes the loop return. *)
Lemma randomFood_returns (occupied : list Point) (u v : Q) (rest : list Q) :
  some_at occupied (mkPoint (floorRandom u BOARD_COLS) (floorRandom v BOARD_ROWS)) = false ->
  randomFood occupied (u :: v :: rest)
  = Ok (mkPoint (floorRandom u BOARD_COLS) (floorRandom v BOARD_ROWS)).
Proof. intros H. simpl. rewrite H. reflexivity. Qed.

Lemma randomFood_never_throws (occupied : list Point) (rnd : list Q) :
  randomFood occupied rnd <> TypeError.
Proof.
  induction rnd as [| u | u v rest IH] using samples_ind;
    simpl; try discriminate.
  destruct (some_at occupied _); simpl; [exact IH | discriminate].
Qed.

(** The loop returns as soon as some turn draws a free cell, and returns
    the cell of the first such turn. *)
Lemma randomFood_progress (occupied : list Point) (turns : list (Q * Q))
  (rest : list Q) (t : Q * Q) :
  find (fun t => negb (some_at occupied (cellOf t))) turns = Some t ->
  randomFood occupied (samplesOf turns ++ rest) = Ok (cellOf t).
Proof.
  induction turns as [|[u v] turns IH]; simpl; [discriminate|].
  unfold cellOf at 1 3. simpl fst. simpl snd.
  destruct (some_at occupied _) eqn:E; simpl.
  - exact IH.
  - intros H. injection H as <-. reflexivity.
Qed.

Lemma speedUp_div (ms : Z) : speedUp ms = Z.max 70 (ms * 96 / 100).
Proof. unfold speedUp. simpl. reflexivity. Qed.

Lemma speedUp_bounds (ms : Z) : 70 <= ms -> 70 <= speedUp ms <= ms.
Proof.
  intros H. rewrite speedUp_div.
  assert (ms * 96 / 100 <= ms).
  { apply Z.div_le_upper_bound; lia. }
  lia.
Qed.

End CommonFacts.

(** ** Variant A: how [step] returns, and the invariant *)

Section StepA.
Import VariantA PropsA.

Lemma stepA_empty (rnd : list Q) (s : State) :
  snake s = [] -> step rnd s = TypeError.
Proof. intros H. unfold step. rewrite H. reflexivity. Qed.

Lemma stepA_resets (rnd : list Q) (s : State) :
  snake s <> [] -> triggersReset s = true -> step rnd s = Ok (afterCollision s).
Proof.
  unfold triggersReset, willMoveTailAt, ateFoodAt, nextHeadOf, step.
  destruct (snake s) as [|head tl] eqn:Hs; [congruence|]. intros _ H.
  destruct (hitsWall (moveHead head (dirRef s))); [reflexivity|].
  simpl in H. rewrite H. reflexivity.
Qed.

Lemma stepA_unfold (s : State) (head : Point) (tl : list Point) :
  snake s = head :: tl ->
  let nextHead := moveHead head (dirRef s) in
  nextHeadOf s = Some nextHead /\
  ateFoodAt s = samePoint nextHead (foodRef s) /\
  triggersReset s =
    hitsWall nextHead
    || some_at (bodyToCheck (negb (samePoint nextHead (foodRef s))
                             && (growthRef s =? 0)) (head :: tl)) nextHead.
Proof.
  intros Hs. unfold triggersReset, willMoveTailAt, ateFoodAt, nextHeadOf.
  rewrite Hs. simpl. repeat split; reflexivity.
Qed.

Lemma stepA_outcome (rnd : list Q) (s s' : State) :
  growthRef s = 0 -> step rnd s = Ok s' -> stepOutcome rnd s s'.
Proof.
  intros Hg Hstep.
  destruct (triggersReset s) eqn:Ht.
  - apply out_reset; [exact Ht|].
    destruct (snake s) as [|head tl] eqn:Hs.
    + rewrite stepA_empty in Hstep by exact Hs. discriminate.
    + rewrite stepA_resets in Hstep; [congruence | congruence | exact Ht].
  - destruct (snake s) as [|head tl] eqn:Hs.
    { rewrite stepA_empty in Hstep by exact Hs. discriminate. }
    destruct (stepA_unfold s head tl Hs) as [Hn [Ha Hr]].
    rewrite Ht in Hr. symmetry in Hr. apply orb_false_iff in Hr as [Hw Hb].
    unfold step in Hstep. rewrite Hs in Hstep.
    set (nextHead := moveHead head (dirRef s)) in *.
    cbv zeta in Hstep. fold nextHead in Hstep.
    rewrite Hw, Hb in Hstep.
    destruct (samePoint nextHead (foodRef s)) eqn:Hate.
    + unfold eatFood in Hstep. simpl in Hstep.
      destruct (randomFood (nextHead :: head :: tl) rnd) as [newFood| |] eqn:Hrf;
        simpl in Hstep; try discriminate.
      apply (out_eat rnd s s' nextHead newFood); try assumption.
      * rewrite Hs. exact Hrf.
      * injection Hstep as <-. unfold adjustTail, afterEating. simpl.
        rewrite Hg, Hs. simpl. reflexivity.
    + simpl in Hstep. injection Hstep as <-.
      apply (out_move rnd s _ nextHead); try assumption.
      unfold adjustTail. rewrite Hg, Hs. reflexivity.
Qed.

Lemma stepA_moves (rnd : list Q) (s : State) (nextHead : Point) :
  growthRef s = 0 -> nextHeadOf s = Some nextHead ->
  triggersReset s = false -> ateFoodAt s = false ->
  step rnd s = Ok (setSnake (dropLast (nextHead :: snake s)) s).
Proof.
  intros Hg Hn Ht Ha.
  destruct (snake s) as [|head tl] eqn:Hs.
  { unfold nextHeadOf in Hn. rewrite Hs in Hn. discriminate. }
  destruct (stepA_unfold s head tl Hs) as [Hn' [Ha' Hr]].
  rewrite Hn in Hn'. injection Hn' as ->. rewrite Ha in Ha'. rewrite Ht in Hr.
  symmetry in Hr. apply orb_false_iff in Hr as [Hw Hb].
  unfold step. rewrite Hs. cbv zeta. rewrite Hw, Hb, <- Ha'. simpl.
  unfold adjustTail. rewrite Hg. reflexivity.
Qed.

Lemma stepA_eats (rnd : list Q) (s : State) (nextHead newFood : Point) :
  growthRef s = 0 -> nextHeadOf s = Some nextHead ->
  triggersReset s = false -> ateFoodAt s = true ->
  randomFood (nextHead :: snake s) rnd = Ok newFood ->
  step rnd s = Ok (afterEating nextHead newFood s).
Proof.
  intros Hg Hn Ht Ha Hrf.
  destruct (snake s) as [|head tl] eqn:Hs.
  { unfold nextHeadOf in Hn. rewrite Hs in Hn. discriminate. }
  destruct (stepA_unfold s head tl Hs) as [Hn' [Ha' Hr]].
  rewrite Hn in Hn'. injection Hn' as ->. rewrite Ha in Ha'. rewrite Ht in Hr.
  symmetry in Hr. apply orb_false_iff in Hr as [Hw Hb].
  unfold step. rewrite Hs. cbv zeta. rewrite Hw, Hb, <- Ha'.
  unfold eatFood. simpl. rewrite Hrf. simpl.
  unfold adjustTail, afterEating. simpl. rewrite Hg, Hs. reflexivity.
Qed.

(** What the two tests have excluded when [step] goes on. *)
Lemma triggersResetA_false (s : State) (nextHead : Point) :
  nextHeadOf s = Some nextHead -> triggersReset s = false ->
  inBoard nextHead /\
  ~ In nextHead (bodyToCheck (willMoveTailAt s) (snake s)).
Proof.
  intros Hn Ht. unfold triggersReset in Ht. rewrite Hn in Ht.
  apply orb_false_iff in Ht as [Hw Hb]. split.
  - apply hitsWall_inBoard. exact Hw.
  - apply some_at_not_In. exact Hb.
Qed.

Lemma nextHeadOfA_nonempty (s : State) (nextHead : Point) :
  nextHeadOf s = Some nextHead -> exists head tl, snake s = head :: tl.
Proof.
  unfold nextHeadOf. destruct (snake s) as [|head tl]; [discriminate|].
  intros _. exists head, tl. reflexivity.
Qed.

End StepA.

Section InvariantA.
Import VariantA PropsA.

Lemma goodSnake_initial : goodSnake INITIAL_SNAKE.
Proof.
  split.
  - repeat constructor; simpl; unfold BOARD_COLS, BOARD_ROWS; lia.
  - repeat constructor; simpl; intuition discriminate.
Qed.

Lemma goodSnake_move (nextHead : Point) (prev : list Point) :
  prev <> [] -> goodSnake prev -> inBoard nextHead ->
  ~ In nextHead (dropLast prev) ->
  goodSnake (dropLast (nextHead :: prev)).
Proof.
  intros Hne [Hb Hd] Hin Hnot.
  destruct prev as [|head tl]; [congruence|].
  change (dropLast (nextHead :: head :: tl))
    with (nextHead :: dropLast (head :: tl)).
  split.
  - constructor; [exact Hin | apply Forall_dropLast; exact Hb].
  - constructor; [exact Hnot | apply NoDup_dropLast; exact Hd].
Qed.

Lemma goodSnake_grow (nextHead : Point) (prev : list Point) :
  goodSnake prev -> inBoard nextHead -> ~ In nextHead prev ->
  goodSnake (nextHead :: prev).
Proof.
  intros [Hb Hd] Hin Hnot. split; constructor; assumption.
Qed.

Lemma dropLast_cons_nonempty (a : Point) (prev : list Point) :
  prev <> [] -> dropLast (a :: prev) <> [].
Proof. destruct prev; [congruence | discriminate]. Qed.

Lemma speedLadder_speedUp (ms : Z) :
  In ms speedLadder -> In (speedUp ms) speedLadder.
Proof.
  unfold speedLadder. simpl.
  intros H; repeat (destruct H as [<- | H]; [vm_compute; tauto|]).
  contradiction.
Qed.

Lemma speedLadder_bounds (ms : Z) : In ms speedLadder -> 70 <= ms <= 140.
Proof.
  unfold speedLadder. simpl. intros H.
  repeat (destruct H as [<- | H]; [lia|]). contradiction.
Qed.

(** No speed the game reaches is a multiple of 25: [ms * 0.96] is never an
    integer there, and stays 0.08 or more away from the next one. *)
Lemma speedLadder_off_integers (ms : Z) :
  In ms speedLadder -> 8 <= (ms * 96) mod 100 <= 92.
Proof.
  unfold speedLadder. simpl. intros H.
  repeat (destruct H as [<- | H]; [vm_compute; split; discriminate|]).
  contradiction.
Qed.

Lemma InvA_commit (s : State) :
  goodSnake (snake s) -> snake s <> [] -> growthRef s = 0 ->
  In (speed s) speedLadder -> Inv (commit s).
Proof. intros. constructor; simpl; auto. Qed.

Lemma InvA_mount (rnd : list Q) (s : State) : mount rnd = Ok s -> Inv s.
Proof.
  unfold mount. destruct (randomFood INITIAL_SNAKE rnd) as [f| |]; simpl;
    try discriminate.
  intros H. injection H as <-.
  constructor; simpl; auto using goodSnake_initial; try discriminate.
Qed.

Lemma InvA_step (rnd : list Q) (s s' : State) :
  Inv s -> step rnd s = Ok s' -> Inv (commit s').
Proof.
  intros I Hstep.
  destruct (stepA_outcome rnd s s' (growth_zero s I) Hstep)
    as [Ht -> | nh Hn Ht Ha -> | nh newFood Hn Ht Ha Hrf ->].
  - apply InvA_commit; simpl.
    + apply goodSnake_initial.
    + discriminate.
    + apply (growth_zero s I).
    + apply (speed_on_ladder s I).
  - destruct (triggersResetA_false s nh Hn Ht) as [Hin Hnot].
    unfold willMoveTailAt in Hnot.
    rewrite Ha, (growth_zero s I) in Hnot. simpl in Hnot.
    apply InvA_commit; simpl.
    + apply goodSnake_move; try assumption;
        [apply (snake_nonempty s I) | apply (snake_good s I)].
    + apply dropLast_cons_nonempty, (snake_nonempty s I).
    + apply (growth_zero s I).
    + apply (speed_on_ladder s I).
  - destruct (triggersResetA_false s nh Hn Ht) as [Hin Hnot].
    unfold willMoveTailAt in Hnot. rewrite Ha in Hnot. simpl in Hnot.
    apply InvA_commit; simpl.
    + apply goodSnake_grow; try assumption. apply (snake_good s I).
    + discriminate.
    + apply (growth_zero s I).
    + apply speedLadder_speedUp, (speed_on_ladder s I).
Qed.

Lemma InvA_handle (ev : Event) (s s' : State) :
  Inv s -> handle ev s = Ok s' -> Inv s'.
Proof.
  intros I. unfold handle.
  destruct ev as [rnd | next | rnd | |]; simpl.
  - unfold tick. destruct (runningRef s).
    + simpl. destruct (step rnd s) as [s1| |] eqn:Hstep; simpl;
        try discriminate.
      intros H. injection H as <-. apply (InvA_step rnd s s1 I Hstep).
    + simpl. intros H. injection H as <-.
      apply InvA_commit; apply I.
  - intros H. injection H as <-. apply InvA_commit; simpl; apply I.
  - destruct (timers s) as [|n]; simpl.
    + intros H. injection H as <-. apply InvA_commit; apply I.
    + unfold resetTimeout.
      destruct (randomFood INITIAL_SNAKE rnd) as [f| |]; simpl;
        try discriminate.
      intros H. injection H as <-.
      apply InvA_commit; simpl; auto using goodSnake_initial;
        try discriminate.
  - intros H. injection H as <-. apply InvA_commit; simpl; apply I.
  - intros H. injection H as <-. apply InvA_commit; simpl; apply I.
Qed.

Lemma InvA_reachable (s : State) : reachable s -> Inv s.
Proof.
  induction 1 as [rnd s Hm | ev s s' _ IH Hh].
  - apply (InvA_mount rnd s Hm).
  - apply (InvA_handle ev s s' IH Hh).
Qed.

Lemma InvA_run (evs : list Event) (s s' : State) :
  Inv s -> run evs s = Ok s' -> Inv s'.
Proof.
  revert s. induction evs as [|ev evs IH]; intros s I; simpl.
  - intros H. injection H as <-. exact I.
  - destruct (handle ev s) as [s1| |] eqn:Hh; simpl; try discriminate.
    apply IH. apply (InvA_handle ev s s1 I Hh).
Qed.

(** From a reachable state [step] returns unless it eats and the food
    loop does not return on the samples it is given. *)
Lemma stepA_returns (rnd : list Q) (s : State) :
  Inv s ->
  (triggersReset s = true \/ ateFoodAt s = false \/
   exists nextHead c, nextHeadOf s = Some nextHead /\
     randomFood (nextHead :: snake s) rnd = Ok c) ->
  exists s', step rnd s = Ok s'.
Proof.
  intros I H.
  destruct (snake s) as [|head tl] eqn:Hs;
    [exfalso; apply (snake_nonempty s I Hs)|].
  destruct (stepA_unfold s head tl Hs) as [Hn _].
  destruct (triggersReset s) eqn:Ht.
  - eexists. apply stepA_resets; [congruence | exact Ht].
  - destruct (ateFoodAt s) eqn:Ha.
    + destruct H as [H | [H | [nh [c [Hn' Hrf]]]]]; try discriminate.
      eexists. apply (stepA_eats rnd s nh c (growth_zero s I) Hn' Ht Ha).
      rewrite Hs. exact Hrf.
    + eexists. apply (stepA_moves rnd s _ (growth_zero s I) Hn Ht Ha).
Qed.

Lemma reachableA_run (evs : list Event) (s s' : State) :
  reachable s -> run evs s = Ok s' -> reachable s'.
Proof.
  revert s. induction evs as [|ev evs IH]; intros s R; simpl.
  - intros H. injection H as <-. exact R.
  - destruct (handle ev s) as [s1| |] eqn:Hh; simpl; try discriminate.
    apply IH. apply (reach_event ev s s1 R Hh).
Qed.

End InvariantA.

(** ** Variant B: how [step] returns, and the invariant *)

Section StepB.
Import VariantB PropsB.

Lemma stepB_empty (rnd : list Q) (s : State) :
  snake s = [] -> step rnd s = TypeError.
Proof. intros H. unfold step. rewrite H. reflexivity. Qed.

Lemma stepB_unfold (s : State) (head : Point) (tl : list Point) :
  snake s = head :: tl ->
  let nextHead := moveHead head (dirRef s) in
  nextHeadOf s = Some nextHead /\
  ateFoodAt s = samePoint nextHead (stepFood s) /\
  triggersReset s = hitsWall nextHead || some_at (head :: tl) nextHead.
Proof.
  intros Hs. unfold triggersReset, ateFoodAt, nextHeadOf.
  rewrite Hs. simpl. repeat split; reflexivity.
Qed.

Lemma stepB_resets (rnd : list Q) (s : State) :
  snake s <> [] -> triggersReset s = true -> step rnd s = Ok (afterCollision s).
Proof.
  intros Hne Ht. destruct (snake s) as [|head tl] eqn:Hs; [congruence|].
  destruct (stepB_unfold s head tl Hs) as [_ [_ Hr]]. rewrite Ht in Hr.
  unfold step. rewrite Hs. cbv zeta.
  destruct (hitsWall (moveHead head (dirRef s))); [reflexivity|].
  rewrite orb_false_l in Hr. rewrite <- Hr. reflexivity.
Qed.

Lemma stepB_moves (rnd : list Q) (s : State) (nextHead : Point) :
  nextHeadOf s = Some nextHead ->
  triggersReset s = false -> ateFoodAt s = false ->
  step rnd s = Ok (setSnake (dropLast (nextHead :: snake s)) s).
Proof.
  intros Hn Ht Ha.
  destruct (snake s) as [|head tl] eqn:Hs.
  { unfold nextHeadOf in Hn. rewrite Hs in Hn. discriminate. }
  destruct (stepB_unfold s head tl Hs) as [Hn' [Ha' Hr]].
  rewrite Hn in Hn'. injection Hn' as ->. rewrite Ha in Ha'. rewrite Ht in Hr.
  symmetry in Hr. apply orb_false_iff in Hr as [Hw Hb].
  unfold step. rewrite Hs. cbv zeta. rewrite Hw, Hb, <- Ha'. reflexivity.
Qed.

Lemma stepB_eats (rnd : list Q) (s : State) (nextHead newFood : Point) :
  nextHeadOf s = Some nextHead ->
  triggersReset s = false -> ateFoodAt s = true ->
  randomFood (nextHead :: snake s) rnd = Ok newFood ->
  step rnd s = Ok (afterEating nextHead newFood s).
Proof.
  intros Hn Ht Ha Hrf.
  destruct (snake s) as [|head tl] eqn:Hs.
  { unfold nextHeadOf in Hn. rewrite Hs in Hn. discriminate. }
  destruct (stepB_unfold s head tl Hs) as [Hn' [Ha' Hr]].
  rewrite Hn in Hn'. injection Hn' as ->. rewrite Ha in Ha'. rewrite Ht in Hr.
  symmetry in Hr. apply orb_false_iff in Hr as [Hw Hb].
  unfold step. rewrite Hs. cbv zeta. rewrite Hw, Hb, <- Ha'. simpl.
  rewrite Hrf. simpl. unfold afterEating. rewrite Hs. reflexivity.
Qed.

Lemma stepB_outcome (rnd : list Q) (s s' : State) :
  step rnd s = Ok s' -> stepOutcome rnd s s'.
Proof.
  intros Hstep.
  destruct (snake s) as [|head tl] eqn:Hs.
  { rewrite stepB_empty in Hstep by exact Hs. discriminate. }
  destruct (stepB_unfold s head tl Hs) as [Hn [Ha _]].
  destruct (triggersReset s) eqn:Ht.
  - apply out_reset; [exact Ht|].
    rewrite stepB_resets in Hstep; [congruence | congruence | exact Ht].
  - destruct (ateFoodAt s) eqn:Hate.
    + destruct (randomFood (moveHead head (dirRef s) :: snake s) rnd)
        as [newFood| |] eqn:Hrf.
      * rewrite (stepB_eats rnd s _ newFood Hn Ht Hate Hrf) in Hstep.
        injection Hstep as <-.
        apply (out_eat rnd s _ _ newFood Hn Ht Hate Hrf). reflexivity.
      * exfalso. revert Hstep. symmetry in Ha.
        destruct (stepB_unfold s head tl Hs) as [_ [_ Hr]].
        rewrite Ht in Hr. symmetry in Hr. apply orb_false_iff in Hr as [Hw Hb].
        unfold step. rewrite Hs. cbv zeta. rewrite Hw, Hb, Ha. simpl.
        rewrite Hs in Hrf. rewrite Hrf. discriminate.
      * exfalso. revert Hstep. symmetry in Ha.
        destruct (stepB_unfold s head tl Hs) as [_ [_ Hr]].
        rewrite Ht in Hr. symmetry in Hr. apply orb_false_iff in Hr as [Hw Hb].
        unfold step. rewrite Hs. cbv zeta. rewrite Hw, Hb, Ha. simpl.
        rewrite Hs in Hrf. rewrite Hrf. discriminate.
    + rewrite (stepB_moves rnd s _ Hn Ht Hate) in Hstep.
      injection Hstep as <-.
      apply (out_move rnd s _ _ Hn Ht Hate). reflexivity.
Qed.

Lemma triggersResetB_false (s : State) (nextHead : Point) :
  nextHeadOf s = Some nextHead -> triggersReset s = false ->
  inBoard nextHead /\ ~ In nextHead (snake s).
Proof.
  intros Hn Ht. unfold triggersReset in Ht. rewrite Hn in Ht.
  apply orb_false_iff in Ht as [Hw Hb]. split.
  - apply hitsWall_inBoard. exact Hw.
  - apply some_at_not_In. exact Hb.
Qed.

End StepB.

Section InvariantB.
Import VariantB PropsB.

Lemma InvB_commit (prevSpeed : Z) (s : State) :
  goodSnake (snake s) -> snake s <> [] ->
  In (speed s) speedLadder -> Inv (commit prevSpeed s).
Proof. intros. constructor; simpl; auto. Qed.

Lemma InvB_mount (rnd : list Q) (s : State) : mount rnd = Ok s -> Inv s.
Proof.
  unfold mount. destruct (randomFood INITIAL_SNAKE rnd) as [f| |]; simpl;
    try discriminate.
  intros H. injection H as <-.
  constructor; simpl; auto using goodSnake_initial; try discriminate.
Qed.

Lemma InvB_step (rnd : list Q) (prevSpeed : Z) (s s' : State) :
  Inv s -> step rnd s = Ok s' -> Inv (commit prevSpeed s').
Proof.
  intros I Hstep.
  destruct (stepB_outcome rnd s s' Hstep)
    as [Ht -> | nh Hn Ht Ha -> | nh newFood Hn Ht Ha Hrf ->].
  - apply InvB_commit; simpl;
      [apply goodSnake_initial | discriminate | apply (speed_on_ladder s I)].
  - destruct (triggersResetB_false s nh Hn Ht) as [Hin Hnot].
    apply InvB_commit; simpl.
    + apply goodSnake_move; try assumption;
        [apply (snake_nonempty s I) | apply (snake_good s I) |].
      intro Hd. apply Hnot. apply In_dropLast. exact Hd.
    + apply dropLast_cons_nonempty, (snake_nonempty s I).
    + apply (speed_on_ladder s I).
  - destruct (triggersResetB_false s nh Hn Ht) as [Hin Hnot].
    apply InvB_commit; simpl.
    + apply goodSnake_grow; try assumption. apply (snake_good s I).
    + discriminate.
    + apply speedLadder_speedUp, (speed_on_ladder s I).
Qed.

Lemma InvB_handle (ev : Event) (s s' : State) :
  Inv s -> handle ev s = Ok s' -> Inv s'.
Proof.
  intros I. unfold handle.
  destruct ev as [rnd | next | rnd | |]; simpl.
  - unfold tick. destruct (runningRef s).
    + simpl. destruct (step rnd s) as [s1| |] eqn:Hstep; simpl;
        try discriminate.
      intros H. injection H as <-. apply (InvB_step rnd _ s s1 I Hstep).
    + simpl. intros H. injection H as <-.
      apply InvB_commit; apply I.
  - intros H. injection H as <-. apply InvB_commit; simpl; apply I.
  - destruct (timers s) as [|n]; simpl.
    + intros H. injection H as <-. apply InvB_commit; apply I.
    + unfold resetTimeout.
      destruct (randomFood INITIAL_SNAKE rnd) as [f| |]; simpl;
        try discriminate.
      intros H. injection H as <-.
      apply InvB_commit; simpl; auto using goodSnake_initial;
        try discriminate.
  - intros H. injection H as <-. apply InvB_commit; simpl; apply I.
  - intros H. injection H as <-. apply InvB_commit; simpl; apply I.
Qed.

Lemma InvB_reachable (s : State) : reachable s -> Inv s.
Proof.
  induction 1 as [rnd s Hm | ev s s' _ IH Hh].
  - apply (InvB_mount rnd s Hm).
  - apply (InvB_handle ev s s' IH Hh).
Qed.

Lemma InvB_run (evs : list Event) (s s' : State) :
  Inv s -> run evs s = Ok s' -> Inv s'.
Proof.
  revert s. induction evs as [|ev evs IH]; intros s I; simpl.
  - intros H. injection H as <-. exact I.
  - destruct (handle ev s) as [s1| |] eqn:Hh; simpl; try discriminate.
    apply IH. apply (InvB_handle ev s s1 I Hh).
Qed.

Lemma stepB_returns (rnd : list Q) (s : State) :
  Inv s ->
  (triggersReset s = true \/ ateFoodAt s = false \/
   exists nextHead c, nextHeadOf s = Some nextHead /\
     randomFood (nextHead :: snake s) rnd = Ok c) ->
  exists s', step rnd s = Ok s'.
Proof.
  intros I H.
  destruct (snake s) as [|head tl] eqn:Hs;
    [exfalso; apply (snake_nonempty s I Hs)|].
  destruct (stepB_unfold s head tl Hs) as [Hn _].
  destruct (triggersReset s) eqn:Ht.
  - eexists. apply stepB_resets; [congruence | exact Ht].
  - destruct (ateFoodAt s) eqn:Ha.
    + destruct H as [H | [H | [nh [c [Hn' Hrf]]]]]; try discriminate.
      eexists. apply (stepB_eats rnd s nh c Hn' Ht Ha).
      rewrite Hs. exact Hrf.
    + eexists. apply (stepB_moves rnd s _ Hn Ht Ha).
Qed.

Lemma reachableB_run (evs : list Event) (s s' : State) :
  reachable s -> run evs s = Ok s' -> reachable s'.
Proof.
  revert s. induction evs as [|ev evs IH]; intros s R; simpl.
  - intros H. injection H as <-. exact R.
  - destruct (handle ev s) as [s1| |] eqn:Hh; simpl; try discriminate.
    apply IH. apply (reach_event ev s s1 R Hh).
Qed.

(** Why [stepFood] is a cell of its own: after a restart at speed 140 the
    interval effect is not set up again, and the [step] it calls still
    holds the food of the first render. *)
Lemma variantB_interval_keeps_its_step :
  exists s0 s,
    mount [0%Q; 0%Q] = Ok s0 /\
    run restartAtBaseSpeed s0 = Ok s /\
    food s = mkPoint 6 10 /\ stepFood s = mkPoint 0 0.
Proof.
  do 2 eexists. split; [reflexivity|].
  split; [vm_compute; reflexivity|]. split; reflexivity.
Qed.

End InvariantB.

(** ** The snake stays on the board and never overlaps itself *)

Section SnakeShape.

(** C1. From every state reachable from the first render by ticks and
    direction requests (and by the timer, Pause and Restart as well), a
    [step] that does not take a reset branch leaves a snake whose cells
    all lie on the board (0 <= x < 20, 0 <= y < 26) and are pairwise
    distinct; the same holds of every reachable state.  Both variants. *)
Theorem C1_snake_on_board_without_overlap :
  (forall s rnd s',
      VariantA.reachable s -> VariantA.step rnd s = Ok s' ->
      VariantA.triggersReset s = false ->
      goodSnake (VariantA.snake s'))
  /\ (forall s, VariantA.reachable s -> goodSnake (VariantA.snake s))
  /\ (forall s rnd s',
      VariantB.reachable s -> VariantB.step rnd s = Ok s' ->
      VariantB.triggersReset s = false ->
      goodSnake (VariantB.snake s'))
  /\ (forall s, VariantB.reachable s -> goodSnake (VariantB.snake s)).
Proof.
  split; [|split; [|split]].
  - intros s rnd s' R Hstep _.
    apply (PropsA.snake_good _
             (InvA_step rnd s s' (InvA_reachable s R) Hstep)).
  - intros s R. apply (PropsA.snake_good s (InvA_reachable s R)).
  - intros s rnd s' R Hstep _.
    apply (PropsB.snake_good _
             (InvB_step rnd 0 s s' (InvB_reachable s R) Hstep)).
  - intros s R. apply (PropsB.snake_good s (InvB_reachable s R)).
Qed.

Lemma C1_witness :
  goodSnake [mkPoint 6 10; mkPoint 5 10; mkPoint 4 10]
  /\ goodSnake [mkPoint 6 10; mkPoint 5 10; mkPoint 4 10].
Proof.
  split.
  - apply (proj1 C1_snake_on_board_without_overlap
             (VariantA.mkState INITIAL_SNAKE RIGHT (mkPoint 0 0) true 0 140
                RIGHT true INITIAL_SNAKE (mkPoint 0 0) 0 O)
             []
             (VariantA.mkState [mkPoint 6 10; mkPoint 5 10; mkPoint 4 10]
                RIGHT (mkPoint 0 0) true 0 140
                RIGHT true INITIAL_SNAKE (mkPoint 0 0) 0 O)).
    + apply (VariantA.reach_mount [0%Q; 0%Q]). reflexivity.
    + reflexivity.
    + reflexivity.
  - apply (proj1 (proj2 (proj2 C1_snake_on_board_without_overlap))
             (VariantB.mkState INITIAL_SNAKE RIGHT (mkPoint 0 0) true 0 140
                RIGHT true INITIAL_SNAKE (mkPoint 0 0) O)
             []
             (VariantB.mkState [mkPoint 6 10; mkPoint 5 10; mkPoint 4 10]
                RIGHT (mkPoint 0 0) true 0 140
                RIGHT true INITIAL_SNAKE (mkPoint 0 0) O)).
    + apply (VariantB.reach_mount [0%Q; 0%Q]). reflexivity.
    + reflexivity.
    + reflexivity.
Defined.

End SnakeShape.

(** ** Growth, score and speed *)

Section Growth.

Lemma stepA_length (s : VariantA.State) (rnd : list Q) (s' : VariantA.State) :
  VariantA.growthRef s = 0 -> VariantA.step rnd s = Ok s' ->
  VariantA.triggersReset s = false ->
  length (VariantA.snake s')
  = if VariantA.ateFoodAt s then S (length (VariantA.snake s))
    else length (VariantA.snake s).
Proof.
  intros Hg Hstep Ht.
  destruct (stepA_outcome rnd s s' Hg Hstep)
    as [Ht' _ | nh Hn _ Ha -> | nh newFood Hn _ Ha Hrf ->].
  - congruence.
  - rewrite Ha. simpl. apply length_dropLast_cons.
  - rewrite Ha. reflexivity.
Qed.

Lemma stepB_length (s : VariantB.State) (rnd : list Q) (s' : VariantB.State) :
  VariantB.step rnd s = Ok s' -> VariantB.triggersReset s = false ->
  length (VariantB.snake s')
  = if VariantB.ateFoodAt s then S (length (VariantB.snake s))
    else length (VariantB.snake s).
Proof.
  intros Hstep Ht.
  destruct (stepB_outcome rnd s s' Hstep)
    as [Ht' _ | nh Hn _ Ha -> | nh newFood Hn _ Ha Hrf ->].
  - congruence.
  - rewrite Ha. simpl. apply length_dropLast_cons.
  - rewrite Ha. reflexivity.
Qed.

(** Variant A.  On a [step] from a reachable state that does not take a
    reset branch, the snake is one cell longer when the new head equals
    the current food cell (the food of the state, which [foodRef.current]
    holds), and keeps its length otherwise. *)
Lemma variantA_length_plus_one_iff_food :
  forall s rnd s',
    VariantA.reachable s -> VariantA.step rnd s = Ok s' ->
    VariantA.triggersReset s = false ->
    VariantA.foodRef s = VariantA.food s /\
    length (VariantA.snake s')
    = if VariantA.ateFoodAt s then S (length (VariantA.snake s))
      else length (VariantA.snake s).
Proof.
  intros s rnd s' R Hstep Ht.
  pose proof (InvA_reachable s R) as I. split.
  - apply (PropsA.foodRef_synced s I).
  - apply (stepA_length s rnd s' (PropsA.growth_zero s I) Hstep Ht).
Qed.

(** The two states of variant B in which the [step] of the interval
    holds a food that is not the food of the state occur in a game. *)
Lemma stale_states_reachable :
  VariantB.mount [0%Q; 0%Q] = Ok MoreB.freshGame
  /\ VariantB.run PropsB.restartAtBaseSpeed MoreB.freshGame
     = Ok MoreB.staleFood
  /\ VariantB.reachable MoreB.staleFood
  /\ VariantB.run MoreB.restartOntoOrigin PropsB.scenario
     = Ok MoreB.staleCell
  /\ VariantB.reachable MoreB.staleCell.
Proof.
  split; [reflexivity|]. split; [reflexivity|]. split; [|split].
  - apply (reachableB_run PropsB.restartAtBaseSpeed MoreB.freshGame).
    + apply (VariantB.reach_mount [0%Q; 0%Q]). reflexivity.
    + reflexivity.
  - reflexivity.
  - apply (reachableB_run MoreB.restartOntoOrigin PropsB.scenario).
    + apply (VariantB.reach_mount [(3 # 10)%Q; (5 # 13)%Q]). reflexivity.
    + reflexivity.
Qed.

(** C3 fails on variant B.  After a restart at speed 140 the interval
    still calls the [step] of the first render (the effect of lines
    322-328 depends on [speed] only), whose [food] is the old one.  In
    the reachable state [MoreB.staleFood] the new head equals the current
    food cell (6,10), no reset is taken, and the snake keeps its 3 cells;
    in the reachable state [MoreB.staleCell] the new head (6,10) is not
    the current food cell (0,0), and the snake grows to 4 cells. *)
Theorem C3_variantB_stale_step_breaks_the_length_rule :
  VariantB.reachable MoreB.staleFood
  /\ VariantB.nextHeadOf MoreB.staleFood
     = Some (VariantB.food MoreB.staleFood)
  /\ VariantB.triggersReset MoreB.staleFood = false
  /\ (exists s', VariantB.step [] MoreB.staleFood = Ok s' /\
        VariantB.snake s' = [mkPoint 6 10; mkPoint 5 10; mkPoint 4 10] /\
        length (VariantB.snake s') = length (VariantB.snake MoreB.staleFood))
  /\ VariantB.reachable MoreB.staleCell
  /\ VariantB.nextHeadOf MoreB.staleCell = Some (mkPoint 6 10)
  /\ VariantB.food MoreB.staleCell = mkPoint 0 0
  /\ VariantB.triggersReset MoreB.staleCell = false
  /\ (exists s',
        VariantB.step [(1 # 2)%Q; (1 # 2)%Q] MoreB.staleCell = Ok s' /\
        length (VariantB.snake s')
        = S (length (VariantB.snake MoreB.staleCell))).
Proof.
  destruct stale_states_reachable as [_ [_ [R1 [_ R2]]]].
  split; [exact R1|]. split; [reflexivity|]. split; [reflexivity|].
  split; [eexists; split; [reflexivity|]; split; reflexivity|].
  split; [exact R2|]. split; [reflexivity|]. split; [reflexivity|].
  split; [reflexivity|].
  eexists. split; reflexivity.
Qed.

Lemma stepA_speed_mono (rnd : list Q) (s s' : VariantA.State) :
  PropsA.Inv s -> VariantA.step rnd s = Ok s' ->
  70 <= VariantA.speed s' <= VariantA.speed s.
Proof.
  intros I Hstep.
  pose proof (speedLadder_bounds _ (PropsA.speed_on_ladder s I)) as Hb.
  destruct (stepA_outcome rnd s s' (PropsA.growth_zero s I) Hstep)
    as [_ -> | nh _ _ _ -> | nh newFood _ _ _ _ ->]; simpl; try lia.
  apply speedUp_bounds. lia.
Qed.

Lemma handleA_speed_mono (ev : VariantA.Event) (s s' : VariantA.State) :
  PropsA.Inv s -> PropsA.notTimeout ev = true ->
  VariantA.handle ev s = Ok s' ->
  70 <= VariantA.speed s' <= VariantA.speed s.
Proof.
  intros I Hev.
  pose proof (speedLadder_bounds _ (PropsA.speed_on_ladder s I)) as Hb.
  unfold VariantA.handle.
  destruct ev as [rnd | next | rnd | |]; simpl; try discriminate;
    try (intros H; injection H as <-; simpl; lia).
  unfold VariantA.tick. destruct (VariantA.runningRef s); simpl.
  - destruct (VariantA.step rnd s) as [s1| |] eqn:Hstep; simpl;
      try discriminate.
    intros H. injection H as <-. simpl.
    apply (stepA_speed_mono rnd s s1 I Hstep).
  - intros H. injection H as <-. simpl. lia.
Qed.

Lemma runA_speed_mono (evs : list VariantA.Event) (s s' : VariantA.State) :
  PropsA.Inv s -> forallb PropsA.notTimeout evs = true ->
  VariantA.run evs s = Ok s' ->
  70 <= VariantA.speed s' <= VariantA.speed s.
Proof.
  revert s. induction evs as [|ev evs IH]; intros s I Hall; simpl.
  - intros H. injection H as <-.
    pose proof (speedLadder_bounds _ (PropsA.speed_on_ladder s I)). lia.
  - simpl in Hall. apply andb_true_iff in Hall as [Hev Hall].
    destruct (VariantA.handle ev s) as [s1| |] eqn:Hh; simpl;
      try discriminate.
    intros Hrun.
    pose proof (handleA_speed_mono ev s s1 I Hev Hh).
    pose proof (IH s1 (InvA_handle ev s s1 I Hh) Hall Hrun). lia.
Qed.

Lemma stepB_speed_mono (rnd : list Q) (s s' : VariantB.State) :
  PropsB.Inv s -> VariantB.step rnd s = Ok s' ->
  70 <= VariantB.speed s' <= VariantB.speed s.
Proof.
  intros I Hstep.
  pose proof (speedLadder_bounds _ (PropsB.speed_on_ladder s I)) as Hb.
  destruct (stepB_outcome rnd s s' Hstep)
    as [_ -> | nh _ _ _ -> | nh newFood _ _ _ _ ->]; simpl; try lia.
  apply speedUp_bounds. lia.
Qed.

Lemma handleB_speed_mono (ev : VariantB.Event) (s s' : VariantB.State) :
  PropsB.Inv s -> PropsB.notTimeout ev = true ->
  VariantB.handle ev s = Ok s' ->
  70 <= VariantB.speed s' <= VariantB.speed s.
Proof.
  intros I Hev.
  pose proof (speedLadder_bounds _ (PropsB.speed_on_ladder s I)) as Hb.
  unfold VariantB.handle.
  destruct ev as [rnd | next | rnd | |]; simpl; try discriminate;
    try (intros H; injection H as <-; simpl; lia).
  unfold VariantB.tick. destruct (VariantB.runningRef s); simpl.
  - destruct (VariantB.step rnd s) as [s1| |] eqn:Hstep; simpl;
      try discriminate.
    intros H. injection H as <-. simpl.
    apply (stepB_speed_mono rnd s s1 I Hstep).
  - intros H. injection H as <-. simpl. lia.
Qed.

Lemma runB_speed_mono (evs : list VariantB.Event) (s s' : VariantB.State) :
  PropsB.Inv s -> forallb PropsB.notTimeout evs = true ->
  VariantB.run evs s = Ok s' ->
  70 <= VariantB.speed s' <= VariantB.speed s.
Proof.
  revert s. induction evs as [|ev evs IH]; intros s I Hall; simpl.
  - intros H. injection H as <-.
    pose proof (speedLadder_bounds _ (PropsB.speed_on_ladder s I)). lia.
  - simpl in Hall. apply andb_true_iff in Hall as [Hev Hall].
    destruct (VariantB.handle ev s) as [s1| |] eqn:Hh; simpl;
      try discriminate.
    intros Hrun.
    pose proof (handleB_speed_mono ev s s1 I Hev Hh).
    pose proof (IH s1 (InvB_handle ev s s1 I Hh) Hall Hrun). lia.
Qed.

(** Variant A.  On a [step] from a reachable state that eats (no reset
    branch, new head on the current food cell) the score goes up by
    exactly 1 and the speed becomes [max(70, floor(speed * 0.96))]; on a
    [step] that neither eats nor resets, score and speed are unchanged. *)
Lemma variantA_score_and_speed_on_eating :
  forall s rnd s',
    VariantA.reachable s -> VariantA.step rnd s = Ok s' ->
    VariantA.triggersReset s = false ->
    VariantA.foodRef s = VariantA.food s /\
    if VariantA.ateFoodAt s
    then VariantA.score s' = VariantA.score s + 1 /\
         VariantA.speed s'
         = Z.max 70 (Qfloor (inject_Z (VariantA.speed s) * (96 # 100)))
    else VariantA.score s' = VariantA.score s /\
         VariantA.speed s' = VariantA.speed s.
Proof.
  intros s rnd s' R Hstep Ht.
  pose proof (InvA_reachable s R) as I.
  split; [apply (PropsA.foodRef_synced s I)|].
  destruct (stepA_outcome rnd s s' (PropsA.growth_zero s I) Hstep)
    as [Ht' _ | nh _ _ Ha -> | nh newFood _ _ Ha _ ->].
  - congruence.
  - rewrite Ha. split; reflexivity.
  - rewrite Ha. split; reflexivity.
Qed.

(** Over any sequence of ticks, direction requests, Pause and Restart
    presses from a reachable state the speed never increases and never
    falls below 70, in both variants. *)
Lemma speed_never_rises_nor_falls_below_70 :
  (forall evs s s',
      VariantA.reachable s -> forallb PropsA.notTimeout evs = true ->
      VariantA.run evs s = Ok s' ->
      70 <= VariantA.speed s' <= VariantA.speed s)
  /\ (forall evs s s',
      VariantB.reachable s -> forallb PropsB.notTimeout evs = true ->
      VariantB.run evs s = Ok s' ->
      70 <= VariantB.speed s' <= VariantB.speed s).
Proof.
  split; intros evs s s' R Hall Hrun.
  - apply (runA_speed_mono evs s s' (InvA_reachable s R) Hall Hrun).
  - apply (runB_speed_mono evs s s' (InvB_reachable s R) Hall Hrun).
Qed.

(** C6 fails on variant B, by the stale [step] that breaks C3.  In the
    reachable state [MoreB.staleFood] the head moves onto the current
    food cell (6,10): the score stays 0, the speed stays 140 and the
    food stays where it is.  In the reachable state [MoreB.staleCell]
    the head moves onto (6,10), where there is no food (the food is at
    (0,0)): the score becomes 1 and the speed 134. *)
Theorem C6_variantB_stale_step_breaks_the_score_rule :
  VariantB.reachable MoreB.staleFood
  /\ VariantB.nextHeadOf MoreB.staleFood
     = Some (VariantB.food MoreB.staleFood)
  /\ VariantB.triggersReset MoreB.staleFood = false
  /\ (exists s', VariantB.step [] MoreB.staleFood = Ok s' /\
        VariantB.score s' = 0 /\ VariantB.speed s' = 140 /\
        VariantB.food s' = mkPoint 6 10 /\
        hd_error (VariantB.snake s') = Some (VariantB.food s'))
  /\ VariantB.reachable MoreB.staleCell
  /\ VariantB.nextHeadOf MoreB.staleCell = Some (mkPoint 6 10)
  /\ VariantB.food MoreB.staleCell = mkPoint 0 0
  /\ VariantB.score MoreB.staleCell = 0
  /\ VariantB.speed MoreB.staleCell = 140
  /\ VariantB.triggersReset MoreB.staleCell = false
  /\ (exists s',
        VariantB.step [(1 # 2)%Q; (1 # 2)%Q] MoreB.staleCell = Ok s' /\
        VariantB.score s' = 1 /\ VariantB.speed s' = 134).
Proof.
  destruct stale_states_reachable as [_ [_ [R1 [_ R2]]]].
  split; [exact R1|]. split; [reflexivity|]. split; [reflexivity|].
  split; [eexists; split; [reflexivity|]; repeat split|].
  split; [exact R2|]. repeat (split; [reflexivity|]).
  eexists. split; [reflexivity|]. split; reflexivity.
Qed.

End Growth.

(** ** The growth counter of variant A *)

Section GrowthCounter.
Import VariantA.

Lemma eatFoodA_counter (rnd : list Q) (newSnake : list Point) (s s1 : State) :
  growthRef s = 0 -> eatFood rnd newSnake s = Ok s1 ->
  growthRef s1 = 1 /\
  adjustTail newSnake s1 = setSnake newSnake (setGrowthRef 0 s1).
Proof.
  intros Hg. unfold eatFood.
  destruct (randomFood newSnake rnd) as [f| |]; simpl; try discriminate.
  intros H. injection H as <-. unfold adjustTail. simpl. rewrite Hg.
  split; reflexivity.
Qed.

(** C10. In variant A the growth counter is 0 in every reachable state,
    hence at the start and at the end of every [step]: eating raises it
    to 1 and the tail adjustment of the same call brings it back to 0
    while keeping the whole new snake, so the growth shows on the eating
    tick; a [step] that neither eats nor resets drops the tail at once;
    and the tail is left in the body tested for self-collision only when
    the food is eaten. *)
Theorem C10_growth_counter_is_zero_between_steps :
  (forall s, reachable s -> growthRef s = 0)
  /\ (forall s rnd s', reachable s -> step rnd s = Ok s' -> growthRef s' = 0)
  /\ (forall s rnd newSnake s1,
        reachable s -> eatFood rnd newSnake s = Ok s1 ->
        growthRef s1 = 1 /\
        adjustTail newSnake s1 = setSnake newSnake (setGrowthRef 0 s1))
  /\ (forall s rnd s' nextHead,
        reachable s -> step rnd s = Ok s' -> triggersReset s = false ->
        nextHeadOf s = Some nextHead ->
        snake s' = if ateFoodAt s then nextHead :: snake s
                   else dropLast (nextHead :: snake s))
  /\ (forall s, reachable s ->
        willMoveTailAt s = negb (ateFoodAt s) /\
        (willMoveTailAt s = false -> ateFoodAt s = true)).
Proof.
  split; [|split; [|split; [|split]]].
  - intros s R. apply (PropsA.growth_zero s (InvA_reachable s R)).
  - intros s rnd s' R Hstep.
    apply (PropsA.growth_zero _
             (InvA_step rnd s s' (InvA_reachable s R) Hstep)).
  - intros s rnd newSnake s1 R.
    apply eatFoodA_counter. apply (PropsA.growth_zero s (InvA_reachable s R)).
  - intros s rnd s' nextHead R Hstep Ht Hn.
    pose proof (InvA_reachable s R) as I.
    destruct (stepA_outcome rnd s s' (PropsA.growth_zero s I) Hstep)
      as [Ht' _ | nh Hn' _ Ha -> | nh newFood Hn' _ Ha _ ->].
    + congruence.
    + assert (nh = nextHead) by congruence. subst nh.
      rewrite Ha. reflexivity.
    + assert (nh = nextHead) by congruence. subst nh.
      rewrite Ha. reflexivity.
  - intros s R. unfold willMoveTailAt.
    rewrite (PropsA.growth_zero s (InvA_reachable s R)). simpl.
    rewrite andb_true_r. split; [reflexivity|].
    destruct (ateFoodAt s); [reflexivity | discriminate].
Qed.

Lemma C10_witness :
  0 = 0 /\ 0 = 0
  /\ (1 = 1 /\
      adjustTail (mkPoint 6 10 :: INITIAL_SNAKE)
        (mkState INITIAL_SNAKE RIGHT (mkPoint 0 0) true 1 134
           RIGHT true INITIAL_SNAKE (mkPoint 0 0) 1 O)
      = mkState (mkPoint 6 10 :: INITIAL_SNAKE) RIGHT (mkPoint 0 0) true 1 134
          RIGHT true INITIAL_SNAKE (mkPoint 0 0) 0 O)
  /\ mkPoint 6 10 :: INITIAL_SNAKE = mkPoint 6 10 :: INITIAL_SNAKE
  /\ false = negb true.
Proof.
  destruct C10_growth_counter_is_zero_between_steps
    as [H1 [H2 [H3 [H4 H5]]]].
  assert (R : reachable PropsA.scenario).
  { apply (reach_mount [(3 # 10)%Q; (5 # 13)%Q]). reflexivity. }
  split; [|split; [|split; [|split]]].
  - apply (H1 PropsA.scenario R).
  - apply (H2 PropsA.scenario [0%Q; 0%Q]
             (PropsA.afterEating (mkPoint 6 10) (mkPoint 0 0) PropsA.scenario)
             R). reflexivity.
  - apply (H3 PropsA.scenario [0%Q; 0%Q] (mkPoint 6 10 :: INITIAL_SNAKE)
             (mkState INITIAL_SNAKE RIGHT (mkPoint 0 0) true 1 134
                RIGHT true INITIAL_SNAKE (mkPoint 0 0) 1 O) R).
    reflexivity.
  - apply (H4 PropsA.scenario [0%Q; 0%Q]
             (PropsA.afterEating (mkPoint 6 10) (mkPoint 0 0) PropsA.scenario)
             (mkPoint 6 10) R); reflexivity.
  - apply (proj1 (H5 PropsA.scenario R)).
Defined.

End GrowthCounter.

(** ** The eating scenario of the specification *)

Section Scenario.

(** Variant A.  From snake [(5,10),(4,10),(3,10)], direction RIGHT, food
    (6,10), score 0 and speed 140, one [step] eats the food and, as soon
    as [randomFood] returns a new food cell, yields the snake
    [(6,10),(5,10),(4,10),(3,10)], score 1 and speed 134.  Every
    reachable state of variant A with this snake, direction, food, score
    and speed behaves so. *)
Lemma variantA_step_onto_food :
  forall s rnd newFood,
    VariantA.reachable s ->
    VariantA.snake s = INITIAL_SNAKE -> VariantA.dir s = RIGHT ->
    VariantA.food s = mkPoint 6 10 ->
    VariantA.score s = 0 -> VariantA.speed s = 140 ->
    randomFood [mkPoint 6 10; mkPoint 5 10; mkPoint 4 10; mkPoint 3 10] rnd
    = Ok newFood ->
    VariantA.ateFoodAt s = true /\
    exists s', VariantA.step rnd s = Ok s' /\
      VariantA.snake s'
      = [mkPoint 6 10; mkPoint 5 10; mkPoint 4 10; mkPoint 3 10] /\
      VariantA.score s' = 1 /\ VariantA.speed s' = 134 /\
      VariantA.food s' = newFood.
Proof.
  intros s rnd newFood R Hs Hd Hf Hsc Hsp Hrf.
  pose proof (InvA_reachable s R) as I.
  assert (Hn : VariantA.nextHeadOf s = Some (mkPoint 6 10)).
  { unfold VariantA.nextHeadOf.
    rewrite Hs, (PropsA.dirRef_synced s I), Hd. reflexivity. }
  assert (Ha : VariantA.ateFoodAt s = true).
  { unfold VariantA.ateFoodAt.
    rewrite Hn, (PropsA.foodRef_synced s I), Hf. reflexivity. }
  assert (Ht : VariantA.triggersReset s = false).
  { unfold VariantA.triggersReset, VariantA.willMoveTailAt.
    rewrite Hn, Ha, Hs. reflexivity. }
  split; [exact Ha|].
  exists (PropsA.afterEating (mkPoint 6 10) newFood s). split.
  - apply (stepA_eats rnd s _ newFood (PropsA.growth_zero s I) Hn Ht Ha).
    rewrite Hs. exact Hrf.
  - unfold PropsA.afterEating. simpl. rewrite Hs, Hsc, Hsp.
    repeat split.
Qed.

(** C7 fails on variant B, by the stale [step] that breaks C3.  The
    reachable state [MoreB.staleFood] has the snake [(5,10),(4,10),(3,10)],
    direction RIGHT, food (6,10), score 0 and speed 140, and shows the
    same screen as [PropsB.scenario]; its [step] moves the head onto the
    food without eating it and yields the snake [(6,10),(5,10),(4,10)],
    score 0 and speed 140.  From [PropsB.scenario], where the [step] is
    the one of the render that shows this food, the [step] yields the
    4-cell snake, score 1 and speed 134. *)
Theorem C7_variantB_stale_step_does_not_eat :
  VariantB.reachable MoreB.staleFood
  /\ VariantB.snake MoreB.staleFood
     = [mkPoint 5 10; mkPoint 4 10; mkPoint 3 10]
  /\ VariantB.dir MoreB.staleFood = RIGHT
  /\ VariantB.dirRef MoreB.staleFood = RIGHT
  /\ VariantB.food MoreB.staleFood = mkPoint 6 10
  /\ VariantB.score MoreB.staleFood = 0
  /\ VariantB.speed MoreB.staleFood = 140
  /\ VariantB.running MoreB.staleFood = true
  /\ screenB MoreB.staleFood = screenB PropsB.scenario
  /\ (exists s', VariantB.step [] MoreB.staleFood = Ok s' /\
        VariantB.snake s' = [mkPoint 6 10; mkPoint 5 10; mkPoint 4 10] /\
        VariantB.score s' = 0 /\ VariantB.speed s' = 140)
  /\ (forall rnd, exists s',
        VariantB.step rnd MoreB.staleFood = Ok s' /\
        VariantB.snake s' = [mkPoint 6 10; mkPoint 5 10; mkPoint 4 10] /\
        VariantB.score s' = 0 /\ VariantB.speed s' = 140)
  /\ (exists s', VariantB.step [0%Q; 0%Q] PropsB.scenario = Ok s' /\
        VariantB.snake s'
        = [mkPoint 6 10; mkPoint 5 10; mkPoint 4 10; mkPoint 3 10] /\
        VariantB.score s' = 1 /\ VariantB.speed s' = 134).
Proof.
  split; [apply stale_states_reachable|].
  repeat (split; [reflexivity|]).
  split; [eexists; split; [reflexivity|]; repeat split|].
  split; [intros rnd; eexists; split; [reflexivity|]; repeat split|].
  eexists. split; [reflexivity|]. repeat split.
Qed.

(** The scenario states occur in a game: the first food can land there. *)
Lemma scenario_reachable :
  VariantA.reachable PropsA.scenario /\ VariantB.reachable PropsB.scenario.
Proof.
  split.
  - apply (VariantA.reach_mount [(3 # 10)%Q; (5 # 13)%Q]). reflexivity.
  - apply (VariantB.reach_mount [(3 # 10)%Q; (5 # 13)%Q]). reflexivity.
Qed.

End Scenario.

(** ** Where the food lands *)

Section Food.

Ltac unit_samples :=
  repeat (constructor; [split; [discriminate | reflexivity] |]);
  constructor.

Lemma randomFood_spec (occupied : list Point) (rnd : list Q) (c : Point) :
  randomFood occupied rnd = Ok c ->
  ~ In c occupied /\ (Forall unitSample rnd -> inBoard c).
Proof.
  intros H. split.
  - apply (randomFood_free occupied rnd c H).
  - intros Hall. apply (randomFood_inBoard occupied rnd c Hall H).
Qed.

Lemma mountA_food (rnd : list Q) (s : VariantA.State) :
  VariantA.mount rnd = Ok s ->
  randomFood (VariantA.snake s) rnd = Ok (VariantA.food s).
Proof.
  unfold VariantA.mount.
  destruct (randomFood INITIAL_SNAKE rnd) as [f| |] eqn:Hrf; simpl;
    try discriminate.
  intros H. injection H as <-. exact Hrf.
Qed.

Lemma timeoutA_food (rnd : list Q) (s s' : VariantA.State) :
  VariantA.timers s <> O ->
  VariantA.handle (VariantA.Timeout rnd) s = Ok s' ->
  randomFood (VariantA.snake s') rnd = Ok (VariantA.food s').
Proof.
  intros Ht. unfold VariantA.handle. simpl.
  destruct (VariantA.timers s) as [|n]; [congruence|].
  unfold VariantA.resetTimeout.
  destruct (randomFood INITIAL_SNAKE rnd) as [f| |] eqn:Hrf; simpl;
    try discriminate.
  intros H. injection H as <-. exact Hrf.
Qed.

Lemma eatA_food (rnd : list Q) (s s' : VariantA.State) :
  VariantA.growthRef s = 0 -> VariantA.step rnd s = Ok s' ->
  VariantA.triggersReset s = false -> VariantA.ateFoodAt s = true ->
  randomFood (VariantA.snake s') rnd = Ok (VariantA.food s').
Proof.
  intros Hg Hstep Ht Ha.
  destruct (stepA_outcome rnd s s' Hg Hstep)
    as [Ht' _ | nh _ _ Ha' _ | nh newFood _ _ _ Hrf ->];
    [congruence | congruence | exact Hrf].
Qed.

Lemma mountB_food (rnd : list Q) (s : VariantB.State) :
  VariantB.mount rnd = Ok s ->
  randomFood (VariantB.snake s) rnd = Ok (VariantB.food s).
Proof.
  unfold VariantB.mount.
  destruct (randomFood INITIAL_SNAKE rnd) as [f| |] eqn:Hrf; simpl;
    try discriminate.
  intros H. injection H as <-. exact Hrf.
Qed.

Lemma timeoutB_food (rnd : list Q) (s s' : VariantB.State) :
  VariantB.timers s <> O ->
  VariantB.handle (VariantB.Timeout rnd) s = Ok s' ->
  randomFood (VariantB.snake s') rnd = Ok (VariantB.food s').
Proof.
  intros Ht. unfold VariantB.handle. simpl.
  destruct (VariantB.timers s) as [|n]; [congruence|].
  unfold VariantB.resetTimeout.
  destruct (randomFood INITIAL_SNAKE rnd) as [f| |] eqn:Hrf; simpl;
    try discriminate.
  intros H. injection H as <-. exact Hrf.
Qed.

Lemma eatB_food (rnd : list Q) (s s' : VariantB.State) :
  VariantB.step rnd s = Ok s' ->
  VariantB.triggersReset s = false -> VariantB.ateFoodAt s = true ->
  randomFood (VariantB.snake s') rnd = Ok (VariantB.food s').
Proof.
  intros Hstep Ht Ha.
  destruct (stepB_outcome rnd s s' Hstep)
    as [Ht' _ | nh _ _ Ha' _ | nh newFood _ _ _ Hrf ->];
    [congruence | congruence | exact Hrf].
Qed.

(** C9. Whenever [randomFood(occupied)] returns, the cell it returns is
    not in [occupied] and, the samples of [Math.random()] lying in [0,1),
    it is on the board (0 <= x < 20, 0 <= y < 26).  Hence the food placed
    by the first render, by a [step] that eats and by the reset timer is,
    when placed, off the snake of the resulting state.  Both variants. *)
Theorem C9_food_is_placed_on_a_free_cell :
  (forall occupied rnd c,
      randomFood occupied rnd = Ok c ->
      ~ In c occupied /\ (Forall unitSample rnd -> inBoard c))
  /\ (forall rnd s,
      VariantA.mount rnd = Ok s ->
      ~ In (VariantA.food s) (VariantA.snake s) /\
      (Forall unitSample rnd -> inBoard (VariantA.food s)))
  /\ (forall s rnd s',
      VariantA.reachable s -> VariantA.step rnd s = Ok s' ->
      VariantA.triggersReset s = false -> VariantA.ateFoodAt s = true ->
      ~ In (VariantA.food s') (VariantA.snake s') /\
      (Forall unitSample rnd -> inBoard (VariantA.food s')))
  /\ (forall s rnd s',
      VariantA.timers s <> O ->
      VariantA.handle (VariantA.Timeout rnd) s = Ok s' ->
      ~ In (VariantA.food s') (VariantA.snake s') /\
      (Forall unitSample rnd -> inBoard (VariantA.food s')))
  /\ (forall rnd s,
      VariantB.mount rnd = Ok s ->
      ~ In (VariantB.food s) (VariantB.snake s) /\
      (Forall unitSample rnd -> inBoard (VariantB.food s)))
  /\ (forall s rnd s',
      VariantB.step rnd s = Ok s' ->
      VariantB.triggersReset s = false -> VariantB.ateFoodAt s = true ->
      ~ In (VariantB.food s') (VariantB.snake s') /\
      (Forall unitSample rnd -> inBoard (VariantB.food s')))
  /\ (forall s rnd s',
      VariantB.timers s <> O ->
      VariantB.handle (VariantB.Timeout rnd) s = Ok s' ->
      ~ In (VariantB.food s') (VariantB.snake s') /\
      (Forall unitSample rnd -> inBoard (VariantB.food s'))).
Proof.
  split; [|split; [|split; [|split; [|split; [|split]]]]].
  - apply randomFood_spec.
  - intros rnd s H. apply (randomFood_spec _ rnd), mountA_food, H.
  - intros s rnd s' R Hstep Ht Ha. apply (randomFood_spec _ rnd).
    apply (eatA_food rnd s s'
             (PropsA.growth_zero s (InvA_reachable s R)) Hstep Ht Ha).
  - intros s rnd s' Ht H. apply (randomFood_spec _ rnd).
    apply (timeoutA_food rnd s s' Ht H).
  - intros rnd s H. apply (randomFood_spec _ rnd), mountB_food, H.
  - intros s rnd s' Hstep Ht Ha. apply (randomFood_spec _ rnd).
    apply (eatB_food rnd s s' Hstep Ht Ha).
  - intros s rnd s' Ht H. apply (randomFood_spec _ rnd).
    apply (timeoutB_food rnd s s' Ht H).
Qed.

Lemma C9_witness :
  (~ In (mkPoint 19 25) INITIAL_SNAKE /\ inBoard (mkPoint 19 25))
  /\ (~ In (mkPoint 0 0) [mkPoint 6 10; mkPoint 5 10; mkPoint 4 10; mkPoint 3 10]
      /\ inBoard (mkPoint 0 0))
  /\ (~ In (mkPoint 0 0) [mkPoint 6 10; mkPoint 5 10; mkPoint 4 10; mkPoint 3 10]
      /\ inBoard (mkPoint 0 0)).
Proof.
  destruct C9_food_is_placed_on_a_free_cell
    as [H0 [_ [HA [_ [_ [HB _]]]]]].
  split; [|split].
  - destruct (H0 INITIAL_SNAKE
                [(1 # 4)%Q; (5 # 13)%Q; (999 # 1000)%Q; (999 # 1000)%Q]
                (mkPoint 19 25) eq_refl) as [Hfree Hin].
    split; [exact Hfree | apply Hin; unit_samples].
  - destruct (HA PropsA.scenario [0%Q; 0%Q]
                (PropsA.afterEating (mkPoint 6 10) (mkPoint 0 0)
                   PropsA.scenario)) as [Hfree Hin];
      try reflexivity.
    + apply (VariantA.reach_mount [(3 # 10)%Q; (5 # 13)%Q]). reflexivity.
    + split; [exact Hfree | apply Hin; unit_samples].
  - destruct (HB PropsB.scenario [0%Q; 0%Q]
                (PropsB.afterEating (mkPoint 6 10) (mkPoint 0 0)
                   PropsB.scenario)) as [Hfree Hin];
      try reflexivity.
    split; [exact Hfree | apply Hin; unit_samples].
Defined.

End Food.

(** ** Direction requests *)

Section Directions.

Lemma isReverse_opposite (curr next : Direction) :
  isReverse curr next = true <-> next = opposite curr.
Proof. destruct curr, next; simpl; split; congruence. Qed.

Lemma last_any_default (a d d' : Direction) (l : list Direction) :
  last (a :: l) d = last (a :: l) d'.
Proof.
  revert a. induction l as [|b l IH]; intros a; [reflexivity|].
  change (last (b :: l) d = last (b :: l) d'). apply IH.
Qed.

Lemma last_cons_default (a d : Direction) (l : list Direction) :
  last (a :: l) d = last l a.
Proof.
  destruct l as [|b l]; [reflexivity|].
  change (last (b :: l) d = last (b :: l) a). apply last_any_default.
Qed.

(** The pending direction after a burst of requests is the last one that
    passed the guard, or the old direction when none did. *)
Lemma fold_dirUpdater (reqs : list Direction) (curr : Direction) :
  fold_left (fun d next => dirUpdater next d) reqs curr
  = last (accepted curr reqs) curr.
Proof.
  revert curr. induction reqs as [|next reqs IH]; intros curr; [reflexivity|].
  simpl. unfold dirUpdater at 2. destruct (isReverse curr next).
  - apply IH.
  - rewrite IH. symmetry. apply last_cons_default.
Qed.

Lemma handleA_changeDir (s : VariantA.State) (next : Direction) :
  PropsA.Inv s ->
  VariantA.handle (VariantA.ChangeDir next) s
  = Ok (VariantA.mkState (VariantA.snake s)
          (dirUpdater next (VariantA.dirRef s)) (VariantA.food s)
          (VariantA.running s) (VariantA.score s) (VariantA.speed s)
          (dirUpdater next (VariantA.dirRef s)) (VariantA.runningRef s)
          (VariantA.snakeRef s) (VariantA.foodRef s) (VariantA.growthRef s)
          (VariantA.timers s)).
Proof.
  intros I. unfold VariantA.handle, VariantA.commit. simpl.
  rewrite (PropsA.dirRef_synced s I), (PropsA.runningRef_synced s I),
    (PropsA.snakeRef_synced s I), (PropsA.foodRef_synced s I).
  reflexivity.
Qed.

Lemma handleB_changeDir (s : VariantB.State) (next : Direction) :
  PropsB.Inv s ->
  VariantB.handle (VariantB.ChangeDir next) s
  = Ok (VariantB.mkState (VariantB.snake s)
          (dirUpdater next (VariantB.dirRef s)) (VariantB.food s)
          (VariantB.running s) (VariantB.score s) (VariantB.speed s)
          (dirUpdater next (VariantB.dirRef s)) (VariantB.runningRef s)
          (VariantB.snakeRef s) (VariantB.stepFood s) (VariantB.timers s)).
Proof.
  intros I. unfold VariantB.handle, VariantB.commit. simpl.
  rewrite (PropsB.dirRef_synced s I), (PropsB.runningRef_synced s I),
    (PropsB.snakeRef_synced s I), Z.eqb_refl.
  reflexivity.
Qed.

Lemma runA_turns (reqs : list Direction) (s : VariantA.State) :
  PropsA.Inv s ->
  exists s', VariantA.run (map VariantA.ChangeDir reqs) s = Ok s' /\
    VariantA.dirRef s'
    = fold_left (fun d next => dirUpdater next d) reqs (VariantA.dirRef s) /\
    VariantA.dir s' = VariantA.dirRef s' /\
    VariantA.snake s' = VariantA.snake s.
Proof.
  revert s. induction reqs as [|next reqs IH]; intros s I.
  - exists s. repeat split. symmetry. apply (PropsA.dirRef_synced s I).
  - pose proof (handleA_changeDir s next I) as Hh.
    destruct (IH _ (InvA_handle _ s _ I Hh)) as [s' [Hrun [Hd [Hs Hn]]]].
    exists s'.
    change (VariantA.run (map VariantA.ChangeDir (next :: reqs)) s)
      with (bind (VariantA.handle (VariantA.ChangeDir next) s)
              (fun s1 => VariantA.run (map VariantA.ChangeDir reqs) s1)).
    rewrite Hh. split; [exact Hrun|]. split; [exact Hd|].
    split; [exact Hs | exact Hn].
Qed.

Lemma runB_turns (reqs : list Direction) (s : VariantB.State) :
  PropsB.Inv s ->
  exists s', VariantB.run (map VariantB.ChangeDir reqs) s = Ok s' /\
    VariantB.dirRef s'
    = fold_left (fun d next => dirUpdater next d) reqs (VariantB.dirRef s) /\
    VariantB.dir s' = VariantB.dirRef s' /\
    VariantB.snake s' = VariantB.snake s.
Proof.
  revert s. induction reqs as [|next reqs IH]; intros s I.
  - exists s. repeat split. symmetry. apply (PropsB.dirRef_synced s I).
  - pose proof (handleB_changeDir s next I) as Hh.
    destruct (IH _ (InvB_handle _ s _ I Hh)) as [s' [Hrun [Hd [Hs Hn]]]].
    exists s'.
    change (VariantB.run (map VariantB.ChangeDir (next :: reqs)) s)
      with (bind (VariantB.handle (VariantB.ChangeDir next) s)
              (fun s1 => VariantB.run (map VariantB.ChangeDir reqs) s1)).
    rewrite Hh. split; [exact Hrun|]. split; [exact Hd|].
    split; [exact Hs | exact Hn].
Qed.

(** C5. The guard of [changeDir] rejects [next] exactly when it is the
    opposite (UP<->DOWN, LEFT<->RIGHT) of the direction that stands, which
    in a reachable state is the direction [dirRef.current] that the next
    [step] reads.  A request that is not such a reversal becomes the
    direction the next [step] moves the head in; a reversal leaves it as
    it was.  After several requests with no [step] in between the
    direction is the last request that passed the guard (the old one when
    none did): nothing is queued.  Both variants. *)
Theorem C5_reversals_rejected_latest_request_kept :
  (forall curr next, isReverse curr next = true <-> next = opposite curr)
  /\ (forall s next,
      VariantA.reachable s ->
      exists s', VariantA.handle (VariantA.ChangeDir next) s = Ok s' /\
        VariantA.dirRef s'
        = (if isReverse (VariantA.dirRef s) next then VariantA.dirRef s
           else next) /\
        VariantA.dir s' = VariantA.dirRef s' /\
        VariantA.nextHeadOf s'
        = option_map (fun head => moveHead head (VariantA.dirRef s'))
            (hd_error (VariantA.snake s)))
  /\ (forall s reqs,
      VariantA.reachable s ->
      exists s', VariantA.run (map VariantA.ChangeDir reqs) s = Ok s' /\
        VariantA.dirRef s'
        = last (accepted (VariantA.dirRef s) reqs) (VariantA.dirRef s))
  /\ (forall s next,
      VariantB.reachable s ->
      exists s', VariantB.handle (VariantB.ChangeDir next) s = Ok s' /\
        VariantB.dirRef s'
        = (if isReverse (VariantB.dirRef s) next then VariantB.dirRef s
           else next) /\
        VariantB.dir s' = VariantB.dirRef s' /\
        VariantB.nextHeadOf s'
        = option_map (fun head => moveHead head (VariantB.dirRef s'))
            (hd_error (VariantB.snake s)))
  /\ (forall s reqs,
      VariantB.reachable s ->
      exists s', VariantB.run (map VariantB.ChangeDir reqs) s = Ok s' /\
        VariantB.dirRef s'
        = last (accepted (VariantB.dirRef s) reqs) (VariantB.dirRef s)).
Proof.
  split; [|split; [|split; [|split]]].
  - apply isReverse_opposite.
  - intros s next R. eexists. split.
    + apply handleA_changeDir, InvA_reachable, R.
    + simpl. repeat split. unfold VariantA.nextHeadOf. simpl.
      destruct (VariantA.snake s); reflexivity.
  - intros s reqs R.
    destruct (runA_turns reqs s (InvA_reachable s R)) as [s' [Hrun [Hd _]]].
    exists s'. split; [exact Hrun|]. rewrite Hd. apply fold_dirUpdater.
  - intros s next R. eexists. split.
    + apply handleB_changeDir, InvB_reachable, R.
    + simpl. repeat split. unfold VariantB.nextHeadOf. simpl.
      destruct (VariantB.snake s); reflexivity.
  - intros s reqs R.
    destruct (runB_turns reqs s (InvB_reachable s R)) as [s' [Hrun [Hd _]]].
    exists s'. split; [exact Hrun|]. rewrite Hd. apply fold_dirUpdater.
Qed.

Lemma C5_witness :
  (exists s', VariantA.handle (VariantA.ChangeDir LEFT) PropsA.scenario = Ok s'
     /\ VariantA.dirRef s' = RIGHT /\ VariantA.dir s' = VariantA.dirRef s'
     /\ VariantA.nextHeadOf s'
        = option_map (fun head => moveHead head (VariantA.dirRef s'))
            (Some (mkPoint 5 10)))
  /\ (exists s',
        VariantB.run (map VariantB.ChangeDir [LEFT; UP; UP; DOWN; LEFT])
          PropsB.scenario = Ok s'
        /\ VariantB.dirRef s' = LEFT).
Proof.
  destruct C5_reversals_rejected_latest_request_kept
    as [_ [HA [_ [_ HB]]]].
  split.
  - apply (HA PropsA.scenario LEFT).
    apply (VariantA.reach_mount [(3 # 10)%Q; (5 # 13)%Q]). reflexivity.
  - apply (HB PropsB.scenario [LEFT; UP; UP; DOWN; LEFT]).
    apply (VariantB.reach_mount [(3 # 10)%Q; (5 # 13)%Q]). reflexivity.
Defined.

End Directions.

(** ** Collisions and the reset *)

Section Reset.

Lemma collidesA_iff (s : VariantA.State) :
  VariantA.triggersReset s = true <-> PropsA.collides s.
Proof.
  unfold VariantA.triggersReset, PropsA.collides, VariantA.willMoveTailAt,
    VariantA.bodyToCheck, specBody.
  destruct (VariantA.nextHeadOf s) as [nh|].
  - rewrite orb_true_iff, some_at_In. split.
    + intros [Hw | Hb]; exists nh; (split; [reflexivity|]).
      * left. rewrite <- hitsWall_inBoard. congruence.
      * right. exact Hb.
    + intros [nh' [E [Hw | Hb]]]; injection E as <-.
      * left. destruct (hitsWall nh) eqn:Hh; [reflexivity|].
        exfalso. apply Hw. apply hitsWall_inBoard. exact Hh.
      * right. exact Hb.
  - split; [discriminate|]. intros [nh [E _]]. discriminate.
Qed.

Lemma collidesB_iff (s : VariantB.State) :
  VariantB.triggersReset s = true <-> PropsB.collides s.
Proof.
  unfold VariantB.triggersReset, PropsB.collides.
  destruct (VariantB.nextHeadOf s) as [nh|].
  - rewrite orb_true_iff, some_at_In. split.
    + intros [Hw | Hb]; exists nh; (split; [reflexivity|]).
      * left. rewrite <- hitsWall_inBoard. congruence.
      * right. exact Hb.
    + intros [nh' [E [Hw | Hb]]]; injection E as <-.
      * left. destruct (hitsWall nh) eqn:Hh; [reflexivity|].
        exfalso. apply Hw. apply hitsWall_inBoard. exact Hh.
      * right. exact Hb.
  - split; [discriminate|]. intros [nh [E _]]. discriminate.
Qed.

Lemma commitA_id (s : VariantA.State) : PropsA.Inv s -> VariantA.commit s = s.
Proof.
  intros I. destruct I as [_ _ _ Hd Hr Hf Hs _].
  destruct s; simpl in *. subst. reflexivity.
Qed.

Lemma commitB_id (s : VariantB.State) :
  PropsB.Inv s -> VariantB.commit (VariantB.speed s) s = s.
Proof.
  intros I. destruct I as [_ _ Hd Hr Hs _].
  destruct s; simpl in *. subst. unfold VariantB.commit. simpl.
  rewrite Z.eqb_refl. reflexivity.
Qed.

(** A tick that finds the game stopped leaves the state as it is. *)
Lemma tickA_paused (rnd : list Q) (s : VariantA.State) :
  PropsA.Inv s -> VariantA.running s = false ->
  VariantA.tick rnd s = Ok s /\ VariantA.handle (VariantA.Tick rnd) s = Ok s.
Proof.
  intros I Hr. rewrite <- (PropsA.runningRef_synced s I) in Hr.
  unfold VariantA.handle. simpl. unfold VariantA.tick. rewrite Hr. simpl.
  rewrite (commitA_id s I). split; reflexivity.
Qed.

Lemma tickB_paused (rnd : list Q) (s : VariantB.State) :
  PropsB.Inv s -> VariantB.running s = false ->
  VariantB.tick rnd s = Ok s /\ VariantB.handle (VariantB.Tick rnd) s = Ok s.
Proof.
  intros I Hr. rewrite <- (PropsB.runningRef_synced s I) in Hr.
  unfold VariantB.handle. simpl. unfold VariantB.tick. rewrite Hr. simpl.
  rewrite (commitB_id s I). split; reflexivity.
Qed.

(** While the game is stopped, ticks and direction requests change the
    direction only. *)
Lemma pauseA_frame (evs : list VariantA.Event) (s : VariantA.State) :
  PropsA.Inv s -> VariantA.running s = false ->
  forallb PropsA.tickOrTurn evs = true ->
  exists s', VariantA.run evs s = Ok s' /\ PropsA.frozen s s' /\
    VariantA.dir s'
    = last (accepted (VariantA.dir s) (PropsA.turnsOf evs)) (VariantA.dir s).
Proof.
  revert s. induction evs as [|ev evs IH]; intros s I Hr Hall.
  - exists s. unfold PropsA.frozen. repeat split.
  - simpl in Hall. apply andb_true_iff in Hall as [Hev Hall].
    destruct ev as [rnd | next | rnd | |]; try discriminate.
    + destruct (tickA_paused rnd s I Hr) as [_ Hh].
      destruct (IH s I Hr Hall) as [s' [Hrun Hfr]].
      exists s'. split; [|exact Hfr].
      change (bind (VariantA.handle (VariantA.Tick rnd) s)
                (fun s1 => VariantA.run evs s1) = Ok s').
      rewrite Hh. exact Hrun.
    + pose proof (handleA_changeDir s next I) as Hh.
      pose proof (InvA_handle _ s _ I Hh) as I1.
      destruct (IH _ I1 Hr Hall) as [s' [Hrun [Hfr Hd]]].
      exists s'. split; [|split].
      * change (bind (VariantA.handle (VariantA.ChangeDir next) s)
                  (fun s1 => VariantA.run evs s1) = Ok s').
        rewrite Hh. exact Hrun.
      * exact Hfr.
      * rewrite Hd. simpl. rewrite (PropsA.dirRef_synced s I).
        unfold dirUpdater. destruct (isReverse (VariantA.dir s) next).
        -- reflexivity.
        -- symmetry. apply last_cons_default.
Qed.

Lemma pauseB_frame (evs : list VariantB.Event) (s : VariantB.State) :
  PropsB.Inv s -> VariantB.running s = false ->
  forallb PropsB.tickOrTurn evs = true ->
  exists s', VariantB.run evs s = Ok s' /\ PropsB.frozen s s' /\
    VariantB.dir s'
    = last (accepted (VariantB.dir s) (PropsB.turnsOf evs)) (VariantB.dir s).
Proof.
  revert s. induction evs as [|ev evs IH]; intros s I Hr Hall.
  - exists s. unfold PropsB.frozen. repeat split.
  - simpl in Hall. apply andb_true_iff in Hall as [Hev Hall].
    destruct ev as [rnd | next | rnd | |]; try discriminate.
    + destruct (tickB_paused rnd s I Hr) as [_ Hh].
      destruct (IH s I Hr Hall) as [s' [Hrun Hfr]].
      exists s'. split; [|exact Hfr].
      change (bind (VariantB.handle (VariantB.Tick rnd) s)
                (fun s1 => VariantB.run evs s1) = Ok s').
      rewrite Hh. exact Hrun.
    + pose proof (handleB_changeDir s next I) as Hh.
      pose proof (InvB_handle _ s _ I Hh) as I1.
      destruct (IH _ I1 Hr Hall) as [s' [Hrun [Hfr Hd]]].
      exists s'. split; [|split].
      * change (bind (VariantB.handle (VariantB.ChangeDir next) s)
                  (fun s1 => VariantB.run evs s1) = Ok s').
        rewrite Hh. exact Hrun.
      * exact Hfr.
      * rewrite Hd. simpl. rewrite (PropsB.dirRef_synced s I).
        unfold dirUpdater. destruct (isReverse (VariantB.dir s) next).
        -- reflexivity.
        -- symmetry. apply last_cons_default.
Qed.

Lemma timeoutA_reinitialises (rnd : list Q) (s s' : VariantA.State) :
  VariantA.timers s <> O ->
  VariantA.handle (VariantA.Timeout rnd) s = Ok s' ->
  PropsA.reinitialised s' /\ VariantA.timers s' = pred (VariantA.timers s).
Proof.
  intros Ht Hh. pose proof (timeoutA_food rnd s s' Ht Hh) as Hf.
  revert Hh Hf. unfold VariantA.handle. simpl.
  destruct (VariantA.timers s) as [|n]; [congruence|].
  unfold VariantA.resetTimeout.
  destruct (randomFood INITIAL_SNAKE rnd) as [f| |] eqn:Hrf; simpl;
    try discriminate.
  intros H. injection H as <-. simpl. intros _.
  split; [|reflexivity]. unfold PropsA.reinitialised. simpl.
  repeat split. apply (randomFood_free _ _ _ Hrf).
Qed.

Lemma timeoutB_reinitialises (rnd : list Q) (s s' : VariantB.State) :
  VariantB.timers s <> O ->
  VariantB.handle (VariantB.Timeout rnd) s = Ok s' ->
  PropsB.reinitialised s' /\ VariantB.timers s' = pred (VariantB.timers s).
Proof.
  intros Ht Hh. pose proof (timeoutB_food rnd s s' Ht Hh) as Hf.
  revert Hh Hf. unfold VariantB.handle. simpl.
  destruct (VariantB.timers s) as [|n]; [congruence|].
  unfold VariantB.resetTimeout.
  destruct (randomFood INITIAL_SNAKE rnd) as [f| |] eqn:Hrf; simpl;
    try discriminate.
  intros H. injection H as <-. simpl. intros _.
  split; [|reflexivity]. unfold PropsB.reinitialised. simpl.
  repeat split. apply (randomFood_free _ _ _ Hrf).
Qed.

Lemma timeoutA_fires (rnd : list Q) (f : Point) (s : VariantA.State) :
  VariantA.timers s <> O -> randomFood INITIAL_SNAKE rnd = Ok f ->
  exists s', VariantA.handle (VariantA.Timeout rnd) s = Ok s'.
Proof.
  intros Ht Hrf. unfold VariantA.handle. simpl.
  destruct (VariantA.timers s) as [|n]; [congruence|].
  unfold VariantA.resetTimeout. rewrite Hrf. simpl. eexists. reflexivity.
Qed.

Lemma timeoutB_fires (rnd : list Q) (f : Point) (s : VariantB.State) :
  VariantB.timers s <> O -> randomFood INITIAL_SNAKE rnd = Ok f ->
  exists s', VariantB.handle (VariantB.Timeout rnd) s = Ok s'.
Proof.
  intros Ht Hrf. unfold VariantB.handle. simpl.
  destruct (VariantB.timers s) as [|n]; [congruence|].
  unfold VariantB.resetTimeout. rewrite Hrf. simpl. eexists. reflexivity.
Qed.

Lemma stepA_reset_iff (rnd : list Q) (s s' : VariantA.State) :
  PropsA.Inv s -> VariantA.step rnd s = Ok s' ->
  (VariantA.triggersReset s = true -> s' = PropsA.afterCollision s) /\
  (VariantA.triggersReset s = false ->
   VariantA.timers s' = VariantA.timers s /\
   VariantA.running s' = VariantA.running s).
Proof.
  intros I Hstep.
  destruct (stepA_outcome rnd s s' (PropsA.growth_zero s I) Hstep)
    as [Ht -> | nh _ Ht _ -> | nh newFood _ Ht _ _ ->];
    split; intros Ht'; try congruence; split; reflexivity.
Qed.

Lemma stepB_reset_iff (rnd : list Q) (s s' : VariantB.State) :
  VariantB.step rnd s = Ok s' ->
  (VariantB.triggersReset s = true -> s' = PropsB.afterCollision s) /\
  (VariantB.triggersReset s = false ->
   VariantB.timers s' = VariantB.timers s /\
   VariantB.running s' = VariantB.running s).
Proof.
  intros Hstep.
  destruct (stepB_outcome rnd s s' Hstep)
    as [Ht -> | nh _ Ht _ -> | nh newFood _ Ht _ _ ->];
    split; intros Ht'; try congruence; split; reflexivity.
Qed.

End Reset.

Section ResetBehaviour.

Lemma collision_state_reachable :
  VariantA.reachable
    (VariantA.mkState INITIAL_SNAKE LEFT (mkPoint 0 0) true 0 140
       LEFT true INITIAL_SNAKE (mkPoint 0 0) 0 O)
  /\ VariantB.reachable
    (VariantB.mkState INITIAL_SNAKE LEFT (mkPoint 0 0) true 0 140
       LEFT true INITIAL_SNAKE (mkPoint 0 0) O).
Proof.
  split.
  - apply (reachableA_run [VariantA.ChangeDir UP; VariantA.ChangeDir LEFT]
             (VariantA.mkState INITIAL_SNAKE RIGHT (mkPoint 0 0) true 0 140
                RIGHT true INITIAL_SNAKE (mkPoint 0 0) 0 O)).
    + apply (VariantA.reach_mount [0%Q; 0%Q]). reflexivity.
    + reflexivity.
  - apply (reachableB_run [VariantB.ChangeDir UP; VariantB.ChangeDir LEFT]
             (VariantB.mkState INITIAL_SNAKE RIGHT (mkPoint 0 0) true 0 140
                RIGHT true INITIAL_SNAKE (mkPoint 0 0) O)).
    + apply (VariantB.reach_mount [0%Q; 0%Q]). reflexivity.
    + reflexivity.
Qed.

(** C4. [step] takes a reset branch exactly when the new head lies
    outside [0,20) x [0,26) or on the body tested for self-collision.  It
    then returns the initial three-cell snake, [running] is false, one
    more reset timer is pending, and direction, food, score, speed and
    growth counter are untouched; a [step] that does not collide requests
    no reset.  While the game is stopped, ticks and direction requests
    restore nothing; the firing of the timer sets the initial snake,
    direction RIGHT, speed 140, score 0, no growth pending, a fresh food
    off the snake, and [running] true.  Both variants. *)
Theorem C4_collision_resets_after_the_pause :
  (forall s, VariantA.triggersReset s = true <-> PropsA.collides s)
  /\ (forall s rnd,
      VariantA.reachable s -> PropsA.collides s ->
      VariantA.step rnd s = Ok (PropsA.afterCollision s) /\
      (VariantA.runningRef s = true ->
       VariantA.handle (VariantA.Tick rnd) s
       = Ok (VariantA.commit (PropsA.afterCollision s))))
  /\ (forall s rnd s',
      VariantA.reachable s -> ~ PropsA.collides s ->
      VariantA.step rnd s = Ok s' ->
      VariantA.timers s' = VariantA.timers s /\
      VariantA.running s' = VariantA.running s)
  /\ (forall s evs,
      VariantA.reachable s -> VariantA.running s = false ->
      forallb PropsA.tickOrTurn evs = true ->
      exists s', VariantA.run evs s = Ok s' /\ PropsA.frozen s s')
  /\ (forall s rnd s',
      VariantA.timers s <> O ->
      VariantA.handle (VariantA.Timeout rnd) s = Ok s' ->
      PropsA.reinitialised s' /\
      VariantA.timers s' = pred (VariantA.timers s))
  /\ (forall s rnd f,
      VariantA.timers s <> O -> randomFood INITIAL_SNAKE rnd = Ok f ->
      exists s', VariantA.handle (VariantA.Timeout rnd) s = Ok s')
  /\ (forall s, VariantB.triggersReset s = true <-> PropsB.collides s)
  /\ (forall s rnd,
      VariantB.reachable s -> PropsB.collides s ->
      VariantB.step rnd s = Ok (PropsB.afterCollision s) /\
      (VariantB.runningRef s = true ->
       VariantB.handle (VariantB.Tick rnd) s
       = Ok (VariantB.commit (VariantB.speed s) (PropsB.afterCollision s))))
  /\ (forall s rnd s',
      VariantB.reachable s -> ~ PropsB.collides s ->
      VariantB.step rnd s = Ok s' ->
      VariantB.timers s' = VariantB.timers s /\
      VariantB.running s' = VariantB.running s)
  /\ (forall s evs,
      VariantB.reachable s -> VariantB.running s = false ->
      forallb PropsB.tickOrTurn evs = true ->
      exists s', VariantB.run evs s = Ok s' /\ PropsB.frozen s s')
  /\ (forall s rnd s',
      VariantB.timers s <> O ->
      VariantB.handle (VariantB.Timeout rnd) s = Ok s' ->
      PropsB.reinitialised s' /\
      VariantB.timers s' = pred (VariantB.timers s))
  /\ (forall s rnd f,
      VariantB.timers s <> O -> randomFood INITIAL_SNAKE rnd = Ok f ->
      exists s', VariantB.handle (VariantB.Timeout rnd) s = Ok s').
Proof.
  repeat match goal with |- _ /\ _ => split end.
  - apply collidesA_iff.
  - intros s rnd R Hc. apply collidesA_iff in Hc.
    pose proof (InvA_reachable s R) as I.
    assert (Hs : VariantA.step rnd s = Ok (PropsA.afterCollision s)).
    { apply stepA_resets; [apply (PropsA.snake_nonempty s I) | exact Hc]. }
    split; [exact Hs|]. intros Hr.
    unfold VariantA.handle. simpl. unfold VariantA.tick.
    rewrite Hr. simpl. rewrite Hs. reflexivity.
  - intros s rnd s' R Hc Hstep.
    apply (stepA_reset_iff rnd s s' (InvA_reachable s R) Hstep).
    destruct (VariantA.triggersReset s) eqn:Ht; [|reflexivity].
    exfalso. apply Hc, collidesA_iff, Ht.
  - intros s evs R Hr Hall.
    destruct (pauseA_frame evs s (InvA_reachable s R) Hr Hall)
      as [s' [Hrun [Hfr _]]].
    exists s'. split; assumption.
  - intros s rnd s'. apply timeoutA_reinitialises.
  - intros s rnd f. apply timeoutA_fires.
  - apply collidesB_iff.
  - intros s rnd R Hc. apply collidesB_iff in Hc.
    pose proof (InvB_reachable s R) as I.
    assert (Hs : VariantB.step rnd s = Ok (PropsB.afterCollision s)).
    { apply stepB_resets; [apply (PropsB.snake_nonempty s I) | exact Hc]. }
    split; [exact Hs|]. intros Hr.
    unfold VariantB.handle. simpl. unfold VariantB.tick.
    rewrite Hr. simpl. rewrite Hs. reflexivity.
  - intros s rnd s' R Hc Hstep.
    apply (stepB_reset_iff rnd s s' Hstep).
    destruct (VariantB.triggersReset s) eqn:Ht; [|reflexivity].
    exfalso. apply Hc, collidesB_iff, Ht.
  - intros s evs R Hr Hall.
    destruct (pauseB_frame evs s (InvB_reachable s R) Hr Hall)
      as [s' [Hrun [Hfr _]]].
    exists s'. split; assumption.
  - intros s rnd s'. apply timeoutB_reinitialises.
  - intros s rnd f. apply timeoutB_fires.
Qed.

Lemma C4_witness :
  (VariantA.step []
     (VariantA.mkState INITIAL_SNAKE LEFT (mkPoint 0 0) true 0 140
        LEFT true INITIAL_SNAKE (mkPoint 0 0) 0 O)
   = Ok (VariantA.mkState INITIAL_SNAKE LEFT (mkPoint 0 0) false 0 140
           LEFT true INITIAL_SNAKE (mkPoint 0 0) 0 1%nat))
  /\ (PropsA.reinitialised
        (VariantA.mkState INITIAL_SNAKE RIGHT (mkPoint 0 0) true 0 140
           RIGHT true INITIAL_SNAKE (mkPoint 0 0) 0 O)
      /\ O = pred 1%nat)
  /\ (VariantB.step []
        (VariantB.mkState INITIAL_SNAKE LEFT (mkPoint 0 0) true 0 140
           LEFT true INITIAL_SNAKE (mkPoint 0 0) O)
      = Ok (VariantB.mkState INITIAL_SNAKE LEFT (mkPoint 0 0) false 0 140
              LEFT true INITIAL_SNAKE (mkPoint 0 0) 1%nat)).
Proof.
  destruct C4_collision_resets_after_the_pause
    as [_ [HA [_ [_ [HAt [_ [_ [HB _]]]]]]]].
  split; [|split].
  - apply (proj1 (HA _ [] (proj1 collision_state_reachable)
                    (ex_intro _ (mkPoint 4 10)
                       (conj eq_refl (or_intror (or_intror (or_introl eq_refl))))))).
  - apply (HAt (VariantA.mkState INITIAL_SNAKE LEFT (mkPoint 0 0) false 0 140
                  LEFT false INITIAL_SNAKE (mkPoint 0 0) 0 1%nat)
               [0%Q; 0%Q]).
    + discriminate.
    + reflexivity.
  - apply (proj1 (HB _ [] (proj2 collision_state_reachable)
                    (ex_intro _ (mkPoint 4 10)
                       (conj eq_refl (or_intror (or_intror (or_introl eq_refl))))))).
Defined.

End ResetBehaviour.

(** ** The pause after a collision *)

Section Pause.

(** C8, as stated, fails: the snake of a fresh game runs into the right
    wall; during the pause that follows (game stopped, reset timer
    pending) a swipe upwards changes the direction. *)
Lemma C8_swipe_during_pause_changes_direction :
  exists s0 s1 s2,
    VariantA.mount [0%Q; 0%Q] = Ok s0 /\
    VariantA.run PropsA.intoTheWall s0 = Ok s1 /\
    VariantA.running s1 = false /\ VariantA.timers s1 = 1%nat /\
    VariantA.dir s1 = RIGHT /\
    VariantA.handle (VariantA.ChangeDir UP) s1 = Ok s2 /\
    VariantA.running s2 = false /\ VariantA.timers s2 = 1%nat /\
    VariantA.dir s2 = UP /\ VariantA.dirRef s2 = UP /\
    VariantA.dir s2 <> VariantA.dir s1.
Proof.
  do 3 eexists.
  split; [reflexivity|]. split; [vm_compute; reflexivity|].
  repeat (split; [reflexivity|]). discriminate.
Qed.

(** C8, amended.  In variant A, from the tick that collides until the
    reset timer fires, and as long as only ticks and direction requests
    arrive: [running] is false; every tick is a no-op (it returns the
    state it found, growth counter included); snake, food, score, speed,
    growth counter and the pending timer do not change.  The direction
    does: [changeDir] is not gated by [running], and the requests of the
    pause act on the direction as they do in play (the timer then puts
    it back to RIGHT). *)
Theorem C8_pause_freezes_all_but_the_direction :
  (forall s rnd s1,
      VariantA.reachable s -> VariantA.runningRef s = true ->
      PropsA.collides s ->
      VariantA.handle (VariantA.Tick rnd) s = Ok s1 ->
      VariantA.running s1 = false /\ VariantA.runningRef s1 = false /\
      VariantA.timers s1 = S (VariantA.timers s) /\
      VariantA.reachable s1)
  /\ (forall s rnd,
      VariantA.reachable s -> VariantA.running s = false ->
      VariantA.tick rnd s = Ok s /\
      VariantA.handle (VariantA.Tick rnd) s = Ok s)
  /\ (forall s evs,
      VariantA.reachable s -> VariantA.running s = false ->
      forallb PropsA.tickOrTurn evs = true ->
      exists s', VariantA.run evs s = Ok s' /\
        VariantA.running s' = false /\
        PropsA.frozen s s' /\
        VariantA.dir s'
        = last (accepted (VariantA.dir s) (PropsA.turnsOf evs))
            (VariantA.dir s))
  /\ (forall s rnd s',
      VariantA.timers s <> O ->
      VariantA.handle (VariantA.Timeout rnd) s = Ok s' ->
      VariantA.dir s' = RIGHT).
Proof.
  split; [|split; [|split]].
  - intros s rnd s1 R Hr Hc Hh.
    pose proof (InvA_reachable s R) as I.
    assert (Hs : VariantA.step rnd s = Ok (PropsA.afterCollision s)).
    { apply stepA_resets; [apply (PropsA.snake_nonempty s I)|].
      apply collidesA_iff, Hc. }
    assert (R1 : VariantA.reachable s1)
      by (apply (VariantA.reach_event _ s s1 R Hh)).
    revert Hh. unfold VariantA.handle. simpl. unfold VariantA.tick.
    rewrite Hr. simpl. rewrite Hs. simpl.
    intros H. injection H as <-. repeat split. exact R1.
  - intros s rnd R Hr. apply (tickA_paused rnd s (InvA_reachable s R) Hr).
  - intros s evs R Hr Hall.
    destruct (pauseA_frame evs s (InvA_reachable s R) Hr Hall)
      as [s' [Hrun [Hfr Hd]]].
    exists s'. split; [exact Hrun|]. split; [|split; assumption].
    destruct Hfr as [_ [_ [_ [_ [_ [_ [Hrun' _]]]]]]]. congruence.
  - intros s rnd s' Ht Hh.
    destruct (timeoutA_reinitialises rnd s s' Ht Hh) as [Hre _].
    apply Hre.
Qed.

Lemma C8_witness :
  exists s',
    VariantA.run [VariantA.Tick [0%Q; 0%Q]; VariantA.ChangeDir UP;
                  VariantA.Tick []; VariantA.ChangeDir DOWN]
      (VariantA.mkState INITIAL_SNAKE LEFT (mkPoint 0 0) false 0 140
         LEFT false INITIAL_SNAKE (mkPoint 0 0) 0 1%nat) = Ok s' /\
    VariantA.running s' = false /\
    PropsA.frozen
      (VariantA.mkState INITIAL_SNAKE LEFT (mkPoint 0 0) false 0 140
         LEFT false INITIAL_SNAKE (mkPoint 0 0) 0 1%nat) s' /\
    VariantA.dir s' = UP.
Proof.
  destruct C8_pause_freezes_all_but_the_direction as [_ [_ [H _]]].
  apply (H (VariantA.mkState INITIAL_SNAKE LEFT (mkPoint 0 0) false 0 140
              LEFT false INITIAL_SNAKE (mkPoint 0 0) 0 1%nat)
           [VariantA.Tick [0%Q; 0%Q]; VariantA.ChangeDir UP;
            VariantA.Tick []; VariantA.ChangeDir DOWN]).
  - apply (VariantA.reach_event (VariantA.Tick [])
             (VariantA.mkState INITIAL_SNAKE LEFT (mkPoint 0 0) true 0 140
                LEFT true INITIAL_SNAKE (mkPoint 0 0) 0 O)).
    + apply (proj1 collision_state_reachable).
    + reflexivity.
  - reflexivity.
  - reflexivity.
Defined.

End Pause.

(** ** The body tested for self-collision *)

Section SelfCollision.

(** C2, as stated, fails on variant B.  The snake eats, turns down, left
    and up, and heads for the cell its tail is about to leave: no food is
    eaten and the new head is on no cell of the snake minus its tail, yet
    [step] takes the reset branch. *)
Lemma C2_variantB_tests_the_tail_too :
  exists s nextHead,
    VariantB.run PropsB.chaseTail PropsB.scenario = Ok s /\
    VariantB.reachable s /\
    VariantB.nextHeadOf s = Some nextHead /\
    VariantB.ateFoodAt s = false /\
    hitsWall nextHead = false /\
    some_at (specBody (VariantB.ateFoodAt s) 0 (VariantB.snake s)) nextHead
    = false /\
    VariantB.step [] s = Ok (PropsB.afterCollision s).
Proof.
  eexists. exists (mkPoint 5 10).
  split; [vm_compute; reflexivity|].
  split.
  { apply (reachableB_run PropsB.chaseTail PropsB.scenario).
    - apply (proj2 scenario_reachable).
    - vm_compute. reflexivity. }
  repeat (split; [reflexivity|]). reflexivity.
Qed.

(** On the same game variant A lets the head follow the tail. *)
Lemma variantA_follows_its_tail :
  exists s,
    VariantA.run PropsA.chaseTail PropsA.scenario = Ok s /\
    VariantA.snake s
    = [mkPoint 5 11; mkPoint 6 11; mkPoint 6 10; mkPoint 5 10] /\
    VariantA.dirRef s = UP /\
    exists s', VariantA.step [] s = Ok s' /\
      VariantA.snake s'
      = [mkPoint 5 10; mkPoint 5 11; mkPoint 6 11; mkPoint 6 10] /\
      VariantA.running s' = true.
Proof.
  eexists. split; [vm_compute; reflexivity|].
  split; [reflexivity|]. split; [reflexivity|].
  eexists. split; [vm_compute; reflexivity|]. split; reflexivity.
Qed.

Lemma stepA_goes_on (rnd : list Q) (s s' : VariantA.State)
  (head : Point) (tl : list Point) :
  VariantA.snake s = head :: tl ->
  hitsWall (moveHead head (VariantA.dirRef s)) = false ->
  some_at
    (specBody (samePoint (moveHead head (VariantA.dirRef s))
                 (VariantA.foodRef s))
       (VariantA.growthRef s) (VariantA.snake s))
    (moveHead head (VariantA.dirRef s)) = false ->
  VariantA.step rnd s = Ok s' ->
  VariantA.timers s' = VariantA.timers s /\
  VariantA.running s' = VariantA.running s /\
  exists rest, VariantA.snake s' = moveHead head (VariantA.dirRef s) :: rest.
Proof.
  intros Hs Hw Hb. unfold VariantA.step. rewrite Hs in *. cbv zeta.
  rewrite Hw. unfold specBody in Hb. unfold VariantA.bodyToCheck.
  rewrite Hb.
  destruct (samePoint _ (VariantA.foodRef s)).
  - unfold VariantA.eatFood.
    destruct (randomFood _ rnd) as [f| |]; simpl; try discriminate.
    intros H. injection H as <-. unfold VariantA.adjustTail. simpl.
    destruct (VariantA.growthRef s + 1 >? 0); simpl;
      repeat split; eexists; reflexivity.
  - simpl. intros H. injection H as <-. unfold VariantA.adjustTail.
    destruct (VariantA.growthRef s >? 0); simpl;
      repeat split; eexists; reflexivity.
Qed.

Lemma stepB_goes_on (rnd : list Q) (s s' : VariantB.State)
  (head : Point) (tl : list Point) :
  VariantB.snake s = head :: tl ->
  hitsWall (moveHead head (VariantB.dirRef s)) = false ->
  some_at (VariantB.snake s) (moveHead head (VariantB.dirRef s)) = false ->
  VariantB.step rnd s = Ok s' ->
  VariantB.timers s' = VariantB.timers s /\
  VariantB.running s' = VariantB.running s /\
  exists rest, VariantB.snake s' = moveHead head (VariantB.dirRef s) :: rest.
Proof.
  intros Hs Hw Hb. unfold VariantB.step. rewrite Hs in *. cbv zeta.
  rewrite Hw, Hb.
  destruct (samePoint _ (VariantB.stepFood s)); simpl.
  - destruct (randomFood _ rnd) as [f| |]; simpl; try discriminate.
    intros H. injection H as <-. simpl. repeat split. eexists. reflexivity.
  - intros H. injection H as <-. simpl. repeat split. eexists. reflexivity.
Qed.

(** C2, amended.  In variant A the body tested for self-collision is
    the snake minus its last cell exactly when no food is eaten and the
    growth counter is 0, and the full snake otherwise; in variant B,
    which has no growth counter, it is always the full snake.  In both,
    a new head on that body makes [step] request the reset and return
    the initial snake instead of the moved one, with direction, food,
    score and speed untouched; a new head on the board and off that body
    makes [step] go on: no reset is requested and the snake returned
    starts with the new head. *)
Theorem C2_body_tested_for_self_collision :
  (forall s,
      VariantA.bodyToCheck (VariantA.willMoveTailAt s) (VariantA.snake s)
      = specBody (VariantA.ateFoodAt s) (VariantA.growthRef s)
          (VariantA.snake s))
  /\ (forall s rnd head tl,
      VariantA.snake s = head :: tl ->
      let nextHead := moveHead head (VariantA.dirRef s) in
      let ateFood := samePoint nextHead (VariantA.foodRef s) in
      let body := specBody ateFood (VariantA.growthRef s) (VariantA.snake s) in
      (some_at body nextHead = true ->
       VariantA.step rnd s = Ok (PropsA.afterCollision s)) /\
      (hitsWall nextHead = false -> some_at body nextHead = false ->
       forall s', VariantA.step rnd s = Ok s' ->
         VariantA.timers s' = VariantA.timers s /\
         VariantA.running s' = VariantA.running s /\
         exists rest, VariantA.snake s' = nextHead :: rest))
  /\ (forall s rnd head tl,
      VariantB.snake s = head :: tl ->
      let nextHead := moveHead head (VariantB.dirRef s) in
      let body := VariantB.snake s in
      (some_at body nextHead = true ->
       VariantB.step rnd s = Ok (PropsB.afterCollision s)) /\
      (hitsWall nextHead = false -> some_at body nextHead = false ->
       forall s', VariantB.step rnd s = Ok s' ->
         VariantB.timers s' = VariantB.timers s /\
         VariantB.running s' = VariantB.running s /\
         exists rest, VariantB.snake s' = nextHead :: rest)).
Proof.
  split; [|split].
  - intros s. reflexivity.
  - intros s rnd head tl Hs nextHead ateFood body.
    subst body ateFood nextHead. split.
    + intros Hb. apply stepA_resets; [congruence|].
      destruct (stepA_unfold s head tl Hs) as [_ [_ Hr]].
      rewrite Hr. apply orb_true_iff. right. rewrite <- Hs. exact Hb.
    + intros Hw Hb s' Hstep.
      apply (stepA_goes_on rnd s s' head tl Hs Hw Hb Hstep).
  - intros s rnd head tl Hs nextHead body.
    subst body nextHead. split.
    + intros Hb. apply stepB_resets; [congruence|].
      destruct (stepB_unfold s head tl Hs) as [_ [_ Hr]].
      rewrite Hr. apply orb_true_iff. right. rewrite <- Hs. exact Hb.
    + intros Hw Hb s' Hstep.
      apply (stepB_goes_on rnd s s' head tl Hs Hw Hb Hstep).
Qed.

Lemma C2_witness :
  (VariantA.step []
     (VariantA.mkState INITIAL_SNAKE LEFT (mkPoint 0 0) true 0 140
        LEFT true INITIAL_SNAKE (mkPoint 0 0) 0 O)
   = Ok (VariantA.mkState INITIAL_SNAKE LEFT (mkPoint 0 0) false 0 140
           LEFT true INITIAL_SNAKE (mkPoint 0 0) 0 1%nat))
  /\ (VariantA.timers
        (VariantA.mkState
           [mkPoint 5 10; mkPoint 5 11; mkPoint 6 11; mkPoint 6 10]
           UP (mkPoint 0 0) true 1 134
           UP true [mkPoint 5 11; mkPoint 6 11; mkPoint 6 10; mkPoint 5 10]
           (mkPoint 0 0) 0 O) = O
      /\ true = true
      /\ exists rest,
           [mkPoint 5 10; mkPoint 5 11; mkPoint 6 11; mkPoint 6 10]
           = mkPoint 5 10 :: rest)
  /\ (VariantB.step []
        (VariantB.mkState
           [mkPoint 5 11; mkPoint 6 11; mkPoint 6 10; mkPoint 5 10]
           UP (mkPoint 0 0) true 1 134
           UP true [mkPoint 5 11; mkPoint 6 11; mkPoint 6 10; mkPoint 5 10]
           (mkPoint 0 0) O)
      = Ok (VariantB.mkState INITIAL_SNAKE
              UP (mkPoint 0 0) false 1 134
              UP true [mkPoint 5 11; mkPoint 6 11; mkPoint 6 10; mkPoint 5 10]
              (mkPoint 0 0) 1%nat)).
Proof.
  destruct C2_body_tested_for_self_collision as [_ [HA HB]].
  split; [|split].
  - apply (proj1 (HA (VariantA.mkState INITIAL_SNAKE LEFT (mkPoint 0 0) true 0
                        140 LEFT true INITIAL_SNAKE (mkPoint 0 0) 0 O)
                     [] (mkPoint 5 10) [mkPoint 4 10; mkPoint 3 10] eq_refl)).
    reflexivity.
  - apply (proj2 (HA (VariantA.mkState
                        [mkPoint 5 11; mkPoint 6 11; mkPoint 6 10; mkPoint 5 10]
                        UP (mkPoint 0 0) true 1 134 UP true
                        [mkPoint 5 11; mkPoint 6 11; mkPoint 6 10; mkPoint 5 10]
                        (mkPoint 0 0) 0 O)
                     [] (mkPoint 5 11)
                     [mkPoint 6 11; mkPoint 6 10; mkPoint 5 10] eq_refl));
      reflexivity.
  - apply (proj1 (HB (VariantB.mkState
                        [mkPoint 5 11; mkPoint 6 11; mkPoint 6 10; mkPoint 5 10]
                        UP (mkPoint 0 0) true 1 134 UP true
                        [mkPoint 5 11; mkPoint 6 11; mkPoint 6 10; mkPoint 5 10]
                        (mkPoint 0 0) O)
                     [] (mkPoint 5 11)
                     [mkPoint 6 11; mkPoint 6 10; mkPoint 5 10] eq_refl)).
    reflexivity.
Defined.

End SelfCollision.

(** ** What every event does to snake, score and speed *)

Section PlaySteps.

Lemma snake_of_nextHeadA (s : VariantA.State) (nh : Point) :
  VariantA.nextHeadOf s = Some nh ->
  exists head tl, VariantA.snake s = head :: tl /\
    nh = moveHead head (VariantA.dirRef s).
Proof.
  unfold VariantA.nextHeadOf.
  destruct (VariantA.snake s) as [|head tl]; [discriminate|].
  intros H. injection H as <-. exists head, tl. split; reflexivity.
Qed.

Lemma snake_of_nextHeadB (s : VariantB.State) (nh : Point) :
  VariantB.nextHeadOf s = Some nh ->
  exists head tl, VariantB.snake s = head :: tl /\
    nh = moveHead head (VariantB.dirRef s).
Proof.
  unfold VariantB.nextHeadOf.
  destruct (VariantB.snake s) as [|head tl]; [discriminate|].
  intros H. injection H as <-. exists head, tl. split; reflexivity.
Qed.

Lemma handleA_play (ev : VariantA.Event) (s s' : VariantA.State) :
  PropsA.Inv s -> VariantA.handle ev s = Ok s' ->
  playStep (MoreA.playOf s) (MoreA.playOf s').
Proof.
  intros I. unfold VariantA.handle.
  destruct ev as [rnd | next | rnd | |]; simpl.
  - unfold VariantA.tick. destruct (VariantA.runningRef s); simpl.
    + destruct (VariantA.step rnd s) as [s1| |] eqn:Hstep; simpl;
        try discriminate.
      intros H. injection H as <-.
      destruct (stepA_outcome rnd s s1 (PropsA.growth_zero s I) Hstep)
        as [_ -> | nh Hn _ _ -> | nh newFood Hn _ _ _ ->].
      * apply play_collide. reflexivity.
      * destruct (snake_of_nextHeadA s nh Hn) as [head [tl [Hs ->]]].
        apply (play_move _ _ head tl (VariantA.dirRef s)); [exact Hs|].
        reflexivity.
      * destruct (snake_of_nextHeadA s nh Hn) as [head [tl [Hs ->]]].
        apply (play_eat _ _ head tl (VariantA.dirRef s)); [exact Hs|].
        reflexivity.
    + intros H. injection H as <-. apply play_same. reflexivity.
  - intros H. injection H as <-. apply play_same. reflexivity.
  - destruct (VariantA.timers s) as [|n]; simpl.
    + intros H. injection H as <-. apply play_same. reflexivity.
    + unfold VariantA.resetTimeout.
      destruct (randomFood INITIAL_SNAKE rnd) as [f| |]; simpl;
        try discriminate.
      intros H. injection H as <-. apply play_reinit. reflexivity.
  - intros H. injection H as <-. apply play_same. reflexivity.
  - intros H. injection H as <-. apply play_same. reflexivity.
Qed.

Lemma handleB_play (ev : VariantB.Event) (s s' : VariantB.State) :
  VariantB.handle ev s = Ok s' ->
  playStep (MoreB.playOf s) (MoreB.playOf s').
Proof.
  unfold VariantB.handle.
  destruct ev as [rnd | next | rnd | |]; simpl.
  - unfold VariantB.tick. destruct (VariantB.runningRef s); simpl.
    + destruct (VariantB.step rnd s) as [s1| |] eqn:Hstep; simpl;
        try discriminate.
      intros H. injection H as <-.
      destruct (stepB_outcome rnd s s1 Hstep)
        as [_ -> | nh Hn _ _ -> | nh newFood Hn _ _ _ ->].
      * apply play_collide. reflexivity.
      * destruct (snake_of_nextHeadB s nh Hn) as [head [tl [Hs ->]]].
        apply (play_move _ _ head tl (VariantB.dirRef s)); [exact Hs|].
        reflexivity.
      * destruct (snake_of_nextHeadB s nh Hn) as [head [tl [Hs ->]]].
        apply (play_eat _ _ head tl (VariantB.dirRef s)); [exact Hs|].
        reflexivity.
    + intros H. injection H as <-. apply play_same. reflexivity.
  - intros H. injection H as <-. apply play_same. reflexivity.
  - destruct (VariantB.timers s) as [|n]; simpl.
    + intros H. injection H as <-. apply play_same. reflexivity.
    + unfold VariantB.resetTimeout.
      destruct (randomFood INITIAL_SNAKE rnd) as [f| |]; simpl;
        try discriminate.
      intros H. injection H as <-. apply play_reinit. reflexivity.
  - intros H. injection H as <-. apply play_same. reflexivity.
  - intros H. injection H as <-. apply play_same. reflexivity.
Qed.

End PlaySteps.

(** ** Shape of the snake, score and speed in every reachable state *)

Section PlayInvariant.

Lemma adjacent_moveHead (head : Point) (d : Direction) :
  adjacent (moveHead head d) head.
Proof. unfold adjacent. destruct d; simpl; lia. Qed.

Lemma connected_dropLast (l : list Point) :
  connected l -> connected (dropLast l).
Proof.
  unfold dropLast. induction l as [|p l IH]; [trivial|].
  destruct l as [|q [|r l]]; try (simpl; trivial; fail).
  intros [Hpq Hrest].
  change (removelast (p :: q :: r :: l))
    with (p :: q :: removelast (r :: l)).
  split; [exact Hpq|]. apply (IH Hrest).
Qed.

Lemma speedAfter_succ (n : nat) : speedAfter (S n) = speedUp (speedAfter n).
Proof. reflexivity. Qed.

Lemma speedAfter_floor (n : nat) : (15 <= n)%nat -> speedAfter n = 70.
Proof.
  intros H. replace n with ((n - 15) + 15)%nat by lia.
  induction (n - 15)%nat as [|k IH]; [vm_compute; reflexivity|].
  change (S k + 15)%nat with (S (k + 15)).
  rewrite speedAfter_succ, IH. vm_compute. reflexivity.
Qed.

Lemma playInv_initial (score : Z) :
  score = 0 -> playInv (mkPlay INITIAL_SNAKE score BASE_SPEED_MS).
Proof.
  intros ->. constructor; simpl.
  - unfold adjacent. simpl. lia.
  - lia.
  - reflexivity.
Qed.

Lemma playInv_step (p p' : Play) : playInv p -> playStep p p' -> playInv p'.
Proof.
  intros [Hc Hl Hs] [-> | -> | -> | head tl d Hp -> | head tl d Hp ->].
  - constructor; assumption.
  - constructor; cbn [playSnake playScore playSpeed].
    + simpl. unfold adjacent. simpl. lia.
    + change (3 <= 3 <= 3 + playScore p). lia.
    + exact Hs.
  - apply playInv_initial. reflexivity.
  - constructor; cbn [playSnake playScore playSpeed].
    + rewrite Hp in *.
      apply (connected_dropLast (moveHead head d :: head :: tl)).
      split; [apply adjacent_moveHead | exact Hc].
    + rewrite length_dropLast_cons. exact Hl.
    + exact Hs.
  - constructor; cbn [playSnake playScore playSpeed].
    + rewrite Hp in *. split; [apply adjacent_moveHead | exact Hc].
    + cbn [length]. lia.
    + rewrite Hs. rewrite Z2Nat.inj_add by lia.
      rewrite Nat.add_comm. reflexivity.
Qed.

Lemma playInvA_reachable (s : VariantA.State) :
  VariantA.reachable s -> playInv (MoreA.playOf s).
Proof.
  induction 1 as [rnd s Hm | ev s s' R IH Hh].
  - revert Hm. unfold VariantA.mount.
    destruct (randomFood INITIAL_SNAKE rnd) as [f| |]; simpl;
      try discriminate.
    intros H. injection H as <-. apply playInv_initial. reflexivity.
  - apply (playInv_step _ _ IH).
    apply (handleA_play ev s s' (InvA_reachable s R) Hh).
Qed.

Lemma playInvB_reachable (s : VariantB.State) :
  VariantB.reachable s -> playInv (MoreB.playOf s).
Proof.
  induction 1 as [rnd s Hm | ev s s' R IH Hh].
  - revert Hm. unfold VariantB.mount.
    destruct (randomFood INITIAL_SNAKE rnd) as [f| |]; simpl;
      try discriminate.
    intros H. injection H as <-. apply playInv_initial. reflexivity.
  - apply (playInv_step _ _ IH). apply (handleB_play ev s s' Hh).
Qed.

Lemma boardCells_complete (c : Point) : inBoard c -> In c boardCells.
Proof.
  intros [[Hx0 Hx1] [Hy0 Hy1]]. unfold boardCells, BOARD_COLS, BOARD_ROWS in *.
  apply in_flat_map. exists (Z.to_nat (x c)). split.
  - apply in_seq. lia.
  - apply in_map_iff. exists (Z.to_nat (y c)). split.
    + rewrite !Z2Nat.id by lia. destruct c; reflexivity.
    + apply in_seq. lia.
Qed.

Lemma boardCells_inBoard (c : Point) : In c boardCells -> inBoard c.
Proof.
  unfold boardCells. intros H. apply in_flat_map in H as [cx [Hcx H]].
  apply in_map_iff in H as [cy [<- Hcy]]. apply in_seq in Hcx, Hcy.
  unfold inBoard, BOARD_COLS, BOARD_ROWS. simpl. lia.
Qed.

Lemma goodSnake_length (s : list Point) : goodSnake s -> (length s <= 520)%nat.
Proof.
  intros [Hb Hd].
  change 520%nat with (length boardCells).
  apply NoDup_incl_length; [exact Hd|].
  intros c Hin. apply boardCells_complete.
  rewrite Forall_forall in Hb. apply Hb, Hin.
Qed.

(** X1. In every reachable state of either variant each cell of the
    snake is adjacent (one step up, down, left or right) to the next:
    the snake is one connected path from head to tail. *)
Theorem snake_is_a_connected_path :
  (forall s, VariantA.reachable s -> connected (VariantA.snake s))
  /\ (forall s, VariantB.reachable s -> connected (VariantB.snake s)).
Proof.
  split; intros s R.
  - apply (play_connected _ (playInvA_reachable s R)).
  - apply (play_connected _ (playInvB_reachable s R)).
Qed.

Lemma snake_is_a_connected_path_witness :
  connected [mkPoint 5 10; mkPoint 4 10; mkPoint 3 10]
  /\ connected [mkPoint 5 10; mkPoint 4 10; mkPoint 3 10].
Proof.
  split.
  - apply (proj1 snake_is_a_connected_path PropsA.scenario).
    apply (VariantA.reach_mount [(3 # 10)%Q; (5 # 13)%Q]). reflexivity.
  - apply (proj2 snake_is_a_connected_path PropsB.scenario).
    apply (VariantB.reach_mount [(3 # 10)%Q; (5 # 13)%Q]). reflexivity.
Defined.

(** X2. In every reachable state of either variant the snake has at
    least 3 cells, at most 3 plus the score, and at most 520 (the board);
    the score is never negative. *)
Theorem snake_length_bounds :
  (forall s, VariantA.reachable s ->
     3 <= Z.of_nat (length (VariantA.snake s)) <= 3 + VariantA.score s /\
     (length (VariantA.snake s) <= 520)%nat /\ 0 <= VariantA.score s)
  /\ (forall s, VariantB.reachable s ->
     3 <= Z.of_nat (length (VariantB.snake s)) <= 3 + VariantB.score s /\
     (length (VariantB.snake s) <= 520)%nat /\ 0 <= VariantB.score s).
Proof.
  split; intros s R.
  - pose proof (play_length _ (playInvA_reachable s R)) as H.
    cbn [MoreA.playOf playSnake playScore] in H.
    split; [exact H|]. split; [|lia].
    apply goodSnake_length, (PropsA.snake_good s (InvA_reachable s R)).
  - pose proof (play_length _ (playInvB_reachable s R)) as H.
    cbn [MoreB.playOf playSnake playScore] in H.
    split; [exact H|]. split; [|lia].
    apply goodSnake_length, (PropsB.snake_good s (InvB_reachable s R)).
Qed.

Lemma snake_length_bounds_witness :
  (3 <= Z.of_nat 3 <= 3 + 0 /\ (3 <= 520)%nat /\ 0 <= 0)
  /\ (3 <= Z.of_nat 3 <= 3 + 0 /\ (3 <= 520)%nat /\ 0 <= 0).
Proof.
  split.
  - apply (proj1 snake_length_bounds PropsA.scenario).
    apply (VariantA.reach_mount [(3 # 10)%Q; (5 # 13)%Q]). reflexivity.
  - apply (proj2 snake_length_bounds PropsB.scenario).
    apply (VariantB.reach_mount [(3 # 10)%Q; (5 # 13)%Q]). reflexivity.
Defined.

(** X3. In every reachable state of either variant the speed is the one
    the score gives: 140 after [max(70, floor(. * 0.96))] applied once
    per point of the score; it is 70 from score 15 on. *)
Theorem speed_is_given_by_score :
  (forall s, VariantA.reachable s ->
     VariantA.speed s = speedAfter (Z.to_nat (VariantA.score s)) /\
     (15 <= VariantA.score s -> VariantA.speed s = 70))
  /\ (forall s, VariantB.reachable s ->
     VariantB.speed s = speedAfter (Z.to_nat (VariantB.score s)) /\
     (15 <= VariantB.score s -> VariantB.speed s = 70)).
Proof.
  split; intros s R.
  - pose proof (play_speed _ (playInvA_reachable s R)) as H.
    cbn [MoreA.playOf playSpeed playScore] in H.
    split; [exact H|]. intros Hs. rewrite H. apply speedAfter_floor. lia.
  - pose proof (play_speed _ (playInvB_reachable s R)) as H.
    cbn [MoreB.playOf playSpeed playScore] in H.
    split; [exact H|]. intros Hs. rewrite H. apply speedAfter_floor. lia.
Qed.

Lemma speed_is_given_by_score_witness :
  134 = speedAfter 1 /\ 134 = speedAfter 1.
Proof.
  split.
  - apply (proj1 speed_is_given_by_score
             (VariantA.commit
                (PropsA.afterEating (mkPoint 6 10) (mkPoint 0 0)
                   PropsA.scenario))).
    apply (VariantA.reach_event (VariantA.Tick [0%Q; 0%Q]) PropsA.scenario).
    + apply (VariantA.reach_mount [(3 # 10)%Q; (5 # 13)%Q]). reflexivity.
    + reflexivity.
  - apply (proj2 speed_is_given_by_score
             (VariantB.commit 140
                (PropsB.afterEating (mkPoint 6 10) (mkPoint 0 0)
                   PropsB.scenario))).
    apply (VariantB.reach_event (VariantB.Tick [0%Q; 0%Q]) PropsB.scenario).
    + apply (VariantB.reach_mount [(3 # 10)%Q; (5 # 13)%Q]). reflexivity.
    + reflexivity.
Defined.

End PlayInvariant.

(** ** The food over a whole game *)

Section FoodOverAGame.

Lemma reachableUnitA_reachable (s : VariantA.State) :
  MoreA.reachableUnit s -> VariantA.reachable s.
Proof.
  induction 1 as [rnd s _ Hm | ev s s' _ IH _ Hh].
  - apply (VariantA.reach_mount rnd s Hm).
  - apply (VariantA.reach_event ev s s' IH Hh).
Qed.

Lemma reachableUnitB_reachable (s : VariantB.State) :
  MoreB.reachableUnit s -> VariantB.reachable s.
Proof.
  induction 1 as [rnd s _ Hm | ev s s' _ IH _ Hh].
  - apply (VariantB.reach_mount rnd s Hm).
  - apply (VariantB.reach_event ev s s' IH Hh).
Qed.

Lemma foodA_stays_on_board (s : VariantA.State) :
  MoreA.reachableUnit s -> inBoard (VariantA.food s).
Proof.
  induction 1 as [rnd s Hu Hm | ev s s' R IH Hu Hh].
  - apply (randomFood_inBoard _ rnd _ Hu (mountA_food rnd s Hm)).
  - pose proof (InvA_reachable s (reachableUnitA_reachable s R)) as I.
    revert Hh. unfold VariantA.handle.
    destruct ev as [rnd | next | rnd | |]; simpl;
      try (intros H; injection H as <-; exact IH).
    + unfold VariantA.tick. destruct (VariantA.runningRef s); simpl.
      * destruct (VariantA.step rnd s) as [s1| |] eqn:Hstep; simpl;
          try discriminate.
        intros H. injection H as <-. simpl.
        destruct (stepA_outcome rnd s s1 (PropsA.growth_zero s I) Hstep)
          as [_ -> | nh _ _ _ -> | nh newFood _ _ _ Hrf ->]; simpl;
          try exact IH.
        apply (randomFood_inBoard _ rnd _ Hu Hrf).
      * intros H. injection H as <-. exact IH.
    + destruct (VariantA.timers s) as [|n]; simpl.
      * intros H. injection H as <-. exact IH.
      * unfold VariantA.resetTimeout.
        destruct (randomFood INITIAL_SNAKE rnd) as [f| |] eqn:Hrf; simpl;
          try discriminate.
        intros H. injection H as <-. simpl.
        apply (randomFood_inBoard _ rnd _ Hu Hrf).
Qed.

Lemma foodB_stays_on_board (s : VariantB.State) :
  MoreB.reachableUnit s ->
  inBoard (VariantB.food s) /\ inBoard (VariantB.stepFood s).
Proof.
  induction 1 as [rnd s Hu Hm | ev s s' R [IHf IHs] Hu Hh].
  - pose proof (randomFood_inBoard _ rnd _ Hu (mountB_food rnd s Hm)) as Hf.
    revert Hm Hf. unfold VariantB.mount.
    destruct (randomFood INITIAL_SNAKE rnd) as [f| |]; simpl;
      try discriminate.
    intros H. injection H as <-. simpl. intros Hf. split; exact Hf.
  - revert Hh. unfold VariantB.handle.
    destruct ev as [rnd | next | rnd | |]; simpl;
      try (intros H; injection H as <-; simpl; rewrite Z.eqb_refl;
           split; assumption).
    + unfold VariantB.tick. destruct (VariantB.runningRef s); simpl.
      * destruct (VariantB.step rnd s) as [s1| |] eqn:Hstep; simpl;
          try discriminate.
        intros H. injection H as <-. simpl.
        destruct (stepB_outcome rnd s s1 Hstep)
          as [_ -> | nh _ _ _ -> | nh newFood _ _ _ Hrf ->]; simpl;
          try (rewrite Z.eqb_refl; split; assumption).
        pose proof (randomFood_inBoard _ rnd _ Hu Hrf) as Hn.
        split; [exact Hn|].
        match goal with
        | |- inBoard (if ?c then _ else _) => destruct c
        end; assumption.
      * intros H. injection H as <-. simpl. rewrite Z.eqb_refl.
        split; assumption.
    + destruct (VariantB.timers s) as [|n]; simpl.
      * intros H. injection H as <-. simpl. rewrite Z.eqb_refl.
        split; assumption.
      * unfold VariantB.resetTimeout.
        destruct (randomFood INITIAL_SNAKE rnd) as [f| |] eqn:Hrf; simpl;
          try discriminate.
        intros H. injection H as <-. simpl.
        pose proof (randomFood_inBoard _ rnd _ Hu Hrf) as Hn.
        split; [exact Hn|].
        match goal with
        | |- inBoard (if ?c then _ else _) => destruct c
        end; assumption.
Qed.

(** X4. In every state of a game whose [Math.random()] samples lie in
    [0,1), the food is on the board (0 <= x < 20, 0 <= y < 26); in
    variant B so is the food that [step] compares with. *)
Theorem food_is_always_on_the_board :
  (forall s, MoreA.reachableUnit s ->
     inBoard (VariantA.food s) /\ inBoard (VariantA.foodRef s))
  /\ (forall s, MoreB.reachableUnit s ->
     inBoard (VariantB.food s) /\ inBoard (VariantB.stepFood s)).
Proof.
  split; intros s R.
  - pose proof (foodA_stays_on_board s R) as H. split; [exact H|].
    rewrite (PropsA.foodRef_synced s
               (InvA_reachable s (reachableUnitA_reachable s R))).
    exact H.
  - apply (foodB_stays_on_board s R).
Qed.

Lemma food_is_always_on_the_board_witness :
  (inBoard (mkPoint 6 10) /\ inBoard (mkPoint 6 10))
  /\ (inBoard (mkPoint 6 10) /\ inBoard (mkPoint 6 10)).
Proof.
  split.
  - apply (proj1 food_is_always_on_the_board PropsA.scenario).
    apply (MoreA.unit_mount [(3 # 10)%Q; (5 # 13)%Q]); [|reflexivity].
    repeat (constructor; [split; [discriminate | reflexivity] |]).
    constructor.
  - apply (proj2 food_is_always_on_the_board PropsB.scenario).
    apply (MoreB.unit_mount [(3 # 10)%Q; (5 # 13)%Q]); [|reflexivity].
    repeat (constructor; [split; [discriminate | reflexivity] |]).
    constructor.
Defined.

Lemma foodA_off_snake_step (ev : VariantA.Event) (s s' : VariantA.State) :
  PropsA.Inv s -> ~ In (VariantA.food s) (VariantA.snake s) ->
  VariantA.handle ev s = Ok s' ->
  ~ In (VariantA.food s') (VariantA.snake s') \/ MoreA.collidingTick ev s.
Proof.
  intros I Hoff. unfold VariantA.handle.
  destruct ev as [rnd | next | rnd | |]; simpl;
    try (intros H; injection H as <-; left; exact Hoff).
  - unfold VariantA.tick. destruct (VariantA.runningRef s) eqn:Hr; simpl.
    + destruct (VariantA.step rnd s) as [s1| |] eqn:Hstep; simpl;
        try discriminate.
      intros H. injection H as <-. simpl.
      destruct (stepA_outcome rnd s s1 (PropsA.growth_zero s I) Hstep)
        as [Ht -> | nh Hn _ Ha -> | nh newFood _ _ _ Hrf ->];
        cbn [VariantA.setSnake VariantA.snake VariantA.food
             PropsA.afterEating PropsA.afterCollision].
      * right. exists rnd. repeat split; assumption.
      * left. intros Hin. apply In_dropLast in Hin.
        destruct Hin as [E | Hin]; [|exact (Hoff Hin)].
        unfold VariantA.ateFoodAt in Ha. rewrite Hn in Ha.
        rewrite (PropsA.foodRef_synced s I), E, samePoint_refl in Ha.
        discriminate.
      * left. apply (randomFood_free _ rnd _ Hrf).
    + intros H. injection H as <-. left. exact Hoff.
  - destruct (VariantA.timers s) as [|n]; simpl.
    + intros H. injection H as <-. left. exact Hoff.
    + unfold VariantA.resetTimeout.
      destruct (randomFood INITIAL_SNAKE rnd) as [f| |] eqn:Hrf; simpl;
        try discriminate.
      intros H. injection H as <-. simpl. left.
      apply (randomFood_free _ rnd _ Hrf).
Qed.

(** X5. In variant A the food never comes to lie under the snake by a
    move, a meal, a turn, a pause, a restart or the reset timer: from a
    reachable state with the food off the snake, every event but a tick
    that collides leaves it off the snake.  The colliding tick is a real
    exception: it puts the initial snake back at once and keeps the old
    food until the timer fires, and that food can be on a cell of the
    initial snake. *)
Theorem variantA_food_stays_off_the_snake :
  (forall ev s s',
      VariantA.reachable s ->
      ~ In (VariantA.food s) (VariantA.snake s) ->
      VariantA.handle ev s = Ok s' ->
      ~ In (VariantA.food s') (VariantA.snake s') \/
      MoreA.collidingTick ev s)
  /\ (exists s, VariantA.reachable s /\
        In (VariantA.food s) (VariantA.snake s)).
Proof.
  split.
  - intros ev s s' R. apply foodA_off_snake_step, InvA_reachable, R.
  - eexists. split.
    + apply (reachableA_run MoreA.foodUnderInitialSnake
               (VariantA.mkState INITIAL_SNAKE RIGHT (mkPoint 10 10) true 0
                  140 RIGHT true INITIAL_SNAKE (mkPoint 10 10) 0 O)).
      * apply (VariantA.reach_mount [(1 # 2)%Q; (5 # 13)%Q]). reflexivity.
      * vm_compute. reflexivity.
    + simpl. tauto.
Qed.

Lemma variantA_food_stays_off_the_snake_witness :
  ~ In (mkPoint 6 10) [mkPoint 5 10; mkPoint 4 10; mkPoint 3 10]
  \/ MoreA.collidingTick (VariantA.ChangeDir UP) PropsA.scenario.
Proof.
  apply (proj1 variantA_food_stays_off_the_snake (VariantA.ChangeDir UP)
           PropsA.scenario
           (VariantA.mkState INITIAL_SNAKE UP (mkPoint 6 10) true 0 140
              UP true INITIAL_SNAKE (mkPoint 6 10) 0 O)).
  - apply (VariantA.reach_mount [(3 # 10)%Q; (5 # 13)%Q]). reflexivity.
  - simpl. intros [H | [H | [H | H]]]; try discriminate H. exact H.
  - reflexivity.
Defined.

(** X6. In variant B, a meal taken at speed 70 does not change the
    speed, so the interval keeps the [step] it has: after the tick the
    food of the state is a new cell, but [step] still compares with the
    cell just eaten, which is now under the snake.  And whenever the two
    differ, a head that reaches the food of the state does not eat it:
    the snake keeps its length, the score stays, and the food stays
    where it is, under the head. *)
Theorem variantB_step_keeps_eaten_food_at_top_speed :
  (forall s rnd s',
      VariantB.reachable s -> VariantB.runningRef s = true ->
      VariantB.speed s = 70 ->
      VariantB.triggersReset s = false -> VariantB.ateFoodAt s = true ->
      VariantB.handle (VariantB.Tick rnd) s = Ok s' ->
      VariantB.stepFood s' = VariantB.stepFood s /\
      VariantB.food s' <> VariantB.stepFood s' /\
      In (VariantB.stepFood s') (VariantB.snake s'))
  /\ (forall s rnd s',
      VariantB.nextHeadOf s = Some (VariantB.food s) ->
      VariantB.food s <> VariantB.stepFood s ->
      VariantB.triggersReset s = false ->
      VariantB.step rnd s = Ok s' ->
      length (VariantB.snake s') = length (VariantB.snake s) /\
      VariantB.score s' = VariantB.score s /\
      VariantB.food s' = VariantB.food s /\
      hd_error (VariantB.snake s') = Some (VariantB.food s')).
Proof.
  split.
  - intros s rnd s' R Hr Hsp Ht Ha. unfold VariantB.handle. simpl.
    unfold VariantB.tick. rewrite Hr. simpl.
    destruct (VariantB.step rnd s) as [s1| |] eqn:Hstep; simpl;
      try discriminate.
    intros H. injection H as <-.
    destruct (stepB_outcome rnd s s1 Hstep)
      as [Ht' _ | nh _ _ Ha' _ | nh newFood Hn _ _ Hrf ->];
      try congruence.
    simpl. rewrite Hsp. change (speedUp 70 =? 70) with true. simpl.
    assert (Hnh : nh = VariantB.stepFood s).
    { unfold VariantB.ateFoodAt in Ha. rewrite Hn in Ha.
      apply samePoint_eq, Ha. }
    subst nh. split; [reflexivity|]. split.
    + intros E. apply (randomFood_free _ rnd _ Hrf). left. symmetry. exact E.
    + left. reflexivity.
  - intros s rnd s' Hn Hne Ht Hstep.
    assert (Ha : VariantB.ateFoodAt s = false).
    { unfold VariantB.ateFoodAt. rewrite Hn.
      destruct (samePoint (VariantB.food s) (VariantB.stepFood s)) eqn:E;
        [|reflexivity].
      apply samePoint_eq in E. contradiction. }
    rewrite (stepB_moves rnd s _ Hn Ht Ha) in Hstep. injection Hstep as <-.
    destruct (snake_of_nextHeadB s _ Hn) as [head [tl [Hs _]]].
    simpl. rewrite Hs.
    change (dropLast (VariantB.food s :: head :: tl))
      with (VariantB.food s :: dropLast (head :: tl)).
    repeat split. simpl length. f_equal. apply length_dropLast_cons.
Qed.

Lemma variantB_step_keeps_eaten_food_at_top_speed_witness :
  (mkPoint 19 12 = mkPoint 19 12 /\
   mkPoint 0 0 <> mkPoint 19 12 /\
   In (mkPoint 19 12)
      (mkPoint 19 12 :: VariantB.snake MoreB.atTopSpeed))
  /\ (3%nat = 3%nat /\ 0 = 0 /\ mkPoint 6 10 = mkPoint 6 10 /\
      Some (mkPoint 6 10) = Some (mkPoint 6 10)).
Proof.
  destruct variantB_step_keeps_eaten_food_at_top_speed as [H1 H2].
  split.
  - apply (H1 MoreB.atTopSpeed [0%Q; 0%Q]
             (VariantB.commit 70
                (PropsB.afterEating (mkPoint 19 12) (mkPoint 0 0)
                   MoreB.atTopSpeed))); try reflexivity.
    apply (reachableB_run MoreB.toTopSpeed PropsB.scenario).
    + apply (VariantB.reach_mount [(3 # 10)%Q; (5 # 13)%Q]). reflexivity.
    + vm_compute. reflexivity.
  - apply (H2 (VariantB.mkState INITIAL_SNAKE RIGHT (mkPoint 6 10) true 0 140
                 RIGHT true INITIAL_SNAKE (mkPoint 0 0) O)
              []
              (VariantB.mkState [mkPoint 6 10; mkPoint 5 10; mkPoint 4 10]
                 RIGHT (mkPoint 6 10) true 0 140
                 RIGHT true INITIAL_SNAKE (mkPoint 0 0) O));
      try reflexivity.
    discriminate.
Defined.

End FoodOverAGame.

(** ** What the food loop can return, and when it cannot return *)

Section FoodLoop.

Lemma floorRandom_cols (a : Z) : floorRandom (a # 20) BOARD_COLS = a.
Proof.
  unfold floorRandom, BOARD_COLS. simpl. apply Z.div_mul. discriminate.
Qed.

Lemma floorRandom_rows (a : Z) : floorRandom (a # 26) BOARD_ROWS = a.
Proof.
  unfold floorRandom, BOARD_ROWS. simpl. apply Z.div_mul. discriminate.
Qed.

Lemma unitSample_cols (a : Z) : 0 <= a < 20 -> unitSample (a # 20).
Proof. intros H. unfold unitSample, Qle, Qlt. simpl. lia. Qed.

Lemma unitSample_rows (a : Z) : 0 <= a < 26 -> unitSample (a # 26).
Proof. intros H. unfold unitSample, Qle, Qlt. simpl. lia. Qed.

Lemma coversBoard_In (occupied : list Point) (c : Point) :
  coversBoard occupied = true -> inBoard c -> In c occupied.
Proof.
  unfold coversBoard. rewrite forallb_forall. intros H Hc.
  apply some_at_In, H, boardCells_complete, Hc.
Qed.

Lemma randomFood_full_board (occupied : list Point) (rnd : list Q) :
  coversBoard occupied = true -> Forall unitSample rnd ->
  randomFood occupied rnd = Spin.
Proof.
  intros Hcov Hall.
  destruct (randomFood occupied rnd) as [c| |] eqn:Hrf; [| |reflexivity].
  - exfalso. apply (randomFood_free _ _ _ Hrf).
    apply (coversBoard_In _ _ Hcov).
    apply (randomFood_inBoard _ _ _ Hall Hrf).
  - exfalso. apply (randomFood_never_throws _ _ Hrf).
Qed.

(** X7. The cells [randomFood(occupied)] can return, over all streams of
    [Math.random()] samples in [0,1), are exactly the cells of the board
    that are not in [occupied]: it never returns another cell, and every
    free cell is returned on some stream. *)
Theorem randomFood_returns_exactly_the_free_cells :
  forall occupied c,
    (exists rnd, Forall unitSample rnd /\ randomFood occupied rnd = Ok c)
    <-> (inBoard c /\ ~ In c occupied).
Proof.
  intros occupied c. split.
  - intros [rnd [Hall Hrf]]. split.
    + apply (randomFood_inBoard _ _ _ Hall Hrf).
    + apply (randomFood_free _ _ _ Hrf).
  - intros [[Hx Hy] Hfree].
    exists [(x c # 20)%Q; (y c # 26)%Q]. split.
    + constructor; [apply unitSample_cols, Hx|].
      constructor; [apply unitSample_rows, Hy | constructor].
    + simpl. rewrite floorRandom_cols, floorRandom_rows.
      replace (mkPoint (x c) (y c)) with c by (destruct c; reflexivity).
      apply some_at_not_In in Hfree. rewrite Hfree. reflexivity.
Qed.

Lemma randomFood_returns_exactly_the_free_cells_witness :
  exists rnd, Forall unitSample rnd /\
    randomFood INITIAL_SNAKE rnd = Ok (mkPoint 19 25).
Proof.
  apply (proj2 (randomFood_returns_exactly_the_free_cells INITIAL_SNAKE
                  (mkPoint 19 25))).
  split.
  - unfold inBoard, BOARD_COLS, BOARD_ROWS. simpl. lia.
  - simpl. intros [H | [H | [H | H]]]; try discriminate H. exact H.
Defined.

(** X8. When [occupied] holds every cell of the board, [randomFood]
    returns on no stream of samples in [0,1): the loop runs for ever.
    So the [step] that eats the last free cell of the board never
    returns, in either variant: with 519 cells on the board and the food
    on the 520th, the tick that eats it hangs. *)
Theorem eating_the_last_free_cell_never_returns :
  (forall occupied rnd,
      coversBoard occupied = true -> Forall unitSample rnd ->
      randomFood occupied rnd = Spin)
  /\ (forall s rnd nextHead,
      VariantA.nextHeadOf s = Some nextHead ->
      VariantA.triggersReset s = false -> VariantA.ateFoodAt s = true ->
      coversBoard (nextHead :: VariantA.snake s) = true ->
      Forall unitSample rnd ->
      VariantA.step rnd s = Spin)
  /\ (forall s rnd nextHead,
      VariantB.nextHeadOf s = Some nextHead ->
      VariantB.triggersReset s = false -> VariantB.ateFoodAt s = true ->
      coversBoard (nextHead :: VariantB.snake s) = true ->
      Forall unitSample rnd ->
      VariantB.step rnd s = Spin).
Proof.
  split; [exact randomFood_full_board | split].
  - intros s rnd nh Hn Ht Ha Hcov Hall.
    pose proof (randomFood_full_board _ rnd Hcov Hall) as Hrf.
    destruct (snake_of_nextHeadA s nh Hn) as [head [tl [Hs ->]]].
    destruct (stepA_unfold s head tl Hs) as [_ [Ha' Hr]].
    rewrite Ha in Ha'. rewrite Ht in Hr.
    symmetry in Hr. apply orb_false_iff in Hr as [Hw Hb].
    unfold VariantA.step. rewrite Hs in *. cbv zeta.
    rewrite Hw, Hb, <- Ha'. unfold VariantA.eatFood.
    cbv zeta. rewrite Hrf. reflexivity.
  - intros s rnd nh Hn Ht Ha Hcov Hall.
    pose proof (randomFood_full_board _ rnd Hcov Hall) as Hrf.
    destruct (snake_of_nextHeadB s nh Hn) as [head [tl [Hs ->]]].
    destruct (stepB_unfold s head tl Hs) as [_ [Ha' Hr]].
    rewrite Ha in Ha'. rewrite Ht in Hr.
    symmetry in Hr. apply orb_false_iff in Hr as [Hw Hb].
    unfold VariantB.step. rewrite Hs in *. cbv zeta.
    rewrite Hw, Hb, <- Ha'. cbn [negb]. rewrite Hrf. reflexivity.
Qed.

Lemma eating_the_last_free_cell_never_returns_witness :
  VariantA.step [(1 # 2)%Q; (1 # 2)%Q; 0%Q; 0%Q] MoreA.lastFood = Spin
  /\ VariantB.step [(1 # 2)%Q; (1 # 2)%Q; 0%Q; 0%Q] MoreB.lastFood = Spin.
Proof.
  destruct eating_the_last_free_cell_never_returns as [_ [HA HB]].
  split.
  - apply (HA MoreA.lastFood _ (mkPoint 0 0)); try (vm_compute; reflexivity).
    repeat (constructor; [split; [discriminate | reflexivity] |]).
    constructor.
  - apply (HB MoreB.lastFood _ (mkPoint 0 0)); try (vm_compute; reflexivity).
    repeat (constructor; [split; [discriminate | reflexivity] |]).
    constructor.
Defined.

Lemma handleA_never_throws (ev : VariantA.Event) (s : VariantA.State) :
  PropsA.Inv s -> VariantA.handle ev s <> TypeError.
Proof.
  intros I. unfold VariantA.handle.
  destruct ev as [rnd | next | rnd | |]; simpl; try discriminate.
  - unfold VariantA.tick. destruct (VariantA.runningRef s); simpl;
      [|discriminate].
    destruct (VariantA.step rnd s) as [s1| |] eqn:Hstep; simpl;
      try discriminate.
    exfalso. revert Hstep. unfold VariantA.step.
    destruct (VariantA.snake s) as [|head tl] eqn:Hs;
      [exfalso; apply (PropsA.snake_nonempty s I Hs)|].
    cbv zeta. destruct (hitsWall _); [discriminate|].
    destruct (some_at _ _); [discriminate|].
    destruct (samePoint _ _); [|discriminate].
    unfold VariantA.eatFood. cbv zeta.
    destruct (randomFood _ rnd) as [f| |] eqn:Hrf; simpl; try discriminate.
    exfalso. apply (randomFood_never_throws _ _ Hrf).
  - destruct (VariantA.timers s); simpl; [discriminate|].
    unfold VariantA.resetTimeout.
    destruct (randomFood INITIAL_SNAKE rnd) as [f| |] eqn:Hrf; simpl;
      try discriminate.
    exfalso. apply (randomFood_never_throws _ _ Hrf).
Qed.

Lemma handleB_never_throws (ev : VariantB.Event) (s : VariantB.State) :
  PropsB.Inv s -> VariantB.handle ev s <> TypeError.
Proof.
  intros I. unfold VariantB.handle.
  destruct ev as [rnd | next | rnd | |]; simpl; try discriminate.
  - unfold VariantB.tick. destruct (VariantB.runningRef s); simpl;
      [|discriminate].
    destruct (VariantB.step rnd s) as [s1| |] eqn:Hstep; simpl;
      try discriminate.
    exfalso. revert Hstep. unfold VariantB.step.
    destruct (VariantB.snake s) as [|head tl] eqn:Hs;
      [exfalso; apply (PropsB.snake_nonempty s I Hs)|].
    cbv zeta. destruct (hitsWall _); [discriminate|].
    destruct (some_at _ _); [discriminate|].
    destruct (samePoint _ _); simpl; [|discriminate].
    destruct (randomFood _ rnd) as [f| |] eqn:Hrf; simpl; try discriminate.
    exfalso. apply (randomFood_never_throws _ _ Hrf).
  - destruct (VariantB.timers s); simpl; [discriminate|].
    unfold VariantB.resetTimeout.
    destruct (randomFood INITIAL_SNAKE rnd) as [f| |] eqn:Hrf; simpl;
      try discriminate.
    exfalso. apply (randomFood_never_throws _ _ Hrf).
Qed.

(** X9. From a reachable state no event handler throws: the snake is
    never empty, so [prev[0]] is always a cell.  A handler that does not
    return is stuck in the food loop: it is a tick that eats, or the
    reset timer; a direction request, Pause and Restart always return. *)
Theorem handlers_never_throw :
  (forall ev s, VariantA.reachable s ->
     VariantA.handle ev s <> TypeError /\
     (VariantA.handle ev s = Spin ->
      (exists rnd, ev = VariantA.Tick rnd /\ VariantA.ateFoodAt s = true)
      \/ (exists rnd, ev = VariantA.Timeout rnd)))
  /\ (forall ev s, VariantB.reachable s ->
     VariantB.handle ev s <> TypeError /\
     (VariantB.handle ev s = Spin ->
      (exists rnd, ev = VariantB.Tick rnd /\ VariantB.ateFoodAt s = true)
      \/ (exists rnd, ev = VariantB.Timeout rnd))).
Proof.
  split; intros ev s R.
  - pose proof (InvA_reachable s R) as I.
    split; [apply (handleA_never_throws ev s I)|].
    destruct ev as [rnd | next | rnd | |];
      try (unfold VariantA.handle; simpl; discriminate).
    + intros Hspin. left. exists rnd. split; [reflexivity|].
      destruct (VariantA.ateFoodAt s) eqn:Ha; [reflexivity|]. exfalso.
      revert Hspin. unfold VariantA.handle. simpl. unfold VariantA.tick.
      destruct (VariantA.runningRef s); simpl; [|discriminate].
      destruct (stepA_returns rnd s I) as [s' Hs'].
      { right. left. exact Ha. }
      rewrite Hs'. discriminate.
    + intros _. right. exists rnd. reflexivity.
  - pose proof (InvB_reachable s R) as I.
    split; [apply (handleB_never_throws ev s I)|].
    destruct ev as [rnd | next | rnd | |];
      try (unfold VariantB.handle; simpl; discriminate).
    + intros Hspin. left. exists rnd. split; [reflexivity|].
      destruct (VariantB.ateFoodAt s) eqn:Ha; [reflexivity|]. exfalso.
      revert Hspin. unfold VariantB.handle. simpl. unfold VariantB.tick.
      destruct (VariantB.runningRef s); simpl; [|discriminate].
      destruct (stepB_returns rnd s I) as [s' Hs'].
      { right. left. exact Ha. }
      rewrite Hs'. discriminate.
    + intros _. right. exists rnd. reflexivity.
Qed.

Lemma handlers_never_throw_witness :
  VariantA.handle (VariantA.Tick []) PropsA.scenario <> TypeError
  /\ VariantB.handle (VariantB.Tick []) PropsB.scenario <> TypeError.
Proof.
  split.
  - apply (proj1 handlers_never_throw (VariantA.Tick []) PropsA.scenario).
    apply (VariantA.reach_mount [(3 # 10)%Q; (5 # 13)%Q]). reflexivity.
  - apply (proj2 handlers_never_throw (VariantB.Tick []) PropsB.scenario).
    apply (VariantB.reach_mount [(3 # 10)%Q; (5 # 13)%Q]). reflexivity.
Defined.

End FoodLoop.

(** ** The board on the screen *)

Section Geometry.

Lemma Qfloor_div20 (b : Q) :
  (inject_Z (Qfloor (b / inject_Z 20)) * 20 <= b /\
   b < (inject_Z (Qfloor (b / inject_Z 20)) + 1) * 20)%Q.
Proof.
  pose proof (Qfloor_le (b / inject_Z 20)) as H1.
  pose proof (Qlt_floor (b / inject_Z 20)) as H2.
  rewrite inject_Z_plus in H2.
  unfold Qdiv in *. change (/ inject_Z 20)%Q with (1 # 20)%Q in *.
  change (inject_Z 1) with 1%Q in H2.
  remember (inject_Z (Qfloor (b * (1 # 20)))) as k. split; lra.
Qed.

Lemma cellSize_bounds (width : Q) :
  (inject_Z (cellSize width) * 20 <= boardSize width /\
   boardSize width < (inject_Z (cellSize width) + 1) * 20)%Q.
Proof. unfold cellSize, BOARD_COLS. apply Qfloor_div20. Qed.

Lemma boardSize_bounds (width : Q) :
  (boardSize width <= width - 32 /\ boardSize width <= 480 /\
   (width - 32 <= 480 -> boardSize width == width - 32) /\
   (480 <= width - 32 -> boardSize width == 480))%Q.
Proof.
  unfold boardSize. split; [apply Q.le_min_l|]. split; [apply Q.le_min_r|].
  split; intros H.
  - apply Q.min_l. exact H.
  - apply Q.min_r. exact H.
Qed.

(** X10. The board is 20 cells wide and 26 high, the cell being the
    twentieth of [min(width - 32, 480)] rounded down.  Whatever the
    window width: the board is at most [width - 32] and at most 480 wide,
    at most 624 high, a cell at most 24; up to a board of 480 the strip
    left unused beside the board is narrower than 20; and the cell is at
    least 1 exactly when the window is at least 52 wide (below that the
    board has no extent). *)
Theorem board_fits_the_window :
  forall width : Q,
    (inject_Z (boardWidth width) <= width - 32)%Q
    /\ boardWidth width <= 480 /\ boardHeight width <= 624
    /\ cellSize width <= 24
    /\ ((width - 32 <= 480)%Q ->
        (width - 32 - inject_Z (boardWidth width) < 20)%Q)
    /\ ((52 <= width)%Q <-> 1 <= cellSize width).
Proof.
  intros width.
  destruct (cellSize_bounds width) as [H1 H2].
  destruct (boardSize_bounds width) as [H3 [H4 [H5 H6]]].
  assert (Hc : cellSize width <= 24).
  { apply Z.lt_succ_r. rewrite Zlt_Qlt.
    change (inject_Z (Z.succ 24)) with 25%Q. lra. }
  unfold boardWidth, boardHeight, BOARD_COLS, BOARD_ROWS.
  rewrite inject_Z_mult. change (inject_Z 20) with 20%Q.
  split; [lra|]. split; [lia|]. split; [lia|]. split; [exact Hc|].
  split.
  - intros Hw. specialize (H5 Hw). lra.
  - split.
    + intros Hw. apply Z.lt_pred_le. rewrite Zlt_Qlt.
      change (inject_Z (Z.pred 1)) with 0%Q.
      destruct (Qlt_le_dec (width - 32) 480) as [Hlt | Hge].
      * assert (Hle : (width - 32 <= 480)%Q) by lra.
        specialize (H5 Hle). lra.
      * specialize (H6 Hge). lra.
    + intros Hk. rewrite Zle_Qle in Hk. change (inject_Z 1) with 1%Q in Hk.
      lra.
Qed.

Lemma board_fits_the_window_witness :
  (375 - 32 - inject_Z (boardWidth 375) < 20)%Q /\ 1 <= cellSize 375.
Proof.
  split.
  - apply (proj1 (proj2 (proj2 (proj2 (proj2 (board_fits_the_window 375)))))).
    vm_compute. discriminate.
  - apply (proj1 (proj2 (proj2 (proj2 (proj2 (proj2
             (board_fits_the_window 375))))))).
    vm_compute. discriminate.
Defined.






End Geometry.

(** ** Swipes *)

Section Swipes.

Lemma Qltb_iff (a b : Q) : Qltb a b = true <-> (a < b)%Q.
Proof.
  unfold Qltb. rewrite negb_true_iff. split.
  - intros H. apply Qnot_le_lt. intros Hle.
    apply Qle_bool_iff in Hle. congruence.
  - intros H. destruct (Qle_bool b a) eqn:E; [|reflexivity].
    apply Qle_bool_iff in E. lra.
Qed.

Lemma Qltb_false_iff (a b : Q) : Qltb a b = false <-> (b <= a)%Q.
Proof. unfold Qltb. rewrite negb_false_iff. apply Qle_bool_iff. Qed.

Lemma Qltb_compat (a a' b b' : Q) :
  (a == a')%Q -> (b == b')%Q -> Qltb a b = Qltb a' b'.
Proof.
  intros Ha Hb. destruct (Qltb a' b') eqn:E.
  - apply Qltb_iff. apply Qltb_iff in E. lra.
  - apply Qltb_false_iff. apply Qltb_false_iff in E. lra.
Qed.

Lemma Qltb_opp_sign (a : Q) :
  (0 < Qabs a)%Q -> Qltb 0 (- a) = negb (Qltb 0 a).
Proof.
  intros H. destruct (Qltb 0 a) eqn:E; simpl.
  - apply Qltb_false_iff. apply Qltb_iff in E. lra.
  - apply Qltb_iff. apply Qltb_false_iff in E.
    revert H. apply Qabs_case; intros; lra.
Qed.

(** What decides a swipe: nothing below the threshold; the sign of [dx]
    when [|dx| > |dy|]; the sign of [dy] otherwise. *)
Lemma swipeDirection_cases (dx dy : Q) :
  ((Qabs dx < 12 /\ Qabs dy < 12)%Q /\ swipeDirection dx dy = None)
  \/ ((12 <= Qabs dx \/ 12 <= Qabs dy)%Q /\ (Qabs dy < Qabs dx)%Q /\
      (0 < Qabs dx)%Q /\
      swipeDirection dx dy = Some (if Qltb 0 dx then RIGHT else LEFT))
  \/ ((12 <= Qabs dx \/ 12 <= Qabs dy)%Q /\ (Qabs dx <= Qabs dy)%Q /\
      (0 < Qabs dy)%Q /\
      swipeDirection dx dy = Some (if Qltb 0 dy then DOWN else UP)).
Proof.
  unfold swipeDirection. cbv zeta.
  pose proof (Qabs_nonneg dx) as Hx. pose proof (Qabs_nonneg dy) as Hy.
  destruct (Qltb (Qabs dx) 12) eqn:E1; destruct (Qltb (Qabs dy) 12) eqn:E2;
    simpl;
    try apply Qltb_iff in E1; try apply Qltb_false_iff in E1;
    try apply Qltb_iff in E2; try apply Qltb_false_iff in E2.
  - left. repeat split; assumption.
  - right. destruct (Qltb (Qabs dy) (Qabs dx)) eqn:E3;
      [apply Qltb_iff in E3; lra|].
    apply Qltb_false_iff in E3. right.
    split; [right; exact E2|]. repeat split; lra.
  - right. destruct (Qltb (Qabs dy) (Qabs dx)) eqn:E3;
      [|apply Qltb_false_iff in E3; lra].
    apply Qltb_iff in E3. left.
    split; [left; exact E1|]. repeat split; lra.
  - right. destruct (Qltb (Qabs dy) (Qabs dx)) eqn:E3.
    + apply Qltb_iff in E3. left.
      split; [left; exact E1|]. repeat split; lra.
    + apply Qltb_false_iff in E3. right.
      split; [left; exact E1|]. repeat split; lra.
Qed.

(** X12. A released swipe shorter than 12 along both axes asks for
    nothing; any other swipe asks for exactly one direction, horizontal
    when [|dx| > |dy|] and vertical otherwise (a diagonal counts as
    vertical), and the component that decides the sign is never 0.  The
    mirrored swipe asks for the opposite direction. *)
Theorem swipe_direction_is_antisymmetric :
  forall dx dy : Q,
    swipeDirection (- dx) (- dy) = option_map opposite (swipeDirection dx dy)
    /\ (swipeDirection dx dy = None <-> (Qabs dx < 12 /\ Qabs dy < 12)%Q)
    /\ (forall d, swipeDirection dx dy = Some d ->
          ((d = LEFT \/ d = RIGHT) <-> (Qabs dy < Qabs dx)%Q)).
Proof.
  intros dx dy. split; [|split].
  - unfold swipeDirection. cbv zeta.
    rewrite (Qltb_compat (Qabs (- dx)) (Qabs dx) 12 12 (Qabs_opp dx)
               (Qeq_refl _)).
    rewrite (Qltb_compat (Qabs (- dy)) (Qabs dy) 12 12 (Qabs_opp dy)
               (Qeq_refl _)).
    rewrite (Qltb_compat (Qabs (- dy)) (Qabs dy) (Qabs (- dx)) (Qabs dx)
               (Qabs_opp dy) (Qabs_opp dx)).
    destruct (swipeDirection_cases dx dy)
      as [[[H1 H2] _] | [[Hb [Hlt [Hpos _]]] | [Hb [Hle [Hpos _]]]]].
    + apply Qltb_iff in H1, H2. rewrite H1, H2. reflexivity.
    + assert (E : Qltb (Qabs dx) 12 && Qltb (Qabs dy) 12 = false).
      { apply andb_false_iff.
        destruct Hb as [Hb | Hb]; [left | right]; apply Qltb_false_iff, Hb. }
      rewrite E. apply Qltb_iff in Hlt. rewrite Hlt.
      rewrite (Qltb_opp_sign dx Hpos). simpl.
      destruct (Qltb 0 dx); reflexivity.
    + assert (E : Qltb (Qabs dx) 12 && Qltb (Qabs dy) 12 = false).
      { apply andb_false_iff.
        destruct Hb as [Hb | Hb]; [left | right]; apply Qltb_false_iff, Hb. }
      rewrite E. apply Qltb_false_iff in Hle. rewrite Hle.
      rewrite (Qltb_opp_sign dy Hpos). simpl.
      destruct (Qltb 0 dy); reflexivity.
  - destruct (swipeDirection_cases dx dy)
      as [[H E] | [[Hb [_ [_ E]]] | [Hb [_ [_ E]]]]]; rewrite E.
    + split; [intros _; exact H | reflexivity].
    + split; [discriminate | intros [H1 H2]; lra].
    + split; [discriminate | intros [H1 H2]; lra].
  - intros d.
    destruct (swipeDirection_cases dx dy)
      as [[H E] | [[Hb [Hlt [_ E]]] | [Hb [Hle [_ E]]]]]; rewrite E.
    + discriminate.
    + intros H. injection H as <-. split; [intros _; exact Hlt|].
      intros _. destruct (Qltb 0 dx); [right | left]; reflexivity.
    + intros H. injection H as <-. split.
      * destruct (Qltb 0 dy); intros [H | H]; discriminate H.
      * intros Hlt. lra.
Qed.

Lemma swipe_direction_is_antisymmetric_witness :
  (RIGHT = LEFT \/ RIGHT = RIGHT) <-> (Qabs (-4) < Qabs 30)%Q.
Proof.
  apply (proj2 (proj2 (swipe_direction_is_antisymmetric 30 (-4))) RIGHT).
  reflexivity.
Defined.

Lemma onPanResponderRelease_cases (dx dy : Q) (s : VariantA.State) :
  PropsA.Inv s ->
  exists s', MoreA.onPanResponderRelease dx dy s = Ok s' /\
    PropsA.frozen s s' /\
    VariantA.dir s' = VariantA.dirRef s' /\
    VariantA.dir s'
    = match swipeDirection dx dy with
      | None => VariantA.dir s
      | Some next =>
          if isReverse (VariantA.dir s) next then VariantA.dir s else next
      end.
Proof.
  intros I. unfold MoreA.onPanResponderRelease.
  destruct (swipeDirection dx dy) as [next|].
  - rewrite (handleA_changeDir s next I). eexists. split; [reflexivity|].
    unfold PropsA.frozen. simpl. repeat split.
    rewrite (PropsA.dirRef_synced s I). reflexivity.
  - exists s. split; [reflexivity|]. unfold PropsA.frozen. repeat split.
    symmetry. apply (PropsA.dirRef_synced s I).
Qed.

(** X13. In variant A a released swipe always returns and changes
    nothing but the direction: snake, food, score, speed, growth counter,
    timers and the running flag are as before.  The direction becomes the
    one the swipe asks for, unless the swipe is shorter than 12 along both
    axes or asks for the reverse of the current direction, in which cases
    it stays. *)
Theorem swipe_changes_the_direction_only :
  forall dx dy s,
    VariantA.reachable s ->
    exists s', MoreA.onPanResponderRelease dx dy s = Ok s' /\
      PropsA.frozen s s' /\
      VariantA.dir s' = VariantA.dirRef s' /\
      VariantA.dir s'
      = match swipeDirection dx dy with
        | None => VariantA.dir s
        | Some next =>
            if isReverse (VariantA.dir s) next then VariantA.dir s else next
        end.
Proof.
  intros dx dy s R.
  apply (onPanResponderRelease_cases dx dy s (InvA_reachable s R)).
Qed.

Lemma swipe_changes_the_direction_only_witness :
  exists s', MoreA.onPanResponderRelease (-30) 4 PropsA.scenario = Ok s' /\
    PropsA.frozen PropsA.scenario s' /\
    VariantA.dir s' = VariantA.dirRef s' /\
    VariantA.dir s' = RIGHT.
Proof.
  apply (swipe_changes_the_direction_only (-30) 4 PropsA.scenario).
  apply (VariantA.reach_mount [(3 # 10)%Q; (5 # 13)%Q]). reflexivity.
Defined.

End Swipes.

(** ** Pause, restart, reversal, walls *)

Section PauseAndRestart.

Lemma pausedA_ticks (rnds : list (list Q)) (s : VariantA.State) :
  PropsA.Inv s -> VariantA.running s = false ->
  VariantA.run (map VariantA.Tick rnds) s = Ok s.
Proof.
  intros I Hr. induction rnds as [|rnd rnds IH]; [reflexivity|].
  change (bind (VariantA.handle (VariantA.Tick rnd) s)
            (fun s1 => VariantA.run (map VariantA.Tick rnds) s1) = Ok s).
  rewrite (proj2 (tickA_paused rnd s I Hr)). exact IH.
Qed.

Lemma pausedB_ticks (rnds : list (list Q)) (s : VariantB.State) :
  PropsB.Inv s -> VariantB.running s = false ->
  VariantB.run (map VariantB.Tick rnds) s = Ok s.
Proof.
  intros I Hr. induction rnds as [|rnd rnds IH]; [reflexivity|].
  change (bind (VariantB.handle (VariantB.Tick rnd) s)
            (fun s1 => VariantB.run (map VariantB.Tick rnds) s1) = Ok s).
  rewrite (proj2 (tickB_paused rnd s I Hr)). exact IH.
Qed.

Lemma runA_app (evs evs' : list VariantA.Event) (s : VariantA.State) :
  VariantA.run (evs ++ evs') s
  = bind (VariantA.run evs s) (fun s1 => VariantA.run evs' s1).
Proof.
  revert s. induction evs as [|ev evs IH]; intros s; [reflexivity|].
  change (bind (VariantA.handle ev s)
            (fun s1 => VariantA.run (evs ++ evs') s1)
          = bind (bind (VariantA.handle ev s)
                    (fun s1 => VariantA.run evs s1))
              (fun s1 => VariantA.run evs' s1)).
  destruct (VariantA.handle ev s); simpl; [apply IH | reflexivity..].
Qed.

Lemma runB_app (evs evs' : list VariantB.Event) (s : VariantB.State) :
  VariantB.run (evs ++ evs') s
  = bind (VariantB.run evs s) (fun s1 => VariantB.run evs' s1).
Proof.
  revert s. induction evs as [|ev evs IH]; intros s; [reflexivity|].
  change (bind (VariantB.handle ev s)
            (fun s1 => VariantB.run (evs ++ evs') s1)
          = bind (bind (VariantB.handle ev s)
                    (fun s1 => VariantB.run evs s1))
              (fun s1 => VariantB.run evs' s1)).
  destruct (VariantB.handle ev s); simpl; [apply IH | reflexivity..].
Qed.

(** X14. Pause, any number of timer ticks, Resume: from a reachable
    running state of either variant this gives back exactly the state
    that was paused.  No tick is remembered and played later. *)
Theorem pause_and_resume_give_the_state_back :
  (forall s rnds,
      VariantA.reachable s -> VariantA.running s = true ->
      VariantA.run (VariantA.TogglePause :: map VariantA.Tick rnds
                    ++ [VariantA.TogglePause]) s = Ok s)
  /\ (forall s rnds,
      VariantB.reachable s -> VariantB.running s = true ->
      VariantB.run (VariantB.TogglePause :: map VariantB.Tick rnds
                    ++ [VariantB.TogglePause]) s = Ok s).
Proof.
  split; intros s rnds R Hr.
  - pose proof (InvA_reachable s R) as I.
    destruct (VariantA.handle VariantA.TogglePause s) as [s1| |] eqn:Hh;
      try (unfold VariantA.handle in Hh; simpl in Hh; discriminate).
    pose proof (InvA_handle _ s s1 I Hh) as I1.
    assert (Hr1 : VariantA.running s1 = false).
    { unfold VariantA.handle in Hh. simpl in Hh. injection Hh as <-.
      simpl. rewrite Hr. reflexivity. }
    change (bind (VariantA.handle VariantA.TogglePause s)
              (fun s1 => VariantA.run (map VariantA.Tick rnds
                                       ++ [VariantA.TogglePause]) s1)
            = Ok s).
    rewrite Hh. simpl. rewrite runA_app, (pausedA_ticks rnds s1 I1 Hr1).
    simpl. unfold VariantA.handle in Hh |- *. simpl in Hh |- *.
    injection Hh as <-. simpl. rewrite Hr. simpl.
    destruct I as [_ _ _ Hd Hrr Hf Hs _].
    destruct s; simpl in *. subst. reflexivity.
  - pose proof (InvB_reachable s R) as I.
    destruct (VariantB.handle VariantB.TogglePause s) as [s1| |] eqn:Hh;
      try (unfold VariantB.handle in Hh; simpl in Hh; discriminate).
    pose proof (InvB_handle _ s s1 I Hh) as I1.
    assert (Hr1 : VariantB.running s1 = false).
    { unfold VariantB.handle in Hh. simpl in Hh. injection Hh as <-.
      simpl. rewrite Hr. reflexivity. }
    change (bind (VariantB.handle VariantB.TogglePause s)
              (fun s1 => VariantB.run (map VariantB.Tick rnds
                                       ++ [VariantB.TogglePause]) s1)
            = Ok s).
    rewrite Hh. simpl. rewrite runB_app, (pausedB_ticks rnds s1 I1 Hr1).
    simpl. unfold VariantB.handle in Hh |- *. simpl in Hh |- *.
    injection Hh as <-. simpl. rewrite Hr. simpl.
    destruct I as [_ _ Hd Hrr Hs _].
    destruct s; simpl in *. subst.
    unfold VariantB.commit, VariantB.setRunning.
    cbn [VariantB.snake VariantB.dir VariantB.food VariantB.running
         VariantB.score VariantB.speed VariantB.dirRef VariantB.runningRef
         VariantB.snakeRef VariantB.stepFood VariantB.timers].
    rewrite !Z.eqb_refl. reflexivity.
Qed.

Lemma pause_and_resume_give_the_state_back_witness :
  VariantA.run [VariantA.TogglePause; VariantA.Tick []; VariantA.Tick [];
                VariantA.TogglePause] PropsA.scenario = Ok PropsA.scenario
  /\ VariantB.run [VariantB.TogglePause; VariantB.Tick []; VariantB.Tick [];
                   VariantB.TogglePause] PropsB.scenario = Ok PropsB.scenario.
Proof.
  split.
  - apply (proj1 pause_and_resume_give_the_state_back PropsA.scenario
             [[]; []]); [|reflexivity].
    apply (VariantA.reach_mount [(3 # 10)%Q; (5 # 13)%Q]). reflexivity.
  - apply (proj2 pause_and_resume_give_the_state_back PropsB.scenario
             [[]; []]); [|reflexivity].
    apply (VariantB.reach_mount [(3 # 10)%Q; (5 # 13)%Q]). reflexivity.
Defined.

Lemma handleA_timers (ev : VariantA.Event) (s s' : VariantA.State) :
  PropsA.Inv s -> PropsA.notTimeout ev = true ->
  VariantA.handle ev s = Ok s' ->
  (VariantA.timers s + (if MoreA.isRestart ev then 1 else 0)
   <= VariantA.timers s')%nat.
Proof.
  intros I Hev. unfold VariantA.handle.
  destruct ev as [rnd | next | rnd | |]; simpl; try discriminate;
    try (intros H; injection H as <-; simpl; lia).
  unfold VariantA.tick. destruct (VariantA.runningRef s); simpl.
  - destruct (VariantA.step rnd s) as [s1| |] eqn:Hstep; simpl;
      try discriminate.
    intros H. injection H as <-. simpl.
    destruct (stepA_outcome rnd s s1 (PropsA.growth_zero s I) Hstep)
      as [_ -> | nh _ _ _ -> | nh newFood _ _ _ _ ->]; simpl; lia.
  - intros H. injection H as <-. simpl. lia.
Qed.

Lemma handleB_timers (ev : VariantB.Event) (s s' : VariantB.State) :
  PropsB.notTimeout ev = true ->
  VariantB.handle ev s = Ok s' ->
  (VariantB.timers s + (if MoreB.isRestart ev then 1 else 0)
   <= VariantB.timers s')%nat.
Proof.
  intros Hev. unfold VariantB.handle.
  destruct ev as [rnd | next | rnd | |]; simpl; try discriminate;
    try (intros H; injection H as <-; simpl; lia).
  unfold VariantB.tick. destruct (VariantB.runningRef s); simpl.
  - destruct (VariantB.step rnd s) as [s1| |] eqn:Hstep; simpl;
      try discriminate.
    intros H. injection H as <-. simpl.
    destruct (stepB_outcome rnd s s1 Hstep)
      as [_ -> | nh _ _ _ -> | nh newFood _ _ _ _ ->]; simpl; lia.
  - intros H. injection H as <-. simpl. lia.
Qed.

Lemma runA_timers (evs : list VariantA.Event) (s s' : VariantA.State) :
  PropsA.Inv s -> forallb PropsA.notTimeout evs = true ->
  VariantA.run evs s = Ok s' ->
  (VariantA.timers s + length (filter MoreA.isRestart evs)
   <= VariantA.timers s')%nat.
Proof.
  revert s. induction evs as [|ev evs IH]; intros s I Hall.
  - simpl. intros H. injection H as <-. lia.
  - simpl in Hall. apply andb_true_iff in Hall as [Hev Hall].
    change (VariantA.run (ev :: evs) s)
      with (bind (VariantA.handle ev s) (fun s1 => VariantA.run evs s1)).
    destruct (VariantA.handle ev s) as [s1| |] eqn:Hh; simpl;
      try discriminate.
    intros Hrun.
    pose proof (handleA_timers ev s s1 I Hev Hh).
    pose proof (IH s1 (InvA_handle ev s s1 I Hh) Hall Hrun).
    destruct (MoreA.isRestart ev); simpl; lia.
Qed.

Lemma runB_timers (evs : list VariantB.Event) (s s' : VariantB.State) :
  forallb PropsB.notTimeout evs = true ->
  VariantB.run evs s = Ok s' ->
  (VariantB.timers s + length (filter MoreB.isRestart evs)
   <= VariantB.timers s')%nat.
Proof.
  revert s. induction evs as [|ev evs IH]; intros s Hall.
  - simpl. intros H. injection H as <-. lia.
  - simpl in Hall. apply andb_true_iff in Hall as [Hev Hall].
    change (VariantB.run (ev :: evs) s)
      with (bind (VariantB.handle ev s) (fun s1 => VariantB.run evs s1)).
    destruct (VariantB.handle ev s) as [s1| |] eqn:Hh; simpl;
      try discriminate.
    intros Hrun.
    pose proof (handleB_timers ev s s1 Hev Hh).
    pose proof (IH s1 Hall Hrun).
    destruct (MoreB.isRestart ev); simpl; lia.
Qed.

(** X15. A requested reset is never cancelled.  Over any events but the
    firing of a timer the number of pending reset timers does not drop,
    and every press on Restart adds one; so a reset that is pending stays
    pending whatever is played, paused or turned meanwhile, and when its
    timer fires the game is put back to the initial state, even if a
    game is running by then.  Both variants. *)
Theorem pending_reset_is_never_cancelled :
  (forall s evs s1,
      VariantA.reachable s -> forallb PropsA.notTimeout evs = true ->
      VariantA.run evs s = Ok s1 ->
      (VariantA.timers s + length (filter MoreA.isRestart evs)
       <= VariantA.timers s1)%nat /\
      (VariantA.timers s <> O ->
       forall rnd s2, VariantA.handle (VariantA.Timeout rnd) s1 = Ok s2 ->
         PropsA.reinitialised s2))
  /\ (forall s evs s1,
      VariantB.reachable s -> forallb PropsB.notTimeout evs = true ->
      VariantB.run evs s = Ok s1 ->
      (VariantB.timers s + length (filter MoreB.isRestart evs)
       <= VariantB.timers s1)%nat /\
      (VariantB.timers s <> O ->
       forall rnd s2, VariantB.handle (VariantB.Timeout rnd) s1 = Ok s2 ->
         PropsB.reinitialised s2)).
Proof.
  split; intros s evs s1 R Hall Hrun.
  - pose proof (runA_timers evs s s1 (InvA_reachable s R) Hall Hrun) as H.
    split; [exact H|]. intros Hne rnd s2 Hh.
    apply (timeoutA_reinitialises rnd s1 s2); [lia | exact Hh].
  - pose proof (runB_timers evs s s1 Hall Hrun) as H.
    split; [exact H|]. intros Hne rnd s2 Hh.
    apply (timeoutB_reinitialises rnd s1 s2); [lia | exact Hh].
Qed.

Lemma pending_reset_is_never_cancelled_witness :
  ((0 + 2 <= 2)%nat /\
   (O <> O ->
    forall rnd s2,
      VariantA.handle (VariantA.Timeout rnd)
        (VariantA.mkState INITIAL_SNAKE RIGHT (mkPoint 6 10) false 0 140
           RIGHT false INITIAL_SNAKE (mkPoint 6 10) 0 2%nat) = Ok s2 ->
      PropsA.reinitialised s2)).
Proof.
  apply (proj1 pending_reset_is_never_cancelled PropsA.scenario
           [VariantA.Restart; VariantA.Tick []; VariantA.Restart]
           (VariantA.mkState INITIAL_SNAKE RIGHT (mkPoint 6 10) false 0 140
              RIGHT false INITIAL_SNAKE (mkPoint 6 10) 0 2%nat)).
  - apply (VariantA.reach_mount [(3 # 10)%Q; (5 # 13)%Q]). reflexivity.
  - reflexivity.
  - reflexivity.
Defined.

End PauseAndRestart.

Section ReversalAndWalls.

Lemma moveHead_back (h : Point) (d : Direction) :
  moveHead (moveHead h d) (opposite d) = h.
Proof.
  destruct h as [a b]. destruct d; unfold moveHead; simpl; f_equal; lia.
Qed.

Lemma neck_in_body (w : bool) (head neck : Point) (rest : list Point) :
  rest <> [] ->
  some_at (VariantA.bodyToCheck w (head :: neck :: rest)) neck = true.
Proof.
  intros Hne. apply some_at_In. unfold VariantA.bodyToCheck.
  destruct w; [|right; left; reflexivity].
  destruct rest as [|r0 rest]; [congruence|].
  change (dropLast (head :: neck :: r0 :: rest))
    with (head :: neck :: dropLast (r0 :: rest)).
  right. left. reflexivity.
Qed.

Lemma stepA_into_neck (rnd : list Q) (s : VariantA.State)
  (head neck : Point) (rest : list Point) :
  VariantA.snake s = head :: neck :: rest -> rest <> [] ->
  moveHead head (VariantA.dirRef s) = neck ->
  VariantA.step rnd s = Ok (PropsA.afterCollision s).
Proof.
  intros Hs Hne Hn. apply stepA_resets; [congruence|].
  destruct (stepA_unfold s head (neck :: rest) Hs) as [_ [_ Hr]].
  rewrite Hr, Hn. apply orb_true_iff. right. apply neck_in_body, Hne.
Qed.

Lemma stepB_into_neck (rnd : list Q) (s : VariantB.State)
  (head neck : Point) (rest : list Point) :
  VariantB.snake s = head :: neck :: rest ->
  moveHead head (VariantB.dirRef s) = neck ->
  VariantB.step rnd s = Ok (PropsB.afterCollision s).
Proof.
  intros Hs Hn. apply stepB_resets; [congruence|].
  destruct (stepB_unfold s head (neck :: rest) Hs) as [_ [_ Hr]].
  rewrite Hr, Hn. apply orb_true_iff. right.
  apply some_at_In. right. left. reflexivity.
Qed.

Lemma double_turn_passes (d perp : Direction) :
  perp <> d -> perp <> opposite d ->
  dirUpdater (opposite d) (dirUpdater perp d) = opposite d.
Proof.
  intros H1 H2. unfold dirUpdater.
  destruct d, perp; simpl in *; congruence.
Qed.

(** X16. Moving back is moving onto the neck: one cell in a direction
    and one in the opposite direction lead back, and a [step] whose new
    head is the second cell of the snake resets (in variant A provided
    the snake has three cells or more, as every reachable snake has).
    The guard of [changeDir] does not keep this from happening: from a
    reachable running state whose snake heads away from its neck, a
    request for a direction across followed by a request for the way
    back are both accepted, and the next tick resets the game. *)
Theorem double_turn_runs_into_the_neck :
  (forall h d, moveHead (moveHead h d) (opposite d) = h)
  /\ (forall s rnd head neck rest,
      VariantA.snake s = head :: neck :: rest -> rest <> [] ->
      moveHead head (VariantA.dirRef s) = neck ->
      VariantA.step rnd s = Ok (PropsA.afterCollision s))
  /\ (forall s rnd head neck rest perp,
      VariantA.reachable s -> VariantA.runningRef s = true ->
      VariantA.snake s = head :: neck :: rest ->
      neck = moveHead head (opposite (VariantA.dirRef s)) ->
      perp <> VariantA.dirRef s -> perp <> opposite (VariantA.dirRef s) ->
      exists s',
        VariantA.run [VariantA.ChangeDir perp;
                      VariantA.ChangeDir (opposite (VariantA.dirRef s));
                      VariantA.Tick rnd] s = Ok s' /\
        VariantA.snake s' = INITIAL_SNAKE /\ VariantA.running s' = false /\
        VariantA.timers s' = S (VariantA.timers s))
  /\ (forall s rnd head neck rest,
      VariantB.snake s = head :: neck :: rest ->
      moveHead head (VariantB.dirRef s) = neck ->
      VariantB.step rnd s = Ok (PropsB.afterCollision s))
  /\ (forall s rnd head neck rest perp,
      VariantB.reachable s -> VariantB.runningRef s = true ->
      VariantB.snake s = head :: neck :: rest ->
      neck = moveHead head (opposite (VariantB.dirRef s)) ->
      perp <> VariantB.dirRef s -> perp <> opposite (VariantB.dirRef s) ->
      exists s',
        VariantB.run [VariantB.ChangeDir perp;
                      VariantB.ChangeDir (opposite (VariantB.dirRef s));
                      VariantB.Tick rnd] s = Ok s' /\
        VariantB.snake s' = INITIAL_SNAKE /\ VariantB.running s' = false /\
        VariantB.timers s' = S (VariantB.timers s)).
Proof.
  split; [exact moveHead_back|]. split; [|split; [|split]].
  - intros s rnd head neck rest. apply stepA_into_neck.
  - intros s rnd head neck rest perp R Hr Hs Hn Hp1 Hp2.
    pose proof (InvA_reachable s R) as I.
    assert (Hne : rest <> []).
    { pose proof (play_length _ (playInvA_reachable s R)) as Hl.
      cbn [MoreA.playOf playSnake] in Hl. rewrite Hs in Hl.
      destruct rest; [simpl in Hl; lia | discriminate]. }
    pose proof (handleA_changeDir s perp I) as Hh1.
    pose proof (InvA_handle _ _ _ I Hh1) as I1.
    pose proof (handleA_changeDir _ (opposite (VariantA.dirRef s)) I1) as Hh2.
    cbn [VariantA.dirRef VariantA.snake VariantA.food VariantA.running
         VariantA.score VariantA.speed VariantA.runningRef VariantA.snakeRef
         VariantA.foodRef VariantA.growthRef VariantA.timers] in Hh2.
    rewrite (double_turn_passes _ _ Hp1 Hp2) in Hh2.
    cbn [VariantA.run]. rewrite Hh1. cbn [bind]. rewrite Hh2. cbn [bind].
    unfold VariantA.handle. cbn [VariantA.handler]. unfold VariantA.tick.
    cbn [VariantA.runningRef]. rewrite Hr. cbn [negb].
    rewrite (stepA_into_neck rnd _ head neck rest); cbn [VariantA.snake VariantA.dirRef];
      [| exact Hs | exact Hne | symmetry; exact Hn].
    cbn [bind]. eexists. split; [reflexivity|]. repeat split.
  - intros s rnd head neck rest. apply stepB_into_neck.
  - intros s rnd head neck rest perp R Hr Hs Hn Hp1 Hp2.
    pose proof (InvB_reachable s R) as I.
    pose proof (handleB_changeDir s perp I) as Hh1.
    pose proof (InvB_handle _ _ _ I Hh1) as I1.
    pose proof (handleB_changeDir _ (opposite (VariantB.dirRef s)) I1) as Hh2.
    cbn [VariantB.dirRef VariantB.snake VariantB.food VariantB.running
         VariantB.score VariantB.speed VariantB.runningRef VariantB.snakeRef
         VariantB.stepFood VariantB.timers] in Hh2.
    rewrite (double_turn_passes _ _ Hp1 Hp2) in Hh2.
    cbn [VariantB.run]. rewrite Hh1. cbn [bind]. rewrite Hh2. cbn [bind].
    unfold VariantB.handle. cbn [VariantB.handler]. unfold VariantB.tick.
    cbn [VariantB.runningRef]. rewrite Hr. cbn [negb].
    rewrite (stepB_into_neck rnd _ head neck rest); cbn [VariantB.snake VariantB.dirRef];
      [| exact Hs | symmetry; exact Hn].
    cbn [bind]. eexists. split; [reflexivity|]. repeat split.
Qed.

Lemma double_turn_runs_into_the_neck_witness :
  (exists s',
     VariantA.run [VariantA.ChangeDir UP; VariantA.ChangeDir LEFT;
                   VariantA.Tick []] PropsA.scenario = Ok s' /\
     VariantA.snake s' = INITIAL_SNAKE /\ VariantA.running s' = false /\
     VariantA.timers s' = 1%nat)
  /\ (exists s',
     VariantB.run [VariantB.ChangeDir DOWN; VariantB.ChangeDir LEFT;
                   VariantB.Tick []] PropsB.scenario = Ok s' /\
     VariantB.snake s' = INITIAL_SNAKE /\ VariantB.running s' = false /\
     VariantB.timers s' = 1%nat).
Proof.
  destruct double_turn_runs_into_the_neck as [_ [_ [HA [_ HB]]]].
  split.
  - apply (HA PropsA.scenario [] (mkPoint 5 10) (mkPoint 4 10)
             [mkPoint 3 10] UP); try reflexivity; try discriminate.
    apply (VariantA.reach_mount [(3 # 10)%Q; (5 # 13)%Q]). reflexivity.
  - apply (HB PropsB.scenario [] (mkPoint 5 10) (mkPoint 4 10)
             [mkPoint 3 10] DOWN); try reflexivity; try discriminate.
    apply (VariantB.reach_mount [(3 # 10)%Q; (5 # 13)%Q]). reflexivity.
Defined.

Lemma hitsWall_onEdge (h : Point) (d : Direction) :
  inBoard h -> (hitsWall (moveHead h d) = true <-> onEdge h d).
Proof.
  intros [Hx Hy]. unfold BOARD_COLS, BOARD_ROWS in *.
  assert (E : hitsWall (moveHead h d) = true <-> ~ inBoard (moveHead h d)).
  { rewrite <- hitsWall_inBoard.
    destruct (hitsWall (moveHead h d)); split; congruence. }
  rewrite E. unfold inBoard, onEdge, BOARD_COLS, BOARD_ROWS.
  destruct d; simpl; lia.
Qed.

(** X17. For a head on the board, the next head is off the board exactly
    when the head stands on the edge its direction points to (row 0
    going UP, row 25 going DOWN, column 0 going LEFT, column 19 going
    RIGHT); from a reachable state with the head on that edge [step]
    takes the reset branch, in either variant. *)
Theorem step_off_an_edge_resets :
  (forall h d, inBoard h -> (hitsWall (moveHead h d) = true <-> onEdge h d))
  /\ (forall s rnd head tl,
      VariantA.reachable s -> VariantA.snake s = head :: tl ->
      onEdge head (VariantA.dirRef s) ->
      VariantA.step rnd s = Ok (PropsA.afterCollision s))
  /\ (forall s rnd head tl,
      VariantB.reachable s -> VariantB.snake s = head :: tl ->
      onEdge head (VariantB.dirRef s) ->
      VariantB.step rnd s = Ok (PropsB.afterCollision s)).
Proof.
  split; [exact hitsWall_onEdge | split].
  - intros s rnd head tl R Hs He.
    pose proof (PropsA.snake_good s (InvA_reachable s R)) as [Hb _].
    rewrite Hs in Hb. inversion Hb as [|? ? Hh _]; subst.
    apply stepA_resets; [congruence|].
    destruct (stepA_unfold s head tl Hs) as [_ [_ Hr]]. rewrite Hr.
    apply orb_true_iff. left. apply (hitsWall_onEdge head _ Hh), He.
  - intros s rnd head tl R Hs He.
    pose proof (PropsB.snake_good s (InvB_reachable s R)) as [Hb _].
    rewrite Hs in Hb. inversion Hb as [|? ? Hh _]; subst.
    apply stepB_resets; [congruence|].
    destruct (stepB_unfold s head tl Hs) as [_ [_ Hr]]. rewrite Hr.
    apply orb_true_iff. left. apply (hitsWall_onEdge head _ Hh), He.
Qed.

Lemma step_off_an_edge_resets_witness :
  hitsWall (moveHead (mkPoint 19 10) RIGHT) = true <->
  onEdge (mkPoint 19 10) RIGHT.
Proof.
  apply (proj1 step_off_an_edge_resets (mkPoint 19 10) RIGHT).
  unfold inBoard, BOARD_COLS, BOARD_ROWS. simpl. lia.
Defined.

End ReversalAndWalls.

(** ** Where the two variants part *)

Section VariantsCompared.

Lemma last_of_dropLast (l : list Point) (c d : Point) :
  In c l -> ~ In c (dropLast l) -> c = last l d.
Proof.
  intros Hin Hnot. destruct l as [|a l]; [contradiction|].
  pose proof (@app_removelast_last _ (a :: l) d ltac:(discriminate)) as E.
  rewrite E in Hin. apply in_app_or in Hin as [Hin | [Hin | []]].
  - contradiction.
  - symmetry. exact Hin.
Qed.

Lemma stepA_spins (rnd : list Q) (s : VariantA.State) (nh : Point) :
  VariantA.nextHeadOf s = Some nh ->
  VariantA.triggersReset s = false -> VariantA.ateFoodAt s = true ->
  randomFood (nh :: VariantA.snake s) rnd = Spin ->
  VariantA.step rnd s = Spin.
Proof.
  intros Hn Ht Ha Hrf.
  destruct (snake_of_nextHeadA s nh Hn) as [head [tl [Hs ->]]].
  destruct (stepA_unfold s head tl Hs) as [_ [Ha' Hr]].
  rewrite Ha in Ha'. rewrite Ht in Hr.
  symmetry in Hr. apply orb_false_iff in Hr as [Hw Hb].
  unfold VariantA.step. rewrite Hs in *. cbv zeta.
  rewrite Hw, Hb, <- Ha'. unfold VariantA.eatFood.
  cbv zeta. rewrite Hrf. reflexivity.
Qed.

Lemma stepB_spins (rnd : list Q) (s : VariantB.State) (nh : Point) :
  VariantB.nextHeadOf s = Some nh ->
  VariantB.triggersReset s = false -> VariantB.ateFoodAt s = true ->
  randomFood (nh :: VariantB.snake s) rnd = Spin ->
  VariantB.step rnd s = Spin.
Proof.
  intros Hn Ht Ha Hrf.
  destruct (snake_of_nextHeadB s nh Hn) as [head [tl [Hs ->]]].
  destruct (stepB_unfold s head tl Hs) as [_ [Ha' Hr]].
  rewrite Ha in Ha'. rewrite Ht in Hr.
  symmetry in Hr. apply orb_false_iff in Hr as [Hw Hb].
  unfold VariantB.step. rewrite Hs in *. cbv zeta.
  rewrite Hw, Hb, <- Ha'. cbn [negb]. rewrite Hrf. reflexivity.
Qed.

(** The comparison at the state of variant B whose [step] holds the
    food that [foodRef] holds. *)
Lemma steps_compared_at_asVariantB :
  (forall s rnd,
      VariantA.growthRef s = 0 ->
      VariantB.triggersReset (asVariantB s) = VariantA.triggersReset s ->
      mapResult screenB (VariantB.step rnd (asVariantB s))
      = mapResult screenA (VariantA.step rnd s))
  /\ (forall s,
      VariantA.growthRef s = 0 ->
      VariantA.triggersReset s = true ->
      VariantB.triggersReset (asVariantB s) = true)
  /\ (forall s nextHead,
      VariantA.growthRef s = 0 ->
      VariantA.nextHeadOf s = Some nextHead ->
      (VariantA.triggersReset s = false /\
       VariantB.triggersReset (asVariantB s) = true
       <-> VariantA.ateFoodAt s = false /\ inBoard nextHead /\
           nextHead = last (VariantA.snake s) nextHead /\
           ~ In nextHead (dropLast (VariantA.snake s)))).
Proof.
  split; [|split].
  - intros s rnd Hg Ht.
    destruct (VariantA.snake s) as [|head tl] eqn:Hs.
    { rewrite (stepA_empty rnd s Hs).
      rewrite (stepB_empty rnd (asVariantB s) Hs). reflexivity. }
    assert (Hne : VariantA.snake s <> []) by congruence.
    destruct (stepA_unfold s head tl Hs) as [Hn _].
    set (nh := moveHead head (VariantA.dirRef s)) in *.
    assert (HnB : VariantB.nextHeadOf (asVariantB s) = Some nh)
      by (unfold VariantB.nextHeadOf, asVariantB; simpl; rewrite Hs;
          reflexivity).
    assert (HaB : VariantB.ateFoodAt (asVariantB s) = VariantA.ateFoodAt s)
      by reflexivity.
    destruct (VariantA.triggersReset s) eqn:HtA.
    + rewrite (stepA_resets rnd s Hne HtA).
      rewrite (stepB_resets rnd (asVariantB s) Hne Ht). reflexivity.
    + destruct (VariantA.ateFoodAt s) eqn:Ha.
      * destruct (randomFood (nh :: VariantA.snake s) rnd) as [f| |] eqn:Hrf.
        -- rewrite (stepA_eats rnd s nh f Hg Hn HtA Ha Hrf).
           rewrite (stepB_eats rnd (asVariantB s) nh f HnB Ht HaB Hrf).
           reflexivity.
        -- exfalso. apply (randomFood_never_throws _ _ Hrf).
        -- rewrite (stepA_spins rnd s nh Hn HtA Ha Hrf).
           rewrite (stepB_spins rnd (asVariantB s) nh HnB Ht HaB Hrf).
           reflexivity.
      * rewrite (stepA_moves rnd s nh Hg Hn HtA Ha).
        rewrite (stepB_moves rnd (asVariantB s) nh HnB Ht HaB).
        reflexivity.
  - intros s Hg. unfold VariantB.triggersReset, VariantA.triggersReset,
      VariantA.willMoveTailAt, VariantB.nextHeadOf, VariantA.nextHeadOf,
      asVariantB.
    cbn [VariantB.snake VariantB.dirRef].
    destruct (VariantA.snake s) as [|head tl]; [discriminate|].
    rewrite !orb_true_iff, !some_at_In. intros [Hw | Hb]; [left; exact Hw|].
    right. unfold VariantA.bodyToCheck in Hb.
    destruct (_ && _); [apply In_dropLast, Hb | exact Hb].
  - intros s nh Hg Hn.
    assert (HnB : VariantB.nextHeadOf (asVariantB s) = Some nh).
    { revert Hn. unfold VariantB.nextHeadOf, VariantA.nextHeadOf, asVariantB.
      cbn [VariantB.snake VariantB.dirRef]. tauto. }
    unfold VariantB.triggersReset, VariantA.triggersReset,
      VariantA.willMoveTailAt.
    rewrite Hn, HnB, Hg. change (0 =? 0) with true. rewrite andb_true_r.
    unfold asVariantB at 1. cbn [VariantB.snake].
    rewrite orb_false_iff, orb_true_iff, hitsWall_inBoard.
    unfold VariantA.bodyToCheck.
    destruct (VariantA.ateFoodAt s); simpl.
    + rewrite some_at_not_In, some_at_In. split.
      * intros [[Hw Hb] [Hw' | Hb']].
        -- apply hitsWall_inBoard in Hw. congruence.
        -- contradiction.
      * intros [H _]. discriminate.
    + rewrite some_at_not_In, some_at_In. split.
      * intros [[Hw Hb] [Hw' | Hb']].
        -- apply hitsWall_inBoard in Hw. congruence.
        -- split; [reflexivity|]. split; [exact Hw|].
           split; [apply (last_of_dropLast _ _ _ Hb' Hb) | exact Hb].
      * intros [_ [Hw [Hl Hb]]]. split; [split; assumption|].
        right. rewrite Hl.
        destruct (VariantA.snake s) as [|a l] eqn:Hs.
        -- unfold VariantA.nextHeadOf in Hn. rewrite Hs in Hn. discriminate.
        -- rewrite (@app_removelast_last _ (a :: l) nh ltac:(discriminate))
             at 2.
           apply in_or_app. right. left. reflexivity.
Qed.

(** What the [step] of variant B shows, and whether it resets, depends
    on the screen, on [dirRef] and on the food it holds only. *)
Lemma stepB_depends_on (b b' : VariantB.State) (rnd : list Q) :
  screenB b = screenB b' -> VariantB.dirRef b = VariantB.dirRef b' ->
  VariantB.stepFood b = VariantB.stepFood b' ->
  mapResult screenB (VariantB.step rnd b)
  = mapResult screenB (VariantB.step rnd b') /\
  VariantB.triggersReset b = VariantB.triggersReset b' /\
  VariantB.nextHeadOf b = VariantB.nextHeadOf b'.
Proof.
  destruct b as [sn di fo ru sc sp dr rr sr sf ti].
  destruct b' as [sn' di' fo' ru' sc' sp' dr' rr' sr' sf' ti'].
  unfold screenB. cbn [VariantB.snake VariantB.dir VariantB.food
    VariantB.running VariantB.score VariantB.speed VariantB.timers
    VariantB.dirRef VariantB.stepFood].
  intros H Hd Hf. injection H as -> -> -> -> -> -> ->. subst dr' sf'.
  split; [|split; reflexivity].
  unfold VariantB.step.
  cbn [VariantB.snake VariantB.dirRef VariantB.stepFood].
  destruct sn' as [|head tl]; [reflexivity|]. cbv zeta.
  destruct (hitsWall (moveHead head dr)); [reflexivity|].
  destruct (some_at (head :: tl) (moveHead head dr)); [reflexivity|].
  destruct (samePoint (moveHead head dr) sf); cbn [negb].
  - cbn [VariantB.setScore VariantB.score VariantB.speed VariantB.setFood].
    destruct (randomFood _ rnd); reflexivity.
  - reflexivity.
Qed.

(** X18. Take a state of variant A with no growth pending and a state of
    variant B that show the same screen (snake, direction, food, score,
    speed, running flag, pending timers), have the same direction in
    [dirRef], and in which the [step] of variant B holds the food that
    [foodRef] of variant A holds.  Then the two [step]s show the same
    result (or are stuck in the same food loop) whenever they agree on
    resetting; variant A never resets where variant B goes on; and
    variant B resets where variant A goes on exactly when no food is
    eaten and the new head, on the board, is the cell of the tail and no
    other cell of the snake.  The condition on the food is needed: two
    reachable states that show the same screen and the same [dirRef],
    neither resetting, can show different results when the [step] of
    variant B holds a stale food. *)
Theorem variants_differ_only_on_the_tail_cell :
  (forall a b rnd,
      screenA a = screenB b -> VariantA.dirRef a = VariantB.dirRef b ->
      VariantA.foodRef a = VariantB.stepFood b ->
      VariantA.growthRef a = 0 ->
      VariantB.triggersReset b = VariantA.triggersReset a ->
      mapResult screenB (VariantB.step rnd b)
      = mapResult screenA (VariantA.step rnd a))
  /\ (forall a b,
      screenA a = screenB b -> VariantA.dirRef a = VariantB.dirRef b ->
      VariantA.foodRef a = VariantB.stepFood b ->
      VariantA.growthRef a = 0 ->
      VariantA.triggersReset a = true -> VariantB.triggersReset b = true)
  /\ (forall a b nextHead,
      screenA a = screenB b -> VariantA.dirRef a = VariantB.dirRef b ->
      VariantA.foodRef a = VariantB.stepFood b ->
      VariantA.growthRef a = 0 ->
      VariantA.nextHeadOf a = Some nextHead ->
      (VariantA.triggersReset a = false /\ VariantB.triggersReset b = true
       <-> VariantA.ateFoodAt a = false /\ inBoard nextHead /\
           nextHead = last (VariantA.snake a) nextHead /\
           ~ In nextHead (dropLast (VariantA.snake a))))
  /\ (exists a b,
      VariantA.reachable a /\ VariantB.reachable b /\
      screenA a = screenB b /\ VariantA.dirRef a = VariantB.dirRef b /\
      VariantA.growthRef a = 0 /\
      VariantA.foodRef a <> VariantB.stepFood b /\
      VariantA.triggersReset a = false /\
      VariantB.triggersReset b = false /\
      mapResult screenB (VariantB.step [0%Q; 0%Q] b)
      <> mapResult screenA (VariantA.step [0%Q; 0%Q] a)).
Proof.
  destruct steps_compared_at_asVariantB as [H1 [H2 H3]].
  assert (Hdep : forall a b rnd,
             screenA a = screenB b ->
             VariantA.dirRef a = VariantB.dirRef b ->
             VariantA.foodRef a = VariantB.stepFood b ->
             mapResult screenB (VariantB.step rnd b)
             = mapResult screenB (VariantB.step rnd (asVariantB a)) /\
             VariantB.triggersReset b
             = VariantB.triggersReset (asVariantB a) /\
             VariantB.nextHeadOf b = VariantB.nextHeadOf (asVariantB a)).
  { intros a b rnd Hs Hd Hf. apply stepB_depends_on.
    - rewrite <- Hs. reflexivity.
    - rewrite <- Hd. reflexivity.
    - rewrite <- Hf. reflexivity. }
  split; [|split; [|split]].
  - intros a b rnd Hs Hd Hf Hg Ht.
    destruct (Hdep a b rnd Hs Hd Hf) as [E1 [E2 _]].
    rewrite E1. apply (H1 a rnd Hg). rewrite <- E2. exact Ht.
  - intros a b Hs Hd Hf Hg Ht.
    destruct (Hdep a b [] Hs Hd Hf) as [_ [E2 _]].
    rewrite E2. apply (H2 a Hg Ht).
  - intros a b nh Hs Hd Hf Hg Hn.
    destruct (Hdep a b [] Hs Hd Hf) as [_ [E2 _]].
    rewrite E2. apply (H3 a nh Hg Hn).
  - exists PropsA.scenario, MoreB.staleFood.
    split; [apply scenario_reachable|].
    split; [apply stale_states_reachable|].
    repeat (split; [reflexivity|]).
    split; [discriminate|]. split; [reflexivity|]. split; [reflexivity|].
    vm_compute. discriminate.
Qed.

Lemma variants_differ_only_on_the_tail_cell_witness :
  mapResult screenB (VariantB.step [0%Q; 0%Q] PropsB.scenario)
  = mapResult screenA (VariantA.step [0%Q; 0%Q] PropsA.scenario).
Proof.
  apply (proj1 variants_differ_only_on_the_tail_cell PropsA.scenario
           PropsB.scenario [0%Q; 0%Q]); reflexivity.
Defined.

End VariantsCompared.
